(** * Multi-taxi planning: the problem model of [multi_taxi_planning.py]

    A shallow embedding of [TaxiProblem]: the state dictionary, the
    enumeration of legal actions, the transition function, the goal test
    and the three heuristics, followed by the properties of the
    specification that were checked against them.

    Conventions of the embedding.
    - A Python [dict] is an association list in insertion order (iteration
      order and the order of the keys in the JSON text depend on it); its
      keys are unique, which theorems assume as [NoDup] of the keys.
    - Python integers are [Z]; true division [/] is exact division in [Q]
      and raises on a zero divisor.
    - A raised exception ([IndexError], [KeyError], [ValueError],
      [ZeroDivisionError], [UnboundLocalError]) is [None].
    - A state is the text [json.dumps] wrote: the document and the indent
      it was written with; [json.loads] gives the document back. *)

From Stdlib Require Import ZArith QArith Ascii String DecimalString.
From Stdlib Require DecimalZ DecimalPos.
From stdpp Require Import base option list strings gmap.

Open Scope string_scope.
Open Scope list_scope.
Open Scope Z_scope.

(** ** Python helpers *)

(** [l[i]]: a negative index counts from the end, out of range raises. *)
Definition py_index {A} (l : list A) (i : Z) : option A :=
  if bool_decide (0 ≤ i) then l !! Z.to_nat i
  else if bool_decide (- Z.of_nat (length l) ≤ i)
       then l !! Z.to_nat (Z.of_nat (length l) + i)
       else None.

(** [str(i)] for an integer. *)
Definition py_str (i : Z) : string := NilZero.string_of_int (Z.to_int i).

(** [a / b], true division. *)
Definition py_truediv (a b : Z) : option Q :=
  if bool_decide (b = 0) then None else Some (inject_Z a / inject_Z b)%Q.

(** [d[k]] on a dictionary. *)
Fixpoint dict_get {V} (k : string) (d : list (string * V)) : option V :=
  match d with
  | [] => None
  | (k', v) :: d' => if bool_decide (k' = k) then Some v else dict_get k d'
  end.

(** [d[k] = f(d[k])] on a dictionary that has the key (the keys of a
    dictionary are unique: at most one entry changes). *)
Definition dict_adjust {V} (k : string) (f : V → V) (d : list (string * V))
  : list (string * V) :=
  (λ kv, if bool_decide (kv.1 = k) then (kv.1, f kv.2) else kv) <$> d.

(** [l.remove(x)]: drops the first occurrence, raises when there is none. *)
Fixpoint list_remove `{EqDecision A} (x : A) (l : list A) : option (list A) :=
  match l with
  | [] => None
  | y :: l' => if bool_decide (y = x) then Some l' else (y ::.) <$> list_remove x l'
  end.

(** [itertools.product] of the lists [ls]: the first list varies slowest. *)
Fixpoint product {A} (ls : list (list A)) : list (list A) :=
  match ls with
  | [] => [[]]
  | l :: ls' => a ← l; (a ::.) <$> product ls'
  end.

(** ** Data model *)

Definition Pos : Type := Z * Z.

Module Taxi.
Record t := mk {
  location : Pos;
  fuel : Z;
  capacity : Z;
  MAX_FUEL : Z;
  passengers_on_taxi : list string
}.
End Taxi.

Module Passenger.
Record t := mk {
  location : Pos;
  destination : Pos;
  is_picked : bool;
  is_arrived : bool;
  current_location : Pos
}.
End Passenger.

Record State := mkState {
  taxis : list (string * Taxi.t);
  passengers : list (string * Passenger.t);
  num_of_undelivered : Z;
  num_of_unpicked : Z;
  num_of_picked_undelivered : Z
}.

(** The state as the search sees it: a JSON text. *)
Record JsonState := mkJson {
  js_indent : option nat;
  js_doc : State
}.

Definition json_dumps (indent : option nat) (state : State) : JsonState :=
  mkJson indent state.
Definition json_loads (s : JsonState) : State := js_doc s.

(** An atomic action of one taxi, [(tag, taxi, operand)]. *)
Inductive Action :=
| Wait (taxi : string)
| Move (taxi : string) (target : Pos)
| PickUp (taxi passenger : string)
| DropOff (taxi passenger : string)
| Refuel (taxi : string).

Definition actor (a : Action) : string :=
  match a with
  | Wait t | Move t _ | PickUp t _ | DropOff t _ | Refuel t => t
  end.

(** What [actions] returns and [result] takes: an atomic action tuple, or a
    tuple of them, one for each taxi. *)
Inductive PyAction :=
| Atomic (a : Action)
| Joint (ja : list Action).

Global Instance Action_eq_dec : EqDecision Action.
Proof. solve_decision. Defined.

Global Instance PyAction_eq_dec : EqDecision PyAction.
Proof. solve_decision. Defined.

(** The input dictionary of [TaxiProblem]. *)
Record TaxiInput := mkTaxiInput {
  ti_location : Pos;
  ti_fuel : Z;
  ti_capacity : Z
}.

Record PassengerInput := mkPassengerInput {
  pi_location : Pos;
  pi_destination : Pos
}.

Abbreviation Map := (list (list string)).

Record Initial := mkInitial {
  i_map : Map;
  i_taxis : list (string * TaxiInput);
  i_passengers : list (string * PassengerInput)
}.

Record TaxiProblem := mkProblem {
  map : Map;
  gas_station : list Pos;
  initial : JsonState
}.

(** ** Construction *)

(** [self.map[x][y]] *)
Definition cell (m : Map) (x y : Z) : option string :=
  row ← py_index m x; py_index row y.

Definition scan_row (m : Map) (x : nat) (width : nat) : option (list Pos) :=
  mjoin <$> mapM (λ y : nat,
     c ← cell m (Z.of_nat x) (Z.of_nat y);
     Some (if bool_decide (c = "G") then [(Z.of_nat x, Z.of_nat y)] else []))
    (seq 0 width).

Definition scan_gas_stations (m : Map) : option (list Pos) :=
  match m with
  | [] => Some []
  | row0 :: _ =>
      mjoin <$> mapM (λ x : nat, scan_row m x (length row0)) (seq 0 (length m))
  end.

Definition init_taxi (ti : TaxiInput) : Taxi.t :=
  Taxi.mk (ti_location ti) (ti_fuel ti) (ti_capacity ti) (ti_fuel ti) [].

Definition init_passenger (p : PassengerInput) : Passenger.t :=
  Passenger.mk (pi_location p) (pi_destination p) false false (pi_location p).

Definition init_state (ini : Initial) : State :=
  mkState (prod_map id init_taxi <$> i_taxis ini)
          (prod_map id init_passenger <$> i_passengers ini)
          (Z.of_nat (length (i_passengers ini)))
          (Z.of_nat (length (i_passengers ini)))
          0.

(** [TaxiProblem.__init__] *)
Definition TaxiProblem_init (ini : Initial) : option TaxiProblem :=
  gs ← scan_gas_stations (i_map ini);
  Some (mkProblem (i_map ini) gs (json_dumps (Some 3%nat) (init_state ini))).

(** ** Enumeration of the actions *)

Definition move_if (cond : bool) (m : Map) (taxi : string) (x y : Z)
  : option (list Action) :=
  if cond then
    c ← cell m x y;
    Some (if bool_decide (c ≠ "I") then [Move taxi (x, y)] else [])
  else Some [].

Definition pick_actions (state : State) (taxi : string) (tx : Taxi.t)
  : list Action :=
  if bool_decide (0 < Taxi.capacity tx) then
    '(passenger, ps) ← passengers state;
    if negb (Passenger.is_picked ps)
       && bool_decide ((Taxi.location tx).1 = (Passenger.location ps).1)
       && bool_decide ((Taxi.location tx).2 = (Passenger.location ps).2)
    then [PickUp taxi passenger] else []
  else [].

Definition drop_actions (state : State) (taxi : string) (tx : Taxi.t)
  : list Action :=
  '(passenger, ps) ← passengers state;
  if bool_decide (passenger ∈ Taxi.passengers_on_taxi tx)
     && bool_decide ((Taxi.location tx).1 = (Passenger.destination ps).1)
     && bool_decide ((Taxi.location tx).2 = (Passenger.destination ps).2)
  then [DropOff taxi passenger] else [].

(** The body of the loop [for taxi in taxis] of [actions]: the list
    [taxi_action] of one taxi. The loops over a dictionary run over its
    entries, key and value together. *)
Definition taxi_action (m : Map) (rows cols : Z) (state : State)
    (entry : string * Taxi.t) : option (list Action) :=
  let '(taxi, tx) := entry in
  let '(x, y) := Taxi.location tx in
  moves ←
    (if bool_decide (0 < Taxi.fuel tx) then
       down ← move_if (bool_decide (x < rows)) m taxi (x + 1) y;
       up ← move_if (bool_decide (1 ≤ x)) m taxi (x - 1) y;
       right ← move_if (bool_decide (y < cols)) m taxi x (y + 1);
       left ← move_if (bool_decide (1 ≤ y)) m taxi x (y - 1);
       Some (down ++ up ++ right ++ left)
     else Some []);
  here ← cell m x y;
  Some ([Wait taxi] ++ moves ++ pick_actions state taxi tx
        ++ drop_actions state taxi tx
        ++ (if bool_decide (here = "G") then [Refuel taxi] else [])).

(** The occupancy key of one atomic action in the collision filter:
    [' '.join(str(elem) for elem in location)]. *)
Definition location_key (loc : Pos) : string :=
  py_str loc.1 +:+ " " +:+ py_str loc.2.

Definition action_location (state : State) (tax_act : Action) : option string :=
  match tax_act with
  | Move _ target => Some (location_key target)
  | _ => tx ← dict_get (actor tax_act) (taxis state);
         Some (location_key (Taxi.location tx))
  end.

(** [locations_count != len(location_set)] for one joint action. *)
Definition collides (state : State) (action : list Action) : option bool :=
  keys ← mapM (action_location state) action;
  let location_set : gset string := list_to_set keys in
  Some (bool_decide (length keys ≠ size location_set)).

(** [action_result.remove(action)] *)
Definition remove_joint (action : list Action) (action_result : list (list Action))
  : list (list Action) :=
  default action_result (list_remove action action_result).

(** The loop [for action in list(action_result)]: [todo] is what is left of
    the copy, [action_result] the list the colliding actions are removed
    from. *)
Fixpoint filter_collisions (state : State) (todo action_result : list (list Action))
  : option (list (list Action)) :=
  match todo with
  | [] => Some action_result
  | action :: todo' =>
      c ← collides state action;
      filter_collisions state todo'
        (if c : bool then remove_joint action action_result else action_result)
  end.

Definition actions (m : Map) (state : JsonState) : option (list PyAction) :=
  let state := json_loads state in
  row0 ← py_index m 0;
  let rows := Z.of_nat (length m) - 1 in
  let cols := Z.of_nat (length row0) - 1 in
  taxis_action ← mapM (taxi_action m rows cols state) (taxis state);
  match taxis_action with
  | [single] => Some (Atomic <$> single)
  | _ =>
      let action_result := product taxis_action in
      fmap (M:=list) Joint <$> filter_collisions state action_result action_result
  end.

(** ** Transition function *)

Definition with_taxis (state : State) (ts : list (string * Taxi.t)) : State :=
  mkState ts (passengers state) (num_of_undelivered state)
          (num_of_unpicked state) (num_of_picked_undelivered state).

Definition set_current_location (target : Pos) (ps : Passenger.t) : Passenger.t :=
  Passenger.mk (Passenger.location ps) (Passenger.destination ps)
               (Passenger.is_picked ps) (Passenger.is_arrived ps) target.

Definition set_is_picked (ps : Passenger.t) : Passenger.t :=
  Passenger.mk (Passenger.location ps) (Passenger.destination ps)
               true (Passenger.is_arrived ps) (Passenger.current_location ps).

Definition set_is_arrived (ps : Passenger.t) : Passenger.t :=
  Passenger.mk (Passenger.location ps) (Passenger.destination ps)
               (Passenger.is_picked ps) true (Passenger.current_location ps).

(** The loop of a move over the passengers on the taxi. *)
Fixpoint carry (target : Pos) (on_taxi : list string)
    (ps : list (string * Passenger.t)) : option (list (string * Passenger.t)) :=
  match on_taxi with
  | [] => Some ps
  | passenger :: on_taxi' =>
      _ ← dict_get passenger ps;
      carry target on_taxi' (dict_adjust passenger (set_current_location target) ps)
  end.

Definition apply_taxi_action (state : State) (taxi_action : Action) : option State :=
  match taxi_action with
  | Wait _ => Some state
  | Move taxi target =>
      tx ← dict_get taxi (taxis state);
      let moved tx :=
        Taxi.mk target (Taxi.fuel tx - 1) (Taxi.capacity tx) (Taxi.MAX_FUEL tx)
                (Taxi.passengers_on_taxi tx) in
      ps ← carry target (Taxi.passengers_on_taxi tx) (passengers state);
      Some (mkState (dict_adjust taxi moved (taxis state)) ps
                    (num_of_undelivered state) (num_of_unpicked state)
                    (num_of_picked_undelivered state))
  | PickUp taxi passenger =>
      _ ← dict_get taxi (taxis state);
      let loaded tx :=
        Taxi.mk (Taxi.location tx) (Taxi.fuel tx) (Taxi.capacity tx - 1)
                (Taxi.MAX_FUEL tx) (Taxi.passengers_on_taxi tx ++ [passenger]) in
      _ ← dict_get passenger (passengers state);
      Some (mkState (dict_adjust taxi loaded (taxis state))
                    (dict_adjust passenger set_is_picked (passengers state))
                    (num_of_undelivered state) (num_of_unpicked state - 1)
                    (num_of_picked_undelivered state + 1))
  | DropOff taxi passenger =>
      tx ← dict_get taxi (taxis state);
      _ ← dict_get passenger (passengers state);
      on_taxi ← list_remove passenger (Taxi.passengers_on_taxi tx);
      let unloaded tx :=
        Taxi.mk (Taxi.location tx) (Taxi.fuel tx) (Taxi.capacity tx + 1)
                (Taxi.MAX_FUEL tx) on_taxi in
      Some (mkState (dict_adjust taxi unloaded (taxis state))
                    (dict_adjust passenger set_is_arrived (passengers state))
                    (num_of_undelivered state - 1) (num_of_unpicked state)
                    (num_of_picked_undelivered state - 1))
  | Refuel taxi =>
      _ ← dict_get taxi (taxis state);
      let refuelled tx :=
        Taxi.mk (Taxi.location tx) (Taxi.MAX_FUEL tx) (Taxi.capacity tx)
                (Taxi.MAX_FUEL tx) (Taxi.passengers_on_taxi tx) in
      Some (with_taxis state (dict_adjust taxi refuelled (taxis state)))
  end.

(** [for taxi_action in action: self.apply_taxi_action(state, taxi_action)] *)
Fixpoint apply_all (state : State) (action : list Action) : option State :=
  match action with
  | [] => Some state
  | taxi_action :: action' =>
      state' ← apply_taxi_action state taxi_action; apply_all state' action'
  end.

(** [result]: [action[0]] is a string for an atomic action and a tuple for a
    joint one; on the empty tuple it raises. *)
Definition result (state : JsonState) (action : PyAction) : option JsonState :=
  let state := json_loads state in
  state' ← match action with
           | Atomic a => apply_taxi_action state a
           | Joint [] => None
           | Joint ja => apply_all state ja
           end;
  Some (json_dumps None state').

Definition goal_test (state : JsonState) : bool :=
  bool_decide (num_of_undelivered (json_loads state) = 0).

(** ** Heuristics *)

Record Node := mkNode { node_state : JsonState }.

Definition manhattan_distance (point1 point2 : Pos) : Z :=
  Z.abs (point1.1 - point2.1) + Z.abs (point1.2 - point2.2).

(** [min_taxi] is bound only when some taxi is closer than 100000. *)
Definition find_distance_of_closest_taxi (passenger_loc : Pos) (state : State)
  : option (Z * string) :=
  let closest :=
    foldl (λ (acc : Z * option string) (entry : string * Taxi.t),
             let pass_dis := manhattan_distance passenger_loc (Taxi.location entry.2) in
             if bool_decide (pass_dis < acc.1) then (pass_dis, Some entry.1) else acc)
          (100000, None) (taxis state) in
  min_taxi ← closest.2; Some (closest.1, min_taxi).

(** The loop of [h] over the passengers; it returns
    [(sum_of_dis_to_dest, sum_of_dis_to_closest_taxi)]. *)
Fixpoint h_sums (state : State) (ps : list (string * Passenger.t))
    (sum_of_dis_to_dest sum_of_dis_to_closest_taxi : Z) : option (Z * Z) :=
  match ps with
  | [] => Some (sum_of_dis_to_dest, sum_of_dis_to_closest_taxi)
  | (_, p) :: ps' =>
      let loc := Passenger.current_location p in
      let dest := Passenger.destination p in
      let to_dest :=
        if Passenger.is_arrived p then sum_of_dis_to_dest
        else sum_of_dis_to_dest + manhattan_distance loc dest in
      to_taxi ←
        (if Passenger.is_picked p then Some sum_of_dis_to_closest_taxi
         else closest ← find_distance_of_closest_taxi loc state;
              Some (sum_of_dis_to_closest_taxi + closest.1));
      h_sums state ps' to_dest to_taxi
  end.

Definition h (node : Node) : option Q :=
  let state := json_loads (node_state node) in
  if bool_decide (num_of_undelivered state = 0) then Some 0%Q else
  sums ← h_sums state (passengers state) 0 0;
  avg_of_dis_to_dest ← py_truediv sums.1 (num_of_undelivered state);
  if bool_decide (0 < num_of_unpicked state) then
    avg_of_dis_to_closest_taxi ← py_truediv sums.2 (num_of_unpicked state);
    let sum_capacity := foldl (λ acc entry, acc + Taxi.capacity entry.2) 0 (taxis state) in
    let diff_cap_unpicked_pass := num_of_unpicked state - sum_capacity in
    if bool_decide (0 < diff_cap_unpicked_pass) then
      Some (avg_of_dis_to_dest + avg_of_dis_to_closest_taxi
            + inject_Z diff_cap_unpicked_pass
            + inject_Z (num_of_undelivered state)
            + inject_Z (num_of_unpicked state))%Q
    else
      Some (avg_of_dis_to_dest + avg_of_dis_to_closest_taxi
            + inject_Z (num_of_undelivered state)
            + inject_Z (num_of_unpicked state))%Q
  else Some (avg_of_dis_to_dest + inject_Z (num_of_undelivered state))%Q.

Definition h_1 (node : Node) : option Q :=
  let state := json_loads (node_state node) in
  py_truediv (num_of_unpicked state * 2 + num_of_picked_undelivered state)
             (Z.of_nat (length (taxis state))).

Definition h_2 (node : Node) : option Q :=
  let state := json_loads (node_state node) in
  let sum_of_initial_distance :=
    foldl (λ acc entry, acc + manhattan_distance (Passenger.destination entry.2)
                                                 (Passenger.location entry.2))
          0 (passengers state) in
  let sum_of_curr_distance :=
    foldl (λ acc entry, acc + manhattan_distance (Passenger.destination entry.2)
                                                 (Passenger.current_location entry.2))
          0 (passengers state) in
  py_truediv (sum_of_initial_distance + sum_of_curr_distance)
             (Z.of_nat (length (taxis state))).

(** ** The JSON text of a state

    What [json.dumps] writes, with the default [ensure_ascii] and
    separators: [", "] and [": "] without an indent; [","], [": "] and a
    new line with [indent * level] spaces before every item with one.
    Two states are the same key of the search exactly when their texts are
    equal. Characters are code points below 256. The keys of a taxi and of
    a passenger come in the order of the documented input, followed by the
    keys [__init__] adds. *)

#[local] Unset Elimination Schemes.
Inductive json :=
| JInt (i : Z)
| JBool (b : bool)
| JStr (s : string)
| JList (l : list json)
| JDict (d : list (string * json)).
#[local] Set Elimination Schemes.

Definition hex_digit (n : N) : ascii :=
  match n with
  | 0 => "0" | 1 => "1" | 2 => "2" | 3 => "3" | 4 => "4" | 5 => "5" | 6 => "6"
  | 7 => "7" | 8 => "8" | 9 => "9" | 10 => "a" | 11 => "b" | 12 => "c"
  | 13 => "d" | 14 => "e" | _ => "f"
  end%N%char.

Definition str1 (c : ascii) : string := String c EmptyString.

(** One character of [encode_basestring_ascii]. *)
Definition escape_char (c : ascii) : string :=
  let n := N_of_ascii c in
  if bool_decide (n = 92)%N then "\\"
  else if bool_decide (n = 34)%N then "\" +:+ str1 c
  else if bool_decide (n = 8)%N then "\b"
  else if bool_decide (n = 12)%N then "\f"
  else if bool_decide (n = 10)%N then "\n"
  else if bool_decide (n = 13)%N then "\r"
  else if bool_decide (n = 9)%N then "\t"
  else if bool_decide (32 ≤ n ≤ 126)%N then str1 c
  else "\u00" +:+ str1 (hex_digit (n / 16)) +:+ str1 (hex_digit (n mod 16)).

Fixpoint escape (s : string) : string :=
  match s with
  | EmptyString => EmptyString
  | String c s' => escape_char c +:+ escape s'
  end.

Definition encode_string (s : string) : string :=
  str1 "034" +:+ escape s +:+ str1 "034".

Fixpoint spaces (n : nat) : string :=
  match n with O => EmptyString | S n' => String " " (spaces n') end.

Definition newline_indent (indent : option nat) (level : nat) : string :=
  match indent with
  | None => EmptyString
  | Some n => String "010" (spaces (n * level))
  end.

Definition item_separator (indent : option nat) : string :=
  match indent with None => ", " | Some _ => "," end.

Fixpoint join (sep : string) (l : list string) : string :=
  match l with
  | [] => EmptyString
  | [x] => x
  | x :: l' => x +:+ sep +:+ join sep l'
  end.

Definition bracket (indent : option nat) (level : nat) (open close : string)
    (items : list string) : string :=
  match items with
  | [] => open +:+ close
  | _ => open +:+ newline_indent indent (S level)
         +:+ join (item_separator indent +:+ newline_indent indent (S level)) items
         +:+ newline_indent indent level +:+ close
  end.

Fixpoint encode (indent : option nat) (level : nat) (v : json) : string :=
  match v with
  | JInt i => py_str i
  | JBool b => if b then "true" else "false"
  | JStr s => encode_string s
  | JList l => bracket indent level "[" "]" (encode indent (S level) <$> l)
  | JDict d =>
      bracket indent level "{" "}"
        ((λ kv, encode_string kv.1 +:+ ": " +:+ encode indent (S level) kv.2) <$> d)
  end.

Definition pos_to_json (p : Pos) : json := JList [JInt p.1; JInt p.2].

Definition taxi_to_json (tx : Taxi.t) : json :=
  JDict [("location", pos_to_json (Taxi.location tx));
         ("fuel", JInt (Taxi.fuel tx));
         ("capacity", JInt (Taxi.capacity tx));
         ("MAX_FUEL", JInt (Taxi.MAX_FUEL tx));
         ("passengers_on_taxi", JList (JStr <$> Taxi.passengers_on_taxi tx))].

Definition passenger_to_json (p : Passenger.t) : json :=
  JDict [("location", pos_to_json (Passenger.location p));
         ("destination", pos_to_json (Passenger.destination p));
         ("is_picked", JBool (Passenger.is_picked p));
         ("is_arrived", JBool (Passenger.is_arrived p));
         ("current_location", pos_to_json (Passenger.current_location p))].

Definition state_to_json (state : State) : json :=
  JDict [("taxis", JDict (prod_map id taxi_to_json <$> taxis state));
         ("passengers", JDict (prod_map id passenger_to_json <$> passengers state));
         ("num_of_undelivered", JInt (num_of_undelivered state));
         ("num_of_unpicked", JInt (num_of_unpicked state));
         ("num_of_picked_undelivered", JInt (num_of_picked_undelivered state))].

(** The characters of the state, as the search hashes and compares them. *)
Definition text (s : JsonState) : string :=
  encode (js_indent s) 0 (state_to_json (js_doc s)).

(** ** Reachable states and plans *)

(** One step of the search: an action the enumerator returned, applied. *)
Inductive reachable (pr : TaxiProblem) : JsonState → Prop :=
| reachable_initial : reachable pr (initial pr)
| reachable_step s acts a s' :
    reachable pr s →
    actions (map pr) s = Some acts →
    a ∈ acts →
    result s a = Some s' →
    reachable pr s'.

(** Runs a plan, checking that every action is one the enumerator returns. *)
Fixpoint run (m : Map) (s : JsonState) (plan : list PyAction) : option JsonState :=
  match plan with
  | [] => Some s
  | a :: plan' =>
      acts ← actions m s;
      if bool_decide (a ∈ acts) then s' ← result s a; run m s' plan' else None
  end.

(** * Vocabulary of the properties *)

(** ** Predicates and measures *)

(** A text without a blank, as [str] of an integer is. *)
Fixpoint no_space (s : string) : Prop :=
  match s with
  | EmptyString => True
  | String c s' => c ≠ " "%char ∧ no_space s'
  end.

(** The number of entries whose value satisfies [Q]. *)
Definition count_if {V} (Q : V → bool) (d : list (string * V)) : nat :=
  length (filter (λ kv : string * V, Q kv.2) d).

(** How often [x] occurs in [l]. *)
Definition occurrences `{EqDecision A} (x : A) (l : list A) : nat :=
  length (filter (x =.) l).

(** The cell a taxi occupies after the step. *)
Definition post_position (state : State) (a : Action) : option Pos :=
  match a with
  | Move _ target => Some target
  | _ => Taxi.location <$> dict_get (actor a) (taxis state)
  end.

(** The condition under which [taxi_action] lists an atomic action. *)
Definition pre (m : Map) (s : State) (a : Action) : Prop :=
  match a with
  | Wait t => is_Some (dict_get t (taxis s))
  | Move t _ => ∃ tx, dict_get t (taxis s) = Some tx ∧ 0 < Taxi.fuel tx
  | PickUp t p =>
      ∃ tx ps, dict_get t (taxis s) = Some tx
               ∧ dict_get p (passengers s) = Some ps
               ∧ 0 < Taxi.capacity tx
               ∧ Passenger.is_picked ps = false
               ∧ Passenger.location ps = Taxi.location tx
  | DropOff t p =>
      ∃ tx ps, dict_get t (taxis s) = Some tx
               ∧ dict_get p (passengers s) = Some ps
               ∧ p ∈ Taxi.passengers_on_taxi tx
               ∧ Passenger.destination ps = Taxi.location tx
  | Refuel t =>
      ∃ tx, dict_get t (taxis s) = Some tx
            ∧ cell m (Taxi.location tx).1 (Taxi.location tx).2 = Some "G"
  end.

(** The passengers the two counters count. *)
Definition unpicked (p : Passenger.t) : bool := negb (Passenger.is_picked p).
Definition undelivered (p : Passenger.t) : bool := negb (Passenger.is_arrived p).

(** The invariant of the reachable states: the names are unique; the
    counters count what they say; a passenger on board a taxi is picked up,
    not arrived, on one taxi only and where the taxi is; a passenger not
    picked up is at the origin and not arrived; an arrived passenger is at
    the destination. *)
Record Inv (s : State) : Prop := {
  inv_taxis : NoDup (taxis s).*1;
  inv_passengers : NoDup (passengers s).*1;
  inv_unpicked :
    num_of_unpicked s = Z.of_nat (count_if unpicked (passengers s));
  inv_undelivered :
    num_of_undelivered s = Z.of_nat (count_if undelivered (passengers s));
  inv_sum :
    num_of_undelivered s = num_of_unpicked s + num_of_picked_undelivered s;
  inv_on_board t tx p :
    dict_get t (taxis s) = Some tx → p ∈ Taxi.passengers_on_taxi tx →
    ∃ ps, dict_get p (passengers s) = Some ps
          ∧ Passenger.is_picked ps = true
          ∧ Passenger.is_arrived ps = false
          ∧ Passenger.current_location ps = Taxi.location tx;
  inv_on_board_NoDup t tx :
    dict_get t (taxis s) = Some tx → NoDup (Taxi.passengers_on_taxi tx);
  inv_one_taxi t1 tx1 t2 tx2 p :
    dict_get t1 (taxis s) = Some tx1 → dict_get t2 (taxis s) = Some tx2 →
    p ∈ Taxi.passengers_on_taxi tx1 → p ∈ Taxi.passengers_on_taxi tx2 → t1 = t2;
  inv_waiting p ps :
    dict_get p (passengers s) = Some ps → Passenger.is_picked ps = false →
    Passenger.current_location ps = Passenger.location ps
    ∧ Passenger.is_arrived ps = false;
  inv_arrived p ps :
    dict_get p (passengers s) = Some ps → Passenger.is_arrived ps = true →
    Passenger.current_location ps = Passenger.destination ps
}.

(** Two atomic actions of one joint action never share a taxi or pick up
    the same passenger. *)
Definition compatible (l : list Action) : Prop :=
  NoDup (actor <$> l) ∧ ∀ t t' p, PickUp t p ∈ l → PickUp t' p ∈ l → t = t'.

(** The cells of the taxis, in the order of the taxis. *)
Definition taxi_locations (s : State) : list Pos := Taxi.location <$> (taxis s).*2.

(** The atomic actions inside a returned action. *)
Definition atomic_actions (x : PyAction) : list Action :=
  match x with Atomic a => [a] | Joint ja => ja end.

(** The input is a pair of Python dictionaries: the names are unique. *)
Definition well_formed (ini : Initial) : Prop :=
  NoDup (i_taxis ini).*1 ∧ NoDup (i_passengers ini).*1.

(** [MAX_FUEL] stays the fuel the taxi started with; the fuel never exceeds
    it, and is never negative for a taxi that did not start with negative
    fuel. *)
Definition fuel_ok (ini : Initial) (s : State) : Prop :=
  ∀ t tx, dict_get t (taxis s) = Some tx →
          ∃ ti, dict_get t (i_taxis ini) = Some ti
                ∧ Taxi.MAX_FUEL tx = ti_fuel ti
                ∧ Taxi.fuel tx ≤ Taxi.MAX_FUEL tx
                ∧ (0 ≤ ti_fuel ti → 0 ≤ Taxi.fuel tx).

(** ** Concrete problems and states *)

(** The sample grid of the documentation. *)
Definition sample : Initial :=
  mkInitial
    [["P"; "P"; "P"; "P"; "P"];
     ["P"; "I"; "P"; "G"; "P"];
     ["P"; "P"; "I"; "P"; "P"];
     ["P"; "P"; "P"; "I"; "P"]]
    [("taxi 1", mkTaxiInput (2, 0) 5 2); ("taxi 2", mkTaxiInput (0, 1) 6 2)]
    [("Iris", mkPassengerInput (0, 0) (1, 4));
     ("Tomer", mkPassengerInput (3, 1) (2, 1));
     ("Sahar", mkPassengerInput (2, 3) (2, 4));
     ("Yarin", mkPassengerInput (3, 0) (3, 2))].

Definition sample_problem : TaxiProblem :=
  mkProblem (i_map sample) [(1, 3)] (json_dumps (Some 3%nat) (init_state sample)).

(** One taxi in a corridor of two cells, its passenger one cell from home. *)
Definition corridor : Initial :=
  mkInitial [["P"; "P"]] [("taxi 1", mkTaxiInput (0, 0) 1 1)]
            [("Iris", mkPassengerInput (0, 0) (0, 1))].

Definition corridor_problem : TaxiProblem :=
  mkProblem (i_map corridor) [] (json_dumps (Some 3%nat) (init_state corridor)).

Definition corridor_plan : list PyAction :=
  [Atomic (PickUp "taxi 1" "Iris"); Atomic (Move "taxi 1" (0, 1));
   Atomic (DropOff "taxi 1" "Iris")].

(** The state after [corridor_plan]: Iris is delivered. *)
Definition corridor_goal : JsonState :=
  mkJson None
    (mkState [("taxi 1", Taxi.mk (0, 1) 0 1 1 [])]
             [("Iris", Passenger.mk (0, 0) (0, 1) true true (0, 1))]
             0 0 0).

(** Two taxis on two free lanes, each with a passenger on board its cell
    and three cells from home. *)
Definition lanes : Initial :=
  mkInitial
    [["P"; "P"; "P"; "P"]; ["P"; "P"; "P"; "P"]]
    [("taxi 1", mkTaxiInput (0, 0) 3 1); ("taxi 2", mkTaxiInput (1, 0) 3 1)]
    [("Iris", mkPassengerInput (0, 0) (0, 3));
     ("Tomer", mkPassengerInput (1, 0) (1, 3))].

Definition lanes_problem : TaxiProblem :=
  mkProblem (i_map lanes) [] (json_dumps (Some 3%nat) (init_state lanes)).

Definition lanes_plan : list PyAction :=
  [Joint [PickUp "taxi 1" "Iris"; PickUp "taxi 2" "Tomer"];
   Joint [Move "taxi 1" (0, 1); Move "taxi 2" (1, 1)];
   Joint [Move "taxi 1" (0, 2); Move "taxi 2" (1, 2)];
   Joint [Move "taxi 1" (0, 3); Move "taxi 2" (1, 3)];
   Joint [DropOff "taxi 1" "Iris"; DropOff "taxi 2" "Tomer"]].

(** The lanes after the first two joint actions of [lanes_plan]. *)
Definition lanes_midway : JsonState :=
  mkJson None
    (mkState [("taxi 1", Taxi.mk (0, 1) 2 0 3 ["Iris"]);
              ("taxi 2", Taxi.mk (1, 1) 2 0 3 ["Tomer"])]
             [("Iris", Passenger.mk (0, 0) (0, 3) true false (0, 1));
              ("Tomer", Passenger.mk (1, 0) (1, 3) true false (1, 1))]
             2 0 2).




(** One taxi next to a gas station. *)
Definition pump : Initial :=
  mkInitial [["P"; "G"]] [("taxi 1", mkTaxiInput (0, 0) 2 1)]
            [("Iris", mkPassengerInput (0, 0) (0, 1))].

Definition pump_problem : TaxiProblem :=
  mkProblem (i_map pump) [(0, 1)] (json_dumps (Some 3%nat) (init_state pump)).

(** The taxi of [pump] after its move to the gas station. *)
Definition pump_low : JsonState :=
  mkJson None
    (mkState [("taxi 1", Taxi.mk (0, 1) 1 1 2 [])]
             [("Iris", Passenger.mk (0, 0) (0, 1) false false (0, 0))]
             1 1 0).

(** The same after the refuel. *)
Definition pump_full : JsonState :=
  mkJson None
    (mkState [("taxi 1", Taxi.mk (0, 1) 2 1 2 [])]
             [("Iris", Passenger.mk (0, 0) (0, 1) false false (0, 0))]
             1 1 0).

(** A taxi that starts on a gas station with negative fuel. *)
Definition overdrawn : Initial :=
  mkInitial [["G"; "P"]] [("taxi 1", mkTaxiInput (0, 0) (-1) 1)]
            [("Iris", mkPassengerInput (0, 0) (0, 1))].

Definition overdrawn_problem : TaxiProblem :=
  mkProblem (i_map overdrawn) [(0, 0)]
            (json_dumps (Some 3%nat) (init_state overdrawn)).

(** [overdrawn] after a refuel. *)
Definition overdrawn_refuelled : JsonState :=
  mkJson None
    (mkState [("taxi 1", Taxi.mk (0, 0) (-1) 1 (-1) [])]
             [("Iris", Passenger.mk (0, 0) (0, 1) false false (0, 0))]
             1 1 0).

(** ** Notions of the claims *)

(** The list [taxi_action] that [actions] builds for one taxi. *)
Definition actions_of_taxi (m : Map) (s : JsonState) (entry : string * Taxi.t)
  : option (list Action) :=
  row0 ← py_index m 0;
  taxi_action m (Z.of_nat (length m) - 1) (Z.of_nat (length row0) - 1)
              (json_loads s) entry.


(** The taxi as a refuel leaves it. *)
Definition after_refuel (tx : Taxi.t) : Taxi.t :=
  Taxi.mk (Taxi.location tx) (Taxi.MAX_FUEL tx) (Taxi.capacity tx)
          (Taxi.MAX_FUEL tx) (Taxi.passengers_on_taxi tx).

(** The pick-up rule in the words of the specification: the same loop as
    [pick_actions], comparing the taxi with [current_location]. *)
Definition pick_actions_current (state : State) (taxi : string) (tx : Taxi.t)
  : list Action :=
  if bool_decide (0 < Taxi.capacity tx) then
    '(passenger, ps) ← passengers state;
    if negb (Passenger.is_picked ps)
       && bool_decide ((Taxi.location tx).1 = (Passenger.current_location ps).1)
       && bool_decide ((Taxi.location tx).2 = (Passenger.current_location ps).2)
    then [PickUp taxi passenger] else []
  else [].

(** The first sum of [h_2]: the distance from origin to destination, over
    all the passengers. *)
Definition origin_distance (state : State) : Z :=
  foldl (λ acc entry, acc + manhattan_distance (Passenger.destination entry.2)
                                               (Passenger.location entry.2))
        0 (passengers state).

(** A heuristic is admissible for a problem when, at every reachable state,
    its value is at most the length of every plan of enumerated actions
    that reaches a goal state: at most the length of the shortest one. *)
Definition admissible (heuristic : Node → option Q) (pr : TaxiProblem) : Prop :=
  ∀ s plan g q,
    reachable pr s → run (map pr) s plan = Some g → goal_test g = true →
    heuristic (mkNode s) = Some q →
    (q <= inject_Z (Z.of_nat (length plan)))%Q.

(** The numerator of [h_1]: the pick-ups and drop-offs still to do. *)
Definition remaining_work (s : State) : Z :=
  num_of_unpicked s * 2 + num_of_picked_undelivered s.

(** * Properties *)

(** ** The model on concrete inputs *)

Example py_index_from_the_end : py_index ["a"; "b"; "c"] (-1) = Some "c".
Proof. reflexivity. Qed.

Example py_index_out_of_range :
  py_index ["a"; "b"; "c"] 3 = None ∧ py_index ["a"; "b"; "c"] (-4) = None.
Proof. split; reflexivity. Qed.

Example py_str_values : py_str (-12) = "-12" ∧ py_str 0 = "0" ∧ py_str 305 = "305".
Proof. split_and!; reflexivity. Qed.

Example location_key_value : location_key (2, 10) = "2 10".
Proof. reflexivity. Qed.

Example product_order :
  product [[1; 2]; [3; 4]] = [[1; 3]; [1; 4]; [2; 3]; [2; 4]].
Proof. reflexivity. Qed.

Example product_of_nothing : product (A:=Action) [] = [[]].
Proof. reflexivity. Qed.

Example list_remove_first : list_remove 2 [1; 2; 3; 2] = Some [1; 3; 2].
Proof. reflexivity. Qed.

Example encode_compact : encode None 0 (JList [JInt 2; JInt 0; JBool true]) = "[2, 0, true]".
Proof. reflexivity. Qed.

Example encode_indented :
  encode (Some 3%nat) 0 (JList [JInt 2; JList [JInt 0]]) = "[
   2,
   [
      0
   ]
]".
Proof. reflexivity. Qed.

Example escape_control : escape (String "009" "a\b") = "\ta\\b".
Proof. reflexivity. Qed.

(** The legal joint actions of the sample grid: taxi 1 at (2, 0) waits or
    moves down, up or right; taxi 2 at (0, 1), below which is a wall, waits
    or moves right or left. *)
Example sample_actions :
  actions (map sample_problem) (initial sample_problem)
  = Some [Joint [Wait "taxi 1"; Wait "taxi 2"];
          Joint [Wait "taxi 1"; Move "taxi 2" (0, 2)];
          Joint [Wait "taxi 1"; Move "taxi 2" (0, 0)];
          Joint [Move "taxi 1" (3, 0); Wait "taxi 2"];
          Joint [Move "taxi 1" (3, 0); Move "taxi 2" (0, 2)];
          Joint [Move "taxi 1" (3, 0); Move "taxi 2" (0, 0)];
          Joint [Move "taxi 1" (1, 0); Wait "taxi 2"];
          Joint [Move "taxi 1" (1, 0); Move "taxi 2" (0, 2)];
          Joint [Move "taxi 1" (1, 0); Move "taxi 2" (0, 0)];
          Joint [Move "taxi 1" (2, 1); Wait "taxi 2"];
          Joint [Move "taxi 1" (2, 1); Move "taxi 2" (0, 2)];
          Joint [Move "taxi 1" (2, 1); Move "taxi 2" (0, 0)]].
Proof. by vm_compute. Qed.

(** On the lanes taxi 1 may not move onto the cell where taxi 2 waits, but
    the two may swap cells: only the cells after the step are compared. *)
Example lanes_collisions :
  collides (init_state lanes) [Move "taxi 1" (1, 0); Wait "taxi 2"] = Some true
  ∧ collides (init_state lanes) [Move "taxi 1" (1, 0); Move "taxi 2" (0, 0)] = Some false.
Proof. split; by vm_compute. Qed.

(** With no taxi the only action is the empty tuple, which [result] cannot
    apply. *)
Example no_taxi :
  actions [["P"]] (mkJson None (mkState [] [] 0 0 0)) = Some [Joint []]
  ∧ result (mkJson None (mkState [] [] 0 0 0)) (Joint []) = None.
Proof. split; by vm_compute. Qed.

(** The heuristics at the initial state of the sample grid. *)
Example sample_heuristics :
  h_1 (mkNode (initial sample_problem)) = Some (8 # 2)
  ∧ h_2 (mkNode (initial sample_problem)) = Some (18 # 2)
  ∧ (∃ q, h (mkNode (initial sample_problem)) = Some q ∧ (q == 12)%Q).
Proof. split_and!; [by vm_compute..|]. eexists. split; by vm_compute. Qed.

(** ** Occupancy keys are one-to-one *)

Section keys.

Lemma string_of_uint_no_space d : no_space (NilEmpty.string_of_uint d).
Proof. induction d; simpl; auto. Qed.

Lemma py_str_no_space i : no_space (py_str i).
Proof.
  unfold py_str, NilZero.string_of_int, NilZero.string_of_uint.
  destruct (Z.to_int i) as [d|d]; destruct d; simpl;
    repeat split; auto using string_of_uint_no_space.
Qed.

Lemma py_str_inj i j : py_str i = py_str j → i = j.
Proof.
  unfold py_str. intros E. apply DecimalZ.to_int_inj.
  assert (nonnil : ∀ z, Z.to_int z ≠ Decimal.Pos Decimal.Nil
                        ∧ Z.to_int z ≠ Decimal.Neg Decimal.Nil).
  { intros [|p|p]; simpl; split; try discriminate;
      intros [= H]; by apply DecimalPos.Unsigned.to_uint_nonnil in H. }
  assert (Some (Z.to_int i) = Some (Z.to_int j)) as [= ->]; [|done].
  rewrite <- (NilZero.isi (Z.to_int i)), <- (NilZero.isi (Z.to_int j))
    by apply nonnil.
  by rewrite E.
Qed.

Lemma split_at_space a b c d :
  no_space a → no_space c →
  a +:+ " " +:+ b = c +:+ " " +:+ d → a = c ∧ b = d.
Proof.
  revert c. induction a as [|x a IH]; intros [|y c]; simpl.
  - intros _ _ E. by simplify_eq.
  - intros _ [Hy _] E. by simplify_eq.
  - intros [Hx _] _ E. by simplify_eq.
  - intros [_ Ha] [_ Hc] E. simplify_eq.
    match goal with H : _ +:+ _ = _ |- _ => destruct (IH c Ha Hc H) as [-> ->] end.
    done.
Qed.

Lemma location_key_inj p q : location_key p = location_key q → p = q.
Proof.
  destruct p as [x y], q as [u v]. unfold location_key. simpl. intros E.
  apply split_at_space in E as [E1 E2]; auto using py_str_no_space.
  by rewrite (py_str_inj _ _ E1), (py_str_inj _ _ E2).
Qed.

Global Instance location_key_Inj : Inj (=) (=) location_key.
Proof. intros p q. apply location_key_inj. Qed.

End keys.

(** ** Dictionaries *)

Section dict.
Context {V : Type}.
Implicit Types (d : list (string * V)) (k : string) (v : V) (f : V → V).

Lemma dict_get_Some_elem k d v : dict_get k d = Some v → (k, v) ∈ d.
Proof.
  induction d as [|[k' v'] d IH]; simpl; [done|].
  case_bool_decide; [intros [= ->]; subst; left | right; auto].
Qed.

Lemma dict_get_None k d : dict_get k d = None ↔ k ∉ d.*1.
Proof.
  induction d as [|[k' v'] d IH]; simpl.
  - split; [intros _; apply not_elem_of_nil | done].
  - rewrite not_elem_of_cons. case_bool_decide; naive_solver.
Qed.

Lemma dict_get_elem k d v : NoDup d.*1 → (k, v) ∈ d → dict_get k d = Some v.
Proof.
  induction d as [|[k' v'] d IH]; simpl; intros ND Hin.
  - by apply elem_of_nil in Hin.
  - apply NoDup_cons in ND as [Hk ND]. apply elem_of_cons in Hin as [[= -> ->]|Hin].
    + by rewrite bool_decide_eq_true_2.
    + rewrite bool_decide_eq_false_2; [auto|].
      intros ->. apply Hk. apply list_elem_of_fmap. by exists (k, v).
Qed.

Lemma dict_get_is_Some k d : is_Some (dict_get k d) ↔ k ∈ d.*1.
Proof.
  destruct (dict_get k d) eqn:E.
  - split; [intros _|eauto]. apply dict_get_Some_elem in E.
    apply list_elem_of_fmap. by exists (k, v).
  - apply dict_get_None in E. split; [by intros []|done].
Qed.

Lemma dict_adjust_cons k f k' v' d :
  dict_adjust k f ((k', v') :: d)
  = (if bool_decide (k' = k) then (k', f v') else (k', v')) :: dict_adjust k f d.
Proof. done. Qed.

Lemma dict_adjust_keys k f d : (dict_adjust k f d).*1 = d.*1.
Proof.
  unfold dict_adjust. rewrite <- list_fmap_compose. apply list_fmap_ext.
  intros _ [k' v'] _. simpl. by case_bool_decide.
Qed.

Lemma dict_get_adjust k k' f d :
  dict_get k' (dict_adjust k f d)
  = if bool_decide (k' = k) then f <$> dict_get k' d else dict_get k' d.
Proof.
  induction d as [|[k0 v0] d IH]; simpl.
  - by case_bool_decide.
  - repeat (case_bool_decide; simpl in *; subst); try done.
Qed.

Lemma dict_get_adjust_eq k f d : dict_get k (dict_adjust k f d) = f <$> dict_get k d.
Proof. by rewrite dict_get_adjust, bool_decide_eq_true_2. Qed.

Lemma dict_get_adjust_ne k k' f d :
  k' ≠ k → dict_get k' (dict_adjust k f d) = dict_get k' d.
Proof. intros. by rewrite dict_get_adjust, bool_decide_eq_false_2. Qed.

Lemma length_dict_adjust k f d : length (dict_adjust k f d) = length d.
Proof. apply length_fmap. Qed.

End dict.

(** ** Counting the entries of a dictionary *)

Section count.
Context {V : Type}.
Implicit Types (d : list (string * V)) (Q : V → bool).

Lemma count_if_cons Q k v d :
  count_if Q ((k, v) :: d) = ((if Q v then 1 else 0) + count_if Q d)%nat.
Proof.
  unfold count_if. rewrite filter_cons. simpl. by destruct (Q v).
Qed.

Lemma count_if_adjust_same Q k f d :
  (∀ v, Q (f v) = Q v) → count_if Q (dict_adjust k f d) = count_if Q d.
Proof.
  intros Hf. induction d as [|[k' v'] d IH]; [done|].
  rewrite dict_adjust_cons.
  case_bool_decide; rewrite !count_if_cons, ?Hf; by rewrite IH.
Qed.

Lemma count_if_adjust_absent Q k f d :
  k ∉ d.*1 → count_if Q (dict_adjust k f d) = count_if Q d.
Proof.
  induction d as [|[k' v'] d IH]; [done|].
  rewrite fmap_cons, not_elem_of_cons. intros [Hne Hk]. simpl in Hne.
  rewrite dict_adjust_cons.
  rewrite bool_decide_eq_false_2 by done. rewrite !count_if_cons. by rewrite IH.
Qed.

Lemma count_if_adjust_drop Q k f d v :
  NoDup d.*1 → dict_get k d = Some v → Q v = true → Q (f v) = false →
  count_if Q d = S (count_if Q (dict_adjust k f d)).
Proof.
  induction d as [|[k' v'] d IH]; [done|].
  rewrite fmap_cons, NoDup_cons. intros [Hk ND] Hget Hv Hfv.
  rewrite dict_adjust_cons. simpl in Hget, Hk.
  destruct (decide (k' = k)) as [->|Hne].
  - rewrite bool_decide_eq_true_2 in Hget |- * by done. simplify_eq.
    rewrite !count_if_cons, Hv, Hfv. by rewrite count_if_adjust_absent.
  - rewrite bool_decide_eq_false_2 in Hget |- * by done.
    rewrite !count_if_cons. rewrite (IH ND Hget Hv Hfv). lia.
Qed.

Lemma count_if_fmap_const {W} Q (g : W → V) (b : bool) (d : list (string * W)) :
  (∀ w, Q (g w) = b) →
  count_if Q (prod_map id g <$> d) = if b then length d else 0%nat.
Proof.
  intros Hg. induction d as [|[k w] d IH]; [by destruct b|].
  rewrite fmap_cons. simpl. rewrite count_if_cons, Hg, IH. by destruct b.
Qed.

End count.

(** ** The product and the collision filter *)

Section enumeration.

Lemma elem_of_product {A} (ja : list A) (ls : list (list A)) :
  ja ∈ product ls ↔ Forall2 (λ a l, a ∈ l) ja ls.
Proof.
  revert ja. induction ls as [|l ls IH]; intros ja; simpl.
  - rewrite list_elem_of_singleton. split; [intros ->; constructor|by inversion 1].
  - rewrite list_elem_of_bind. split.
    + intros (a & Hja & Ha). apply list_elem_of_fmap in Hja as (ja' & -> & Hja').
      constructor; [done|by apply IH].
    + inversion 1 as [|a ? ja' ? Ha Hja']; subst. exists a. split; [|done].
      apply list_elem_of_fmap. exists ja'. split; [done|by apply IH].
Qed.

Lemma occurrences_cons `{EqDecision A} (x y : A) l :
  occurrences x (y :: l) = ((if decide (x = y) then 1 else 0) + occurrences x l)%nat.
Proof. unfold occurrences. rewrite filter_cons. by case_decide. Qed.

Lemma occurrences_0 `{EqDecision A} (x : A) l : occurrences x l = 0%nat ↔ x ∉ l.
Proof.
  induction l as [|y l IH].
  - split; [intros _; apply not_elem_of_nil|done].
  - rewrite occurrences_cons, not_elem_of_cons. case_decide; [|rewrite <- IH]; naive_solver lia.
Qed.

Lemma list_remove_Some `{EqDecision A} (x : A) l l' y :
  list_remove x l = Some l' →
  occurrences y l = ((if decide (y = x) then 1 else 0) + occurrences y l')%nat
  ∧ (y ∈ l' → y ∈ l).
Proof.
  revert l'. induction l as [|z l IH]; intros l'; simpl; [done|].
  case_bool_decide as Hz.
  - intros [= <-]. subst z. rewrite occurrences_cons. split; [done|by right].
  - destruct (list_remove x l) as [l0|]; simpl; [|done]. intros [= <-].
    destruct (IH l0 eq_refl) as [IH1 IH2]. rewrite !occurrences_cons, IH1. split.
    + repeat case_decide; subst; try done; lia.
    + rewrite !elem_of_cons. naive_solver.
Qed.

Lemma list_remove_None `{EqDecision A} (x : A) l : list_remove x l = None → x ∉ l.
Proof.
  induction l as [|z l IH]; simpl; [intros _; apply not_elem_of_nil|].
  case_bool_decide; [done|]. destruct (list_remove x l); simpl; [done|].
  intros _. rewrite not_elem_of_cons. auto.
Qed.

Lemma list_remove_NoDup `{EqDecision A} (x : A) l l' :
  NoDup l → list_remove x l = Some l' →
  NoDup l' ∧ (x ∉ l') ∧ x ∈ l ∧ (∀ y, y ∈ l' ↔ y ∈ l ∧ y ≠ x).
Proof.
  revert l'. induction l as [|z l IH]; intros l'; simpl; [done|].
  rewrite NoDup_cons. intros [Hz ND]. case_bool_decide.
  - intros [= <-]. subst z. split_and!; [done|done|by left|].
    intros y. rewrite elem_of_cons. naive_solver.
  - destruct (list_remove x l) as [l0|]; simpl; [|done]. intros [= <-].
    destruct (IH l0 ND eq_refl) as (ND0 & Hx & Hin & Hiff).
    split_and!.
    + apply NoDup_cons. split; [|done]. rewrite Hiff. naive_solver.
    + rewrite not_elem_of_cons. naive_solver.
    + by right.
    + intros y. rewrite !elem_of_cons, Hiff. naive_solver.
Qed.

Lemma remove_joint_occurrences action ja acc :
  occurrences ja (remove_joint action acc)
  = (occurrences ja acc - (if decide (ja = action) then 1 else 0))%nat
  ∧ (ja ∈ remove_joint action acc → ja ∈ acc).
Proof.
  unfold remove_joint. destruct (list_remove action acc) as [l'|] eqn:E; simpl.
  - destruct (list_remove_Some action acc l' ja E) as [-> ?]. split; [|done].
    case_decide; lia.
  - split; [|done]. apply list_remove_None in E. case_decide; subst; [|lia].
    apply occurrences_0 in E. lia.
Qed.

Lemma filter_collisions_sub state todo acc out ja :
  filter_collisions state todo acc = Some out → ja ∈ out → ja ∈ acc.
Proof.
  revert acc. induction todo as [|action todo IH]; intros acc; simpl.
  - by intros [= ->].
  - destruct (collides state action) as [[]|]; simpl; [|by eauto|done].
    intros E Hin. eapply remove_joint_occurrences, IH; eauto.
Qed.

Lemma filter_collisions_defined state todo acc out ja :
  filter_collisions state todo acc = Some out → ja ∈ todo →
  is_Some (collides state ja).
Proof.
  revert acc. induction todo as [|action todo IH]; intros acc; simpl.
  - intros _ Hin. by apply elem_of_nil in Hin.
  - destruct (collides state action) as [c|] eqn:Hc; simpl; [|done].
    intros E [->|Hin]%elem_of_cons; eauto.
Qed.

Lemma filter_collisions_removed state todo acc out ja :
  filter_collisions state todo acc = Some out →
  collides state ja = Some true →
  (occurrences ja acc ≤ occurrences ja todo)%nat →
  ja ∉ out.
Proof.
  revert acc. induction todo as [|action todo IH]; intros acc; simpl.
  - intros [= ->] _ Hle. apply occurrences_0. unfold occurrences in *. simpl in *. lia.
  - destruct (collides state action) as [c|] eqn:Hc; simpl; [|done].
    intros E Hja Hle. apply (IH _ E Hja). rewrite occurrences_cons in Hle.
    destruct c.
    + destruct (remove_joint_occurrences action ja acc) as [-> _].
      case_decide; lia.
    + case_decide; [congruence|lia].
Qed.

(** The filter keeps exactly joint actions of the product that do not collide. *)
Lemma filter_collisions_keeps state prod out ja :
  filter_collisions state prod prod = Some out → ja ∈ out →
  ja ∈ prod ∧ collides state ja = Some false.
Proof.
  intros E Hin. pose proof (filter_collisions_sub _ _ _ _ _ E Hin) as Hprod.
  split; [done|].
  destruct (filter_collisions_defined _ _ _ _ _ E Hprod) as [[] Hc]; [|done].
  by destruct (filter_collisions_removed _ _ _ _ _ E Hc).
Qed.

Lemma action_location_post state a :
  action_location state a = location_key <$> post_position state a.
Proof. destruct a; simpl; try done; by destruct (dict_get _ (taxis state)). Qed.

Lemma size_list_to_set_le (l : list string) :
  (size (list_to_set l : gset string) ≤ length l)%nat.
Proof.
  induction l as [|x l IH]; [by rewrite list_to_set_nil, size_empty|].
  rewrite list_to_set_cons, size_union_alt, size_singleton.
  assert (size (list_to_set l ∖ {[x]} : gset string) ≤ size (list_to_set l : gset string))%nat
    by (apply subseteq_size; set_solver).
  simpl. lia.
Qed.

Lemma length_size_NoDup (l : list string) :
  length l = size (list_to_set l : gset string) → NoDup l.
Proof.
  induction l as [|x l IH]; [constructor|].
  rewrite list_to_set_cons. intros E. simpl in E.
  destruct (decide (x ∈ l)) as [Hin|Hin].
  - assert ({[x]} ∪ list_to_set l = (list_to_set l : gset string)) as Heq by set_solver.
    rewrite Heq in E. pose proof (size_list_to_set_le l). lia.
  - apply NoDup_cons. split; [done|]. apply IH.
    rewrite size_union in E by set_solver. rewrite size_singleton in E. lia.
Qed.

Lemma collides_false state ja :
  collides state ja = Some false →
  ∃ positions, mapM (post_position state) ja = Some positions ∧ NoDup positions.
Proof.
  unfold collides. destruct (mapM (action_location state) ja) as [keys|] eqn:E;
    simpl; [|done].
  intros [= Hc]. apply bool_decide_eq_false in Hc. apply dec_stable in Hc.
  apply length_size_NoDup in Hc.
  apply mapM_Some in E.
  assert (∃ positions, Forall2 (λ a p, post_position state a = Some p) ja positions
                       ∧ keys = location_key <$> positions) as (ps & Hps & ->).
  { clear Hc. induction E as [|a k ja keys Ha _ (ps & Hps & ->)].
    - by exists [].
    - rewrite action_location_post in Ha.
      destruct (post_position state a) as [p|] eqn:Hp; simplify_eq/=.
      exists (p :: ps). by split; [constructor|]. }
  exists ps. split; [by apply mapM_Some|]. by apply (NoDup_fmap_1 location_key).
Qed.

(** The filter decides exactly whether the post-step cells are distinct. *)
Lemma collides_spec state ja positions :
  mapM (post_position state) ja = Some positions →
  collides state ja = Some (bool_decide (¬ NoDup positions)).
Proof.
  intros Hpos%mapM_Some. unfold collides.
  assert (mapM (action_location state) ja = Some (location_key <$> positions)) as ->.
  { apply mapM_Some. induction Hpos as [|a p ja ps Hp _ IH]; [constructor|].
    rewrite fmap_cons. constructor; [|done].
    by rewrite action_location_post, Hp. }
  simpl. f_equal. apply bool_decide_ext. rewrite <- (NoDup_fmap location_key).
  split.
  - intros Hne ND. by apply Hne, eq_sym, size_list_to_set.
  - intros HND E. by apply HND, length_size_NoDup.
Qed.

(** A joint action that does not collide is never removed. *)
Lemma filter_collisions_kept state todo acc out ja :
  filter_collisions state todo acc = Some out →
  collides state ja = Some false → ja ∈ acc → ja ∈ out.
Proof.
  revert acc. induction todo as [|action todo IH]; intros acc; simpl.
  - by intros [= ->].
  - destruct (collides state action) as [c|] eqn:Hc; simpl; [|done].
    intros E Hja Hin. apply (IH _ E Hja). destruct c; [|done].
    destruct (decide (ja ∈ remove_joint action acc)) as [|Hn]; [done|exfalso].
    apply occurrences_0 in Hn.
    destruct (remove_joint_occurrences action ja acc) as [Hocc _].
    rewrite Hocc, decide_False in Hn by congruence.
    assert (occurrences ja acc = 0%nat) as Hz by lia.
    by apply occurrences_0 in Hz.
Qed.

End enumeration.

(** ** What the enumerator guarantees for each atomic action *)

Section taxi_action.
Context (m : Map) (rows cols : Z) (s : State).

Lemma move_if_elem cond t x y l a :
  move_if cond m t x y = Some l → a ∈ l → a = Move t (x, y).
Proof.
  unfold move_if. destruct cond; [|intros [= <-] Hin; by apply elem_of_nil in Hin].
  destruct (cell m x y) as [c|]; simpl; [|done]. intros [= <-].
  case_bool_decide; [by intros ->%list_elem_of_singleton|].
  intros Hin; by apply elem_of_nil in Hin.
Qed.

Lemma elem_of_pick_actions t tx a :
  a ∈ pick_actions s t tx ↔
  ∃ p ps, a = PickUp t p ∧ (p, ps) ∈ passengers s ∧ 0 < Taxi.capacity tx
          ∧ Passenger.is_picked ps = false
          ∧ Passenger.location ps = Taxi.location tx.
Proof.
  unfold pick_actions. case_bool_decide as Hcap.
  - rewrite list_elem_of_bind. split.
    + intros ([p ps] & Ha & Hin). exists p, ps.
      destruct (Passenger.is_picked ps) eqn:Hp; simpl in Ha;
        [by apply elem_of_nil in Ha|].
      destruct (Passenger.location ps) as [u v] eqn:Hl, (Taxi.location tx) as [x y] eqn:Ht.
      simpl in Ha. repeat case_bool_decide; simpl in Ha;
        try (by apply elem_of_nil in Ha).
      apply list_elem_of_singleton in Ha. by subst.
    + intros (p & ps & -> & Hin & _ & Hp & Hl). exists (p, ps). split; [|done].
      rewrite Hp, Hl. simpl. rewrite !bool_decide_eq_true_2 by done. by left.
  - split; [intros Hin; by apply elem_of_nil in Hin|]. naive_solver.
Qed.

Lemma elem_of_drop_actions t tx a :
  a ∈ drop_actions s t tx ↔
  ∃ p ps, a = DropOff t p ∧ (p, ps) ∈ passengers s
          ∧ p ∈ Taxi.passengers_on_taxi tx
          ∧ Passenger.destination ps = Taxi.location tx.
Proof.
  unfold drop_actions. rewrite list_elem_of_bind. split.
  - intros ([p ps] & Ha & Hin). exists p, ps.
    destruct (Passenger.destination ps) as [u v] eqn:Hl, (Taxi.location tx) as [x y] eqn:Ht.
    simpl in Ha. repeat case_bool_decide; simpl in Ha;
      try (by apply elem_of_nil in Ha).
    apply list_elem_of_singleton in Ha. by subst.
  - intros (p & ps & -> & Hin & Hon & Hl). exists (p, ps). split; [|done].
    rewrite Hl. simpl. rewrite !bool_decide_eq_true_2 by done. by left.
Qed.

(** The shape of the list [taxi_action] builds. *)
Lemma taxi_action_Some t tx l :
  taxi_action m rows cols s (t, tx) = Some l →
  ∃ moves here,
    l = [Wait t] ++ moves ++ pick_actions s t tx ++ drop_actions s t tx
        ++ (if bool_decide (here = "G") then [Refuel t] else [])
    ∧ cell m (Taxi.location tx).1 (Taxi.location tx).2 = Some here
    ∧ ∀ a, a ∈ moves → 0 < Taxi.fuel tx ∧ ∃ target, a = Move t target.
Proof.
  unfold taxi_action. destruct (Taxi.location tx) as [x y]. simpl.
  intros H. apply bind_Some in H as (moves & Hmoves & H).
  apply bind_Some in H as (here & Hhere & [= <-]).
  exists moves, here. split_and!; [done..|].
  intros a Ha. case_bool_decide as Hfuel;
    [|simplify_eq; by apply elem_of_nil in Ha].
  split; [done|].
  apply bind_Some in Hmoves as (down & Hd & Hmoves).
  apply bind_Some in Hmoves as (up & Hu & Hmoves).
  apply bind_Some in Hmoves as (right & Hr & Hmoves).
  apply bind_Some in Hmoves as (left & Hl & [= <-]).
  rewrite !elem_of_app in Ha. destruct Ha as [Ha|[Ha|[Ha|Ha]]];
    eauto using move_if_elem.
Qed.

Lemma taxi_action_sound t tx l a :
  NoDup (passengers s).*1 →
  dict_get t (taxis s) = Some tx →
  taxi_action m rows cols s (t, tx) = Some l → a ∈ l →
  pre m s a ∧ actor a = t.
Proof.
  intros ND Ht (moves & here & -> & Hcell & Hmoves)%taxi_action_Some.
  rewrite !elem_of_app, list_elem_of_singleton.
  intros [->|[Ha|[Ha|[Ha|Ha]]]].
  - simpl. eauto.
  - destruct (Hmoves a Ha) as (Hfuel & target & ->). simpl. eauto.
  - apply elem_of_pick_actions in Ha as (p & ps & -> & Hin & ? & ? & ?).
    simpl. split; [|done]. exists tx, ps. eauto 10 using dict_get_elem.
  - apply elem_of_drop_actions in Ha as (p & ps & -> & Hin & ? & ?).
    simpl. split; [|done]. exists tx, ps. eauto 10 using dict_get_elem.
  - case_bool_decide; [|by apply elem_of_nil in Ha].
    apply list_elem_of_singleton in Ha as ->. subst. simpl. eauto.
Qed.

End taxi_action.

(** ** The effect of one atomic action *)

Section carry.
Implicit Types (ps : list (string * Passenger.t)).

Lemma carry_Some target on_taxi ps ps' :
  carry target on_taxi ps = Some ps' →
  ps'.*1 = ps.*1
  ∧ (∀ q, dict_get q ps'
          = (if bool_decide (q ∈ on_taxi) then set_current_location target else id)
            <$> dict_get q ps)
  ∧ (∀ Q : Passenger.t → bool,
       (∀ p, Q (set_current_location target p) = Q p) → count_if Q ps' = count_if Q ps).
Proof.
  revert ps. induction on_taxi as [|p on_taxi IH]; intros ps; simpl.
  - intros [= <-]. split_and!; [done| |done].
    intros q. by destruct (dict_get q ps).
  - intros (_ & _ & H)%bind_Some. destruct (IH _ H) as (Hk & Hget & Hcount).
    split_and!.
    + by rewrite Hk, dict_adjust_keys.
    + intros q. rewrite Hget, dict_get_adjust.
      destruct (dict_get q ps) as [v|]; simpl; [|by repeat case_bool_decide].
      repeat case_bool_decide; simpl; try done; set_solver.
    + intros Q HQ. rewrite Hcount by done. by apply count_if_adjust_same.
Qed.

End carry.

(** Inverts a successful [apply_taxi_action] into its bindings. *)
Ltac invert_apply H :=
  unfold apply_taxi_action in H;
  repeat match type of H with
         | (_ ≫= _) = Some _ =>
             let x := fresh "x" in let Hx := fresh "Hx" in
             apply bind_Some in H as (x & Hx & H)
         end;
  injection H as <-.

Section effect.
Context (m : Map).

(** An atomic action leaves the other taxis alone. *)
Lemma apply_other_taxi s a s' t :
  apply_taxi_action s a = Some s' → t ≠ actor a →
  dict_get t (taxis s') = dict_get t (taxis s).
Proof.
  intros H Hne. destruct a; simpl in Hne; invert_apply H; simpl;
    by rewrite ?dict_get_adjust_ne.
Qed.

Lemma apply_taxi_keys s a s' :
  apply_taxi_action s a = Some s' →
  (taxis s').*1 = (taxis s).*1 ∧ (passengers s').*1 = (passengers s).*1.
Proof.
  intros H. destruct a; invert_apply H; simpl;
    rewrite ?dict_adjust_keys; try done.
  split; [done|]. by eapply carry_Some.
Qed.

(** Where a taxi is after an atomic action. *)
Lemma apply_location s a s' t :
  apply_taxi_action s a = Some s' →
  Taxi.location <$> dict_get t (taxis s')
  = if bool_decide (t = actor a) then post_position s a
    else Taxi.location <$> dict_get t (taxis s).
Proof.
  intros H. case_bool_decide as Ht; [subst|by erewrite apply_other_taxi].
  destruct a; invert_apply H; simpl;
    rewrite ?dict_get_adjust_eq; try done;
    by repeat match goal with H : dict_get _ _ = Some _ |- _ => rewrite H; clear H end.
Qed.

(** What an atomic action keeps of every passenger: origin and destination,
    and the pick-up flag unless it picks that passenger up. *)
Lemma apply_passenger s a s' q ps :
  apply_taxi_action s a = Some s' →
  dict_get q (passengers s) = Some ps →
  ∃ ps', dict_get q (passengers s') = Some ps'
         ∧ Passenger.location ps' = Passenger.location ps
         ∧ Passenger.destination ps' = Passenger.destination ps
         ∧ ((∀ t, a ≠ PickUp t q) → Passenger.is_picked ps' = Passenger.is_picked ps).
Proof.
  intros H Hq. destruct a; invert_apply H; simpl; eauto.
  - apply carry_Some in Hx0 as (_ & Hget & _). rewrite Hget, Hq. simpl.
    case_bool_decide; eauto.
  - rewrite dict_get_adjust, Hq. case_bool_decide; subst; simpl; eauto.
    eexists; split_and!; eauto. intros Hne. by destruct (Hne taxi).
  - rewrite dict_get_adjust, Hq. case_bool_decide; subst; simpl; eauto.
Qed.

(** Actions of other taxis do not disable an enumerated action, unless both
    pick up the same passenger. *)
Lemma pre_stable s a b s' :
  actor a ≠ actor b →
  (∀ t t' p, a = PickUp t p → b = PickUp t' p → False) →
  pre m s a → apply_taxi_action s b = Some s' → pre m s' a.
Proof.
  intros Hne Hpick Ha Hb.
  pose proof (apply_other_taxi s b s' (actor a) Hb Hne) as Ht.
  destruct a; simpl in *.
  - by rewrite Ht.
  - by rewrite Ht.
  - destruct Ha as (tx & ps & Htx & Hps & ? & ? & ?).
    destruct (apply_passenger _ _ _ _ _ Hb Hps) as (ps' & Hps' & Hl & _ & Hp).
    exists tx, ps'. rewrite Ht, Hl, Hp; [done|]. intros t' ->. eauto.
  - destruct Ha as (tx & ps & Htx & Hps & ? & ?).
    destruct (apply_passenger _ _ _ _ _ Hb Hps) as (ps' & Hps' & _ & Hd & _).
    exists tx, ps'. by rewrite Ht, Hd.
  - by rewrite Ht.
Qed.

End effect.

(** ** The invariant of the reachable states *)

Section invariant.
Context (m : Map).

Lemma dict_get_adjust_Some {V} k k' (f : V → V) d v' :
  dict_get k' (dict_adjust k f d) = Some v' →
  ∃ v, dict_get k' d = Some v ∧ v' = if bool_decide (k' = k) then f v else v.
Proof.
  rewrite dict_get_adjust. case_bool_decide; [|eauto].
  intros (v & ? & ->)%fmap_Some. eauto.
Qed.

Lemma Inv_move s t target s' :
  Inv s → apply_taxi_action s (Move t target) = Some s' → Inv s'.
Proof.
  intros I H. invert_apply H. rename x into tx, Hx into Htx.
  apply carry_Some in Hx0 as (Hk & Hget & Hcount).
  constructor; simpl.
  - rewrite dict_adjust_keys. apply I.
  - rewrite Hk. apply I.
  - rewrite Hcount by done. apply I.
  - rewrite Hcount by done. apply I.
  - apply I.
  - intros t0 tx0 p (tx1 & Ht1 & ->)%dict_get_adjust_Some Hp. rewrite Hget.
    case_bool_decide as Ht0; subst; simpl in *.
    + simplify_eq. destruct (inv_on_board s I _ _ _ Htx Hp) as (ps & -> & ? & ? & ?).
      rewrite bool_decide_eq_true_2 by done. simpl. eauto.
    + destruct (inv_on_board s I _ _ _ Ht1 Hp) as (ps & -> & ? & ? & ?).
      rewrite bool_decide_eq_false_2; [simpl; eauto|].
      intros Hp'. by destruct Ht0; eapply (inv_one_taxi s I).
  - intros t0 tx0 (tx1 & Ht1 & ->)%dict_get_adjust_Some.
    case_bool_decide; simpl; by eapply (inv_on_board_NoDup s I).
  - intros t1 tx1 t2 tx2 p (ty1 & Ht1 & ->)%dict_get_adjust_Some
                             (ty2 & Ht2 & ->)%dict_get_adjust_Some Hp1 Hp2.
    eapply (inv_one_taxi s I _ ty1 _ ty2 p); eauto;
      [clear Hp2; by case_bool_decide|clear Hp1; by case_bool_decide].
  - intros p ps. rewrite Hget. intros (ps0 & Hps0 & ->)%fmap_Some.
    case_bool_decide as Hp; simpl; [|by apply (inv_waiting s I p)].
    destruct (inv_on_board s I _ _ _ Htx Hp) as (ps1 & ? & ? & _).
    simplify_eq. intros; congruence.
  - intros p ps. rewrite Hget. intros (ps0 & Hps0 & ->)%fmap_Some.
    case_bool_decide as Hp; simpl; [|by apply (inv_arrived s I p)].
    destruct (inv_on_board s I _ _ _ Htx Hp) as (ps1 & ? & ? & ? & _).
    simplify_eq. intros; congruence.
Qed.

Lemma Inv_refuel s t s' :
  Inv s → apply_taxi_action s (Refuel t) = Some s' → Inv s'.
Proof.
  intros I H. invert_apply H. constructor; simpl; try apply I.
  - rewrite dict_adjust_keys. apply I.
  - intros t0 tx0 p (tx1 & Ht1 & ->)%dict_get_adjust_Some Hp.
    destruct (inv_on_board s I t0 tx1 p Ht1) as (ps & ?); [by case_bool_decide|].
    exists ps. by case_bool_decide.
  - intros t0 tx0 (tx1 & Ht1 & ->)%dict_get_adjust_Some.
    case_bool_decide; simpl; by eapply (inv_on_board_NoDup s I).
  - intros t1 tx1 t2 tx2 p (ty1 & Ht1 & ->)%dict_get_adjust_Some
                             (ty2 & Ht2 & ->)%dict_get_adjust_Some Hp1 Hp2.
    eapply (inv_one_taxi s I _ ty1 _ ty2 p); eauto;
      [clear Hp2; by case_bool_decide|clear Hp1; by case_bool_decide].
Qed.

Lemma Inv_pick_up s t p s' :
  Inv s → pre m s (PickUp t p) →
  apply_taxi_action s (PickUp t p) = Some s' → Inv s'.
Proof.
  intros I (tx & ps & Htx & Hps & _ & Hpicked & Hloc) H. invert_apply H.
  simplify_eq.
  destruct (inv_waiting s I p ps Hps Hpicked) as [Hcur Harr].
  assert (F : ∀ t0 tx0, dict_get t0 (taxis s) = Some tx0 →
                        p ∉ Taxi.passengers_on_taxi tx0).
  { intros t0 tx0 Ht0 Hp.
    destruct (inv_on_board s I _ _ _ Ht0 Hp) as (? & ? & ? & _). congruence. }
  assert (G : ∀ t0 tx0 q, dict_get t0 (taxis s) = Some tx0 →
                q ∈ Taxi.passengers_on_taxi tx0 →
                ∃ ps0, dict_get q (dict_adjust p set_is_picked (passengers s)) = Some ps0
                       ∧ Passenger.is_picked ps0 = true
                       ∧ Passenger.is_arrived ps0 = false
                       ∧ Passenger.current_location ps0 = Taxi.location tx0).
  { intros t0 tx0 q Ht0 Hq. rewrite dict_get_adjust_ne.
    - by eapply (inv_on_board s I).
    - intros ->. by eapply F. }
  constructor; simpl.
  - rewrite dict_adjust_keys. apply I.
  - rewrite dict_adjust_keys. apply I.
  - rewrite (inv_unpicked s I).
    rewrite (count_if_adjust_drop unpicked p set_is_picked _ ps);
      [lia|apply I|done|by unfold unpicked; rewrite Hpicked|done].
  - rewrite count_if_adjust_same by done. apply I.
  - pose proof (inv_sum s I). lia.
  - intros t0 tx0 q (tx1 & Ht1 & ->)%dict_get_adjust_Some Hq.
    case_bool_decide; subst; simpl in *; [|by eapply G].
    simplify_eq. apply elem_of_app in Hq as [Hq|Hq]; [by eapply G|].
    apply list_elem_of_singleton in Hq as ->.
    rewrite dict_get_adjust_eq, Hps. simpl. eexists. split_and!; eauto. simpl. congruence.
  - intros t0 tx0 (tx1 & Ht1 & ->)%dict_get_adjust_Some.
    case_bool_decide; subst; simpl; [|by eapply (inv_on_board_NoDup s I)].
    apply NoDup_app. split_and!.
    + by eapply (inv_on_board_NoDup s I).
    + intros q Hq ->%list_elem_of_singleton. by eapply F.
    + apply NoDup_singleton.
  - intros t1 tx1 t2 tx2 q (ty1 & Ht1 & ->)%dict_get_adjust_Some
                             (ty2 & Ht2 & ->)%dict_get_adjust_Some Hq1 Hq2.
    pose proof (F _ _ Ht1) as F1. pose proof (F _ _ Ht2) as F2.
    assert (A1 : q ∈ Taxi.passengers_on_taxi ty1 ∨ (t1 = t ∧ q = p)).
    { clear Hq2. case_bool_decide; simpl in Hq1; [|by left].
      apply elem_of_app in Hq1 as [?|Hq1]; [by left|].
      apply list_elem_of_singleton in Hq1. by right. }
    assert (A2 : q ∈ Taxi.passengers_on_taxi ty2 ∨ (t2 = t ∧ q = p)).
    { clear Hq1. case_bool_decide; simpl in Hq2; [|by left].
      apply elem_of_app in Hq2 as [?|Hq2]; [by left|].
      apply list_elem_of_singleton in Hq2. by right. }
    destruct A1 as [A1|[-> ->]], A2 as [A2|[-> E]]; subst; try done.
    by apply (inv_one_taxi s I _ _ _ _ q Ht1 Ht2).
  - intros q ps1 (ps0 & Hps0 & ->)%dict_get_adjust_Some.
    case_bool_decide; subst; simpl; [done|by apply (inv_waiting s I q)].
  - intros q ps1 (ps0 & Hps0 & ->)%dict_get_adjust_Some.
    case_bool_decide; subst; simpl; [|by apply (inv_arrived s I q)].
    simplify_eq. congruence.
Qed.

Lemma Inv_drop_off s t p s' :
  Inv s → pre m s (DropOff t p) →
  apply_taxi_action s (DropOff t p) = Some s' → Inv s'.
Proof.
  intros I (tx & ps & Htx & Hps & Hon & Hdest) H. invert_apply H.
  simplify_eq. rename x1 into rest, Hx1 into Hrest.
  destruct (inv_on_board s I _ _ _ Htx Hon) as (ps' & Hps' & Hpicked & Harr & Hcur).
  simplify_eq.
  destruct (list_remove_NoDup p _ _ (inv_on_board_NoDup s I _ _ Htx) Hrest)
    as (NDrest & Hnotin & _ & Hiff).
  assert (G : ∀ t0 tx0 q, dict_get t0 (taxis s) = Some tx0 →
                q ∈ Taxi.passengers_on_taxi tx0 → q ≠ p →
                ∃ ps0, dict_get q (dict_adjust p set_is_arrived (passengers s)) = Some ps0
                       ∧ Passenger.is_picked ps0 = true
                       ∧ Passenger.is_arrived ps0 = false
                       ∧ Passenger.current_location ps0 = Taxi.location tx0).
  { intros t0 tx0 q Ht0 Hq Hne. rewrite dict_get_adjust_ne by done.
    by eapply (inv_on_board s I). }
  constructor; simpl.
  - rewrite dict_adjust_keys. apply I.
  - rewrite dict_adjust_keys. apply I.
  - rewrite count_if_adjust_same by done. apply I.
  - rewrite (inv_undelivered s I).
    rewrite (count_if_adjust_drop undelivered p set_is_arrived _ ps);
      [lia|apply I|done|by unfold undelivered; rewrite Harr|done].
  - pose proof (inv_sum s I). lia.
  - intros t0 tx0 q (tx1 & Ht1 & ->)%dict_get_adjust_Some Hq.
    case_bool_decide; subst; simpl in *.
    + simplify_eq. apply Hiff in Hq as [Hq Hne]. by eapply (G t).
    + eapply G; eauto. intros ->.
      by pose proof (inv_one_taxi s I _ _ _ _ p Ht1 Htx Hq Hon).
  - intros t0 tx0 (tx1 & Ht1 & ->)%dict_get_adjust_Some.
    case_bool_decide; subst; simpl; [done|by eapply (inv_on_board_NoDup s I)].
  - intros t1 tx1 t2 tx2 q (ty1 & Ht1 & ->)%dict_get_adjust_Some
                             (ty2 & Ht2 & ->)%dict_get_adjust_Some Hq1 Hq2.
    apply (inv_one_taxi s I _ _ _ _ q Ht1 Ht2).
    + clear Hq2. case_bool_decide; subst; simpl in *; [|done].
      simplify_eq. by apply Hiff in Hq1 as [? _].
    + clear Hq1. case_bool_decide; subst; simpl in *; [|done].
      simplify_eq. by apply Hiff in Hq2 as [? _].
  - intros q ps1 (ps0 & Hps0 & ->)%dict_get_adjust_Some.
    case_bool_decide; subst; simpl; [|by apply (inv_waiting s I q)].
    simplify_eq. congruence.
  - intros q ps1 (ps0 & Hps0 & ->)%dict_get_adjust_Some.
    case_bool_decide; subst; simpl; [|by apply (inv_arrived s I q)].
    simplify_eq. congruence.
Qed.

(** Every enumerated atomic action keeps the invariant. *)
Lemma Inv_apply s a s' :
  Inv s → pre m s a → apply_taxi_action s a = Some s' → Inv s'.
Proof.
  destruct a; eauto using Inv_move, Inv_pick_up, Inv_drop_off, Inv_refuel.
  intros I _ [= <-]. done.
Qed.

End invariant.

(** ** Joint actions *)

Lemma compatible_cons a l :
  compatible (a :: l) →
  compatible l
  ∧ ∀ b, b ∈ l → actor b ≠ actor a ∧ ∀ t t' p, b = PickUp t p → a = PickUp t' p → False.
Proof.
  intros [ND Hpick]. rewrite fmap_cons in ND. apply NoDup_cons in ND as [Ha ND].
  split.
  - split; [done|]. intros t t' p H1 H2. apply (Hpick t t' p); by right.
  - intros b Hb.
    assert (actor b ≠ actor a) as Hne.
    { intros E. apply Ha. rewrite <- E. by apply list_elem_of_fmap_2. }
    split; [done|]. intros t t' p -> ->. apply Hne. simpl.
    apply (Hpick t t' p); [by right|by left].
Qed.

Section joint.
Context (m : Map).

(** A property every enumerated atomic action keeps is kept by a joint
    action of compatible enumerated actions. *)
Lemma apply_all_preserves (P : State → Prop) l s s' :
  (∀ s a s', P s → pre m s a → apply_taxi_action s a = Some s' → P s') →
  P s → Forall (pre m s) l → compatible l → apply_all s l = Some s' → P s'.
Proof.
  intros HP. revert s. induction l as [|a l IH]; intros s I Hpre Hc; simpl.
  - by intros [= <-].
  - intros (s1 & Ha & Hl)%bind_Some.
    apply Forall_cons in Hpre as [Hprea Hpre].
    apply compatible_cons in Hc as [Hc Hother].
    apply (IH s1); [by eapply HP| |done..].
    apply Forall_forall. intros b Hb. destruct (Hother b Hb) as [Hne Hpick].
    eapply pre_stable; eauto. by eapply Forall_forall in Hpre.
Qed.

Lemma apply_all_keys l s s' :
  apply_all s l = Some s' →
  (taxis s').*1 = (taxis s).*1 ∧ (passengers s').*1 = (passengers s).*1.
Proof.
  revert s. induction l as [|a l IH]; intros s; simpl.
  - by intros [= <-].
  - intros (s1 & Ha & Hl)%bind_Some. apply apply_taxi_keys in Ha as [<- <-].
    by apply IH.
Qed.

(** After a joint action every taxi stands where its atomic action put it. *)
Lemma apply_all_location l s s' t :
  NoDup (actor <$> l) → apply_all s l = Some s' →
  (∀ a, a ∈ l → actor a = t →
        Taxi.location <$> dict_get t (taxis s') = post_position s a)
  ∧ (t ∉ actor <$> l →
     Taxi.location <$> dict_get t (taxis s') = Taxi.location <$> dict_get t (taxis s)).
Proof.
  revert s. induction l as [|a0 l IH]; intros s; simpl.
  - intros _ [= <-]. split; [|done]. intros a Ha. by apply elem_of_nil in Ha.
  - rewrite NoDup_cons. intros [Ha0 ND] (s1 & Hs1 & Hl)%bind_Some.
    destruct (IH s1 ND Hl) as [IH1 IH2].
    pose proof (apply_location s a0 s1 t Hs1) as Hloc. split.
    + intros a [->|Ha]%elem_of_cons Ht.
      * rewrite IH2 by by subst. by rewrite Hloc, bool_decide_eq_true_2.
      * rewrite (IH1 a Ha Ht).
        assert (actor a ≠ actor a0) as Hne.
        { intros E. apply Ha0. rewrite <- E. by apply list_elem_of_fmap_2. }
        destruct a; simpl; try done; by erewrite apply_other_taxi.
    + rewrite not_elem_of_cons. intros [Hne Ht].
      rewrite (IH2 Ht), Hloc. by rewrite bool_decide_eq_false_2.
Qed.

(** The values of a dictionary are the lookups of its keys. *)
Lemma dict_values_lookup {V} (d : list (string * V)) :
  NoDup d.*1 → Some <$> d.*2 = (λ k, dict_get k d) <$> d.*1.
Proof.
  intros ND. rewrite <- !list_fmap_compose. apply list_fmap_ext.
  intros _ [k v] Hin%list_elem_of_lookup_2. simpl.
  symmetry. by apply dict_get_elem.
Qed.

Lemma taxi_locations_lookup s :
  NoDup (taxis s).*1 →
  Some <$> taxi_locations s
  = (λ t, Taxi.location <$> dict_get t (taxis s)) <$> (taxis s).*1.
Proof.
  intros ND. unfold taxi_locations.
  rewrite <- list_fmap_compose.
  change (Some ∘ Taxi.location) with (fmap (M:=option) Taxi.location ∘ Some).
  rewrite list_fmap_compose, dict_values_lookup by done.
  by rewrite <- list_fmap_compose.
Qed.

Lemma apply_all_taxi_locations ja s s' positions :
  NoDup (taxis s).*1 → actor <$> ja = (taxis s).*1 →
  apply_all s ja = Some s' →
  mapM (post_position s) ja = Some positions →
  taxi_locations s' = positions.
Proof.
  intros ND Hactors Hs' Hpos.
  destruct (apply_all_keys _ _ _ Hs') as [Hk _].
  apply (inj (fmap Some)). rewrite taxi_locations_lookup by by rewrite Hk.
  rewrite Hk, <- Hactors, <- list_fmap_compose.
  rewrite <- Hactors in ND.
  apply mapM_Some in Hpos.
  assert (∀ a, a ∈ ja →
               Taxi.location <$> dict_get (actor a) (taxis s') = post_position s a) as Hloc.
  { intros a Ha. by eapply (apply_all_location ja s s' (actor a)). }
  clear -Hpos Hloc. induction Hpos as [|a p ja ps Hp _ IH]; [done|].
  rewrite !fmap_cons. f_equal.
  - simpl. rewrite Hloc by by left. done.
  - apply IH. intros b Hb. apply Hloc. by right.
Qed.

End joint.

(** ** One step of the search *)

Section step.
Context (m : Map).

(** What [actions] returns, element by element: with one taxi an atomic
    action of its list; otherwise one atomic action for each taxi, in the
    order of the taxis, that passed the collision filter. *)
Lemma actions_elem s acts x :
  actions m s = Some acts → x ∈ acts →
  ∃ rows cols tas,
    Forall2 (λ entry l, taxi_action m rows cols (json_loads s) entry = Some l)
            (taxis (json_loads s)) tas
    ∧ match x with
      | Atomic a => ∃ l, tas = [l] ∧ a ∈ l
      | Joint ja => length tas ≠ 1%nat ∧ Forall2 (λ a l, a ∈ l) ja tas
                    ∧ collides (json_loads s) ja = Some false
      end.
Proof.
  unfold actions. intros (row0 & _ & H)%bind_Some Hx.
  apply bind_Some in H as (tas & Htas%mapM_Some & H).
  eexists _, _, tas. split; [done|].
  assert (J : ∀ out, filter_collisions (json_loads s) (product tas) (product tas) = Some out →
                     x ∈ Joint <$> out →
                     ∃ ja, x = Joint ja ∧ Forall2 (λ a l, a ∈ l) ja tas
                           ∧ collides (json_loads s) ja = Some false).
  { intros out Hout (ja & -> & Hja)%list_elem_of_fmap.
    destruct (filter_collisions_keeps _ _ _ _ Hout Hja) as [Hp Hc].
    exists ja. by rewrite <- elem_of_product. }
  destruct tas as [|l [|l' tas]].
  - apply fmap_Some in H as (out & Hout & ->).
    destruct (J out Hout Hx) as (ja & -> & ? & ?). done.
  - injection H as <-. apply list_elem_of_fmap in Hx as (a & -> & Ha). eauto.
  - apply fmap_Some in H as (out & Hout & ->).
    destruct (J out Hout Hx) as (ja & -> & ? & ?). done.
Qed.

Lemma enumerated_pre_sub s rows cols ents ja tas :
  NoDup (taxis s).*1 → NoDup (passengers s).*1 →
  (∀ e, e ∈ ents → e ∈ taxis s) →
  Forall2 (λ entry l, taxi_action m rows cols s entry = Some l) ents tas →
  Forall2 (λ a l, a ∈ l) ja tas →
  Forall (pre m s) ja ∧ actor <$> ja = ents.*1.
Proof.
  intros NDt NDp Hsub Htas. revert ja Hsub.
  induction Htas as [|[t tx] l ents tas Hl _ IH];
    intros ja Hsub Hja; inversion Hja as [|a ? ja' ? Ha Hja']; subst.
  - by split.
  - destruct (IH ja') as [IH1 IH2]; [intros e He; apply Hsub; by right|done|].
    destruct (taxi_action_sound m rows cols s t tx l a) as [Hpre Hact]; try done.
    { apply dict_get_elem; [done|]. apply Hsub. by left. }
    split; [by constructor|]. rewrite !fmap_cons, IH2, Hact. done.
Qed.

Lemma enumerated_pre s rows cols ja tas :
  NoDup (taxis s).*1 → NoDup (passengers s).*1 →
  Forall2 (λ entry l, taxi_action m rows cols s entry = Some l) (taxis s) tas →
  Forall2 (λ a l, a ∈ l) ja tas →
  Forall (pre m s) ja ∧ actor <$> ja = (taxis s).*1.
Proof. intros. by eapply enumerated_pre_sub. Qed.

Lemma mapM_NoDup_inj {A B} (f : A → option B) l k a b :
  mapM f l = Some k → NoDup k → a ∈ l → b ∈ l → f a = f b → a = b.
Proof.
  intros Hk%mapM_Some. induction Hk as [|x y l k Hx Hk IH]; intros ND Ha Hb E.
  - by apply elem_of_nil in Ha.
  - apply NoDup_cons in ND as [Hy ND].
    assert (∀ c, c ∈ l → f c = Some y → False) as Hfresh.
    { intros c Hc Hfc. apply Hy. clear -Hk Hc Hfc.
      induction Hk as [|x' y' l k Hx' _ IH]; [by apply elem_of_nil in Hc|].
      apply elem_of_cons. apply elem_of_cons in Hc as [->|Hc];
        [left; congruence|right; auto]. }
    apply elem_of_cons in Ha as [->|Ha]; apply elem_of_cons in Hb as [->|Hb];
      try done; [| |by apply IH].
    + destruct (Hfresh b Hb). congruence.
    + destruct (Hfresh a Ha). congruence.
Qed.

(** The collision filter also rules out two pick-ups of one passenger. *)
Lemma joint_compatible s ja positions :
  NoDup (actor <$> ja) → Forall (pre m s) ja →
  mapM (post_position s) ja = Some positions → NoDup positions →
  compatible ja.
Proof.
  intros ND Hpre Hpos NDpos. split; [done|]. intros t t' p Ht Ht'.
  assert (PickUp t p = PickUp t' p) as [= ->]; [|done].
  eapply (mapM_NoDup_inj _ _ _ _ _ Hpos NDpos Ht Ht').
  rewrite Forall_forall in Hpre.
  destruct (Hpre _ Ht) as (tx & ps & Htx & Hps & _ & _ & Hl).
  destruct (Hpre _ Ht') as (tx' & ps' & Htx' & Hps' & _ & _ & Hl').
  simpl. rewrite Htx, Htx'. simpl. congruence.
Qed.

(** Everything the enumerator guarantees, for both shapes of action. *)
Lemma enumerated_facts s acts x :
  NoDup (taxis (json_loads s)).*1 → NoDup (passengers (json_loads s)).*1 →
  actions m s = Some acts → x ∈ acts →
  Forall (pre m (json_loads s)) (atomic_actions x) ∧
  match x with
  | Atomic a => length (taxis (json_loads s)) = 1%nat
  | Joint ja =>
      compatible ja
      ∧ actor <$> ja = (taxis (json_loads s)).*1
      ∧ (∃ positions, mapM (post_position (json_loads s)) ja = Some positions
                      ∧ NoDup positions)
  end.
Proof.
  intros NDt NDp Hacts Hx.
  destruct (actions_elem s acts x Hacts Hx) as (rows & cols & tas & Htas & Hshape).
  destruct x as [a|ja]; simpl.
  - destruct Hshape as (l & -> & Ha).
    inversion Htas as [|[t tx] ? ents ? Hl Hnil E]; subst. inversion Hnil; subst.
    rewrite <- E in *. split; [|done]. apply Forall_singleton.
    destruct (taxi_action_sound m rows cols (json_loads s) t tx l a); try done.
    rewrite <- E. simpl. by rewrite bool_decide_eq_true_2.
  - destruct Hshape as (Hlen & Hja & Hc).
    destruct (enumerated_pre _ _ _ _ _ NDt NDp Htas Hja) as [Hpre Hactors].
    destruct (collides_false _ _ Hc) as (positions & Hpos & NDpos).
    split_and!; eauto. eapply joint_compatible; eauto. by rewrite Hactors.
Qed.

Lemma result_Some s x s' :
  result s x = Some s' →
  js_indent s' = None ∧
  match x with
  | Atomic a => apply_taxi_action (json_loads s) a = Some (json_loads s')
  | Joint ja => apply_all (json_loads s) ja = Some (json_loads s')
  end.
Proof.
  unfold result. intros (st' & Hst' & [= <-])%bind_Some. split; [done|].
  destruct x as [a|[|a ja]]; done.
Qed.

(** Everything a step provides. *)
Lemma step_facts s acts x s' :
  NoDup (taxis (json_loads s)).*1 → NoDup (passengers (json_loads s)).*1 →
  actions m s = Some acts → x ∈ acts → result s x = Some s' →
  js_indent s' = None ∧
  match x with
  | Atomic a =>
      length (taxis (json_loads s)) = 1%nat ∧ pre m (json_loads s) a
      ∧ apply_taxi_action (json_loads s) a = Some (json_loads s')
  | Joint ja =>
      Forall (pre m (json_loads s)) ja ∧ compatible ja
      ∧ actor <$> ja = (taxis (json_loads s)).*1
      ∧ (∃ positions, mapM (post_position (json_loads s)) ja = Some positions
                      ∧ NoDup positions)
      ∧ apply_all (json_loads s) ja = Some (json_loads s')
  end.
Proof.
  intros NDt NDp Hacts Hx Hres.
  destruct (enumerated_facts s acts x NDt NDp Hacts Hx) as [Hpre H].
  destruct (result_Some s x s' Hres) as [Hind Hres'].
  split; [done|]. destruct x as [a|ja]; simpl in *.
  - rewrite Forall_singleton in Hpre. by split_and!.
  - destruct H as (? & ? & ?). by split_and!.
Qed.

(** With several taxis (or none) [actions] returns exactly the joint actions
    made of one listed atomic action for each taxi, in the order of the
    taxis, whose post-step cells are pairwise distinct. *)
Lemma joint_actions_exact s acts ja :
  actions m s = Some acts → length (taxis (json_loads s)) ≠ 1%nat →
  Joint ja ∈ acts ↔
  Forall2 (λ a entry, ∃ l, actions_of_taxi m s entry = Some l ∧ a ∈ l)
          ja (taxis (json_loads s))
  ∧ ∃ positions, mapM (post_position (json_loads s)) ja = Some positions
                 ∧ NoDup positions.
Proof.
  unfold actions, actions_of_taxi.
  intros (row0 & -> & H)%bind_Some Hlen. simpl.
  apply bind_Some in H as (tas & Htas%mapM_Some & H).
  assert (∃ out, filter_collisions (json_loads s) (product tas) (product tas) = Some out
                 ∧ acts = Joint <$> out) as (out & Hout & ->).
  { pose proof (Forall2_length _ _ _ Htas) as Hl.
    destruct tas as [|l [|l' tas]]; [|simpl in Hl; lia|];
      apply fmap_Some in H as (out & ? & ->); eauto. }
  clear H.
  assert (Joint ja ∈ Joint <$> out ↔ ja ∈ out) as ->.
  { rewrite list_elem_of_fmap. split; [by intros (? & [= ->] & ?)|eauto]. }
  assert (Forall2 (λ a l, a ∈ l) ja tas ↔
          Forall2 (λ a entry,
                     ∃ l, taxi_action m (Z.of_nat (length m) - 1)
                            (Z.of_nat (length row0) - 1) (json_loads s) entry = Some l
                          ∧ a ∈ l) ja (taxis (json_loads s))) as Hiff.
  { clear -Htas. revert ja. induction Htas as [|e l ents tas He _ IH]; intros ja.
    - split; inversion 1; constructor.
    - split; inversion 1 as [|a ? ja' ? Ha Hja']; subst; constructor.
      + eauto.
      + by apply IH.
      + destruct Ha as (l' & Hl' & ?). congruence.
      + by apply IH. }
  rewrite <- Hiff, <- elem_of_product. split.
  - intros Hin. destruct (filter_collisions_keeps _ _ _ _ Hout Hin) as [? Hc].
    split; [done|]. by apply collides_false.
  - intros (Hin & positions & Hpos & ND).
    apply (filter_collisions_kept _ _ _ _ _ Hout); [|done].
    rewrite (collides_spec _ _ _ Hpos). f_equal. by apply bool_decide_eq_false_2; intros [].
Qed.

(** A property every enumerated atomic action keeps is kept by a step. *)
Lemma step_preserves (P : State → Prop) s acts x s' :
  (∀ s a s', P s → pre m s a → apply_taxi_action s a = Some s' → P s') →
  NoDup (taxis (json_loads s)).*1 → NoDup (passengers (json_loads s)).*1 →
  P (json_loads s) → actions m s = Some acts → x ∈ acts →
  result s x = Some s' → P (json_loads s').
Proof.
  intros HP NDt NDp I Hacts Hx Hres.
  destruct (step_facts s acts x s' NDt NDp Hacts Hx Hres) as [_ H].
  destruct x as [a|ja].
  - destruct H as (_ & Hpre & Happly). by eapply HP.
  - destruct H as (Hpre & Hc & _ & _ & Happly). by eapply apply_all_preserves.
Qed.

Lemma Inv_step s acts x s' :
  Inv (json_loads s) → actions m s = Some acts → x ∈ acts →
  result s x = Some s' → Inv (json_loads s').
Proof.
  intros I. apply step_preserves; [apply Inv_apply|apply I..].
Qed.

(** After a step no two taxis share a cell. *)
Lemma step_taxi_locations s acts x s' :
  NoDup (taxis (json_loads s)).*1 → NoDup (passengers (json_loads s)).*1 →
  actions m s = Some acts → x ∈ acts → result s x = Some s' →
  NoDup (taxi_locations (json_loads s')).
Proof.
  intros NDt NDp Hacts Hx Hres.
  destruct (step_facts s acts x s' NDt NDp Hacts Hx Hres) as [_ H].
  destruct x as [a|ja].
  - destruct H as (Hlen & _ & Happly).
    apply apply_taxi_keys in Happly as [Hk _].
    assert (length (taxi_locations (json_loads s')) = 1%nat) as Hone.
    { unfold taxi_locations. rewrite !length_fmap.
      rewrite <- (length_fmap fst), Hk, length_fmap. done. }
    destruct (taxi_locations (json_loads s')) as [|p [|]]; try done.
    apply NoDup_singleton.
  - destruct H as (_ & _ & Hactors & (positions & Hpos & ND) & Happly).
    by rewrite (apply_all_taxi_locations ja _ _ positions NDt Hactors Happly Hpos).
Qed.

End step.

(** ** Reachable states *)

Lemma dict_get_prod_map {V W} (g : V → W) k (d : list (string * V)) :
  dict_get k (prod_map id g <$> d) = g <$> dict_get k d.
Proof.
  induction d as [|[k' v] d IH]; [done|].
  rewrite fmap_cons. simpl. by case_bool_decide.
Qed.

Lemma prod_map_keys {V W} (g : V → W) (d : list (string * V)) :
  (prod_map id g <$> d).*1 = d.*1.
Proof. rewrite <- list_fmap_compose. apply list_fmap_ext. by intros ? []. Qed.

Lemma TaxiProblem_init_Some ini pr :
  TaxiProblem_init ini = Some pr →
  map pr = i_map ini ∧ initial pr = json_dumps (Some 3%nat) (init_state ini).
Proof. unfold TaxiProblem_init. intros (gs & _ & [= <-])%bind_Some. done. Qed.

Lemma Inv_initial ini : well_formed ini → Inv (init_state ini).
Proof.
  intros [NDt NDp]. constructor; simpl.
  - by rewrite prod_map_keys.
  - by rewrite prod_map_keys.
  - by rewrite (count_if_fmap_const unpicked init_passenger true).
  - by rewrite (count_if_fmap_const undelivered init_passenger true).
  - lia.
  - intros t tx p. rewrite dict_get_prod_map.
    intros (ti & _ & ->)%fmap_Some Hp. by apply elem_of_nil in Hp.
  - intros t tx. rewrite dict_get_prod_map.
    intros (ti & _ & ->)%fmap_Some. constructor.
  - intros t1 tx1 t2 tx2 p. rewrite dict_get_prod_map.
    intros (ti & _ & ->)%fmap_Some _ Hp. by apply elem_of_nil in Hp.
  - intros p ps. rewrite dict_get_prod_map. by intros (pi & _ & ->)%fmap_Some.
  - intros p ps. rewrite dict_get_prod_map. by intros (pi & _ & ->)%fmap_Some.
Qed.

Section reachable.
Context (ini : Initial) (pr : TaxiProblem).
Hypothesis wf : well_formed ini.
Hypothesis built : TaxiProblem_init ini = Some pr.

Lemma Inv_reachable s : reachable pr s → Inv (json_loads s).
Proof.
  induction 1 as [|s acts a s' _ IH Hacts Ha Hres].
  - destruct (TaxiProblem_init_Some _ _ built) as [_ ->]. by apply Inv_initial.
  - by eapply Inv_step.
Qed.

(** A property of the initial state that every enumerated atomic action
    keeps holds in every reachable state. *)
Lemma reachable_preserves (P : State → Prop) s :
  P (init_state ini) →
  (∀ s a s', P s → pre (map pr) s a → apply_taxi_action s a = Some s' → P s') →
  reachable pr s → P (json_loads s).
Proof.
  intros P0 HP. induction 1 as [|s acts a s' Hs IH Hacts Ha Hres].
  - by destruct (TaxiProblem_init_Some _ _ built) as [_ ->].
  - pose proof (Inv_reachable s Hs) as I.
    eapply step_preserves; eauto; apply I.
Qed.

Lemma fuel_ok_apply s a s' :
  fuel_ok ini s → pre (map pr) s a → apply_taxi_action s a = Some s' → fuel_ok ini s'.
Proof.
  intros F Hpre H t tx. destruct a; invert_apply H; simpl; try apply F.
  - destruct Hpre as (tx0 & Htx0 & Hfuel).
    intros (tx1 & Ht1 & ->)%dict_get_adjust_Some.
    destruct (F _ _ Ht1) as (ti & ? & ? & ? & ?).
    case_bool_decide; subst; simpl; [|by eauto].
    simplify_eq. exists ti. split_and!; [done|done|lia|lia].
  - intros (tx1 & Ht1 & ->)%dict_get_adjust_Some.
    destruct (F _ _ Ht1) as (ti & ? & ? & ? & ?). case_bool_decide; by eauto.
  - intros (tx1 & Ht1 & ->)%dict_get_adjust_Some.
    destruct (F _ _ Ht1) as (ti & ? & ? & ? & ?). case_bool_decide; by eauto.
  - intros (tx1 & Ht1 & ->)%dict_get_adjust_Some.
    destruct (F _ _ Ht1) as (ti & ? & ? & ? & ?).
    case_bool_decide; subst; simpl; [|by eauto].
    exists ti. split_and!; [done|done|lia|lia].
Qed.

Lemma fuel_ok_reachable s : reachable pr s → fuel_ok ini (json_loads s).
Proof.
  apply reachable_preserves; [|apply fuel_ok_apply].
  intros t tx. simpl. rewrite dict_get_prod_map.
  intros (ti & Hti & ->)%fmap_Some. simpl. exists ti. split_and!; [done|done|lia|done].
Qed.

Lemma taxi_locations_reachable s :
  NoDup (ti_location <$> (i_taxis ini).*2) →
  reachable pr s → NoDup (taxi_locations (json_loads s)).
Proof.
  intros ND. destruct 1 as [|s acts a s' Hs Hacts Ha Hres].
  - destruct (TaxiProblem_init_Some _ _ built) as [_ ->]. simpl.
    unfold taxi_locations. simpl.
    rewrite <- !list_fmap_compose in *.
    erewrite list_fmap_ext; [exact ND|]. by intros ? [].
  - pose proof (Inv_reachable s Hs) as I.
    eapply step_taxi_locations; eauto; apply I.
Qed.

End reachable.

(** * The claims of the specification *)

(** ** The concrete problems are well formed *)

Lemma sample_built : TaxiProblem_init sample = Some sample_problem.
Proof. by vm_compute. Qed.
Lemma corridor_built : TaxiProblem_init corridor = Some corridor_problem.
Proof. by vm_compute. Qed.
Lemma lanes_built : TaxiProblem_init lanes = Some lanes_problem.
Proof. by vm_compute. Qed.

Lemma NoDup_decide `{EqDecision A} (l : list A) : bool_decide (NoDup l) = true → NoDup l.
Proof. apply bool_decide_eq_true_1. Qed.

Lemma sample_well_formed : well_formed sample.
Proof. split; by apply NoDup_decide. Qed.
Lemma corridor_well_formed : well_formed corridor.
Proof. split; by apply NoDup_decide. Qed.
Lemma lanes_well_formed : well_formed lanes.
Proof. split; by apply NoDup_decide. Qed.

(** A plan of enumerated actions leads to a reachable state. *)
Lemma run_reachable pr s plan s' :
  reachable pr s → run (map pr) s plan = Some s' → reachable pr s'.
Proof.
  revert s. induction plan as [|a plan IH]; intros s Hs; simpl.
  - by intros [= <-].
  - intros (acts & Hacts & H)%bind_Some. case_bool_decide as Ha; [|done].
    apply bind_Some in H as (s1 & Hs1 & H). apply (IH s1); [|done].
    by eapply reachable_step.
Qed.

Lemma corridor_goal_reachable : reachable corridor_problem corridor_goal.
Proof.
  apply (run_reachable _ (initial corridor_problem) corridor_plan);
    [apply reachable_initial|by vm_compute].
Qed.

Lemma lanes_midway_reachable : reachable lanes_problem lanes_midway.
Proof.
  apply (run_reachable _ (initial lanes_problem) (take 2 lanes_plan));
    [apply reachable_initial|by vm_compute].
Qed.

(** ** C7: one taxi *)

(** C7. With exactly one taxi, [actions] returns the list of atomic actions
    built for that taxi, each as it is ([Atomic]), none wrapped in a
    joint-action tuple; it raises exactly when building that list raises. *)
Theorem single_taxi_actions (m : Map) (s : JsonState) (t : string) (tx : Taxi.t) :
  taxis (json_loads s) = [(t, tx)] →
  actions m s = fmap (M:=list) Atomic <$> actions_of_taxi m s (t, tx).
Proof.
  intros E. unfold actions, actions_of_taxi. rewrite E.
  destruct (py_index m 0) as [row0|]; [|done]. cbn -[taxi_action].
  by destruct (taxi_action m _ _ _ _).
Qed.

Lemma single_taxi_actions_witness :
  actions (map corridor_problem) (initial corridor_problem)
  = Some [Atomic (Wait "taxi 1"); Atomic (Move "taxi 1" (0, 1));
          Atomic (PickUp "taxi 1" "Iris")].
Proof.
  rewrite (single_taxi_actions _ _ "taxi 1" (Taxi.mk (0, 0) 1 1 1 []));
    [by vm_compute|reflexivity].
Defined.

(** ** C3: no collision *)

Lemma taxi_action_actor m rows cols s t tx l a :
  taxi_action m rows cols s (t, tx) = Some l → a ∈ l → actor a = t.
Proof.
  intros (moves & here & -> & Hcell & Hmoves)%taxi_action_Some.
  rewrite !elem_of_app, list_elem_of_singleton.
  intros [->|[Ha|[Ha|[Ha|Ha]]]]; [done| | | |].
  - by destruct (Hmoves a Ha) as (_ & target & ->).
  - by apply elem_of_pick_actions in Ha as (p & ps & -> & _).
  - by apply elem_of_drop_actions in Ha as (p & ps & -> & _).
  - case_bool_decide; [|by apply elem_of_nil in Ha].
    by apply list_elem_of_singleton in Ha as ->.
Qed.

(** C3. With two taxis or more, every action [actions] returns is a joint
    action with one atomic action for each taxi, in the order of the
    taxis, and the cells the taxis occupy after the step (the target of a
    move, the current location of the taxi otherwise) are pairwise
    distinct. *)
Theorem no_collision m s acts x :
  actions m s = Some acts →
  (2 ≤ length (taxis (json_loads s)))%nat →
  x ∈ acts →
  ∃ ja positions,
    x = Joint ja
    ∧ actor <$> ja = (taxis (json_loads s)).*1
    ∧ mapM (post_position (json_loads s)) ja = Some positions
    ∧ NoDup positions.
Proof.
  intros Hacts Hlen Hx.
  destruct (actions_elem m s acts x Hacts Hx) as (rows & cols & tas & Htas & Hshape).
  destruct x as [a|ja].
  - destruct Hshape as (l & -> & _). apply Forall2_length in Htas.
    simpl in Htas. lia.
  - destruct Hshape as (_ & Hja & Hc).
    destruct (collides_false _ _ Hc) as (positions & Hpos & ND).
    exists ja, positions. split_and!; try done.
    clear -Htas Hja. revert ja Hja.
    induction Htas as [|[t tx] l ents tas Hl _ IH]; intros ja Hja;
      inversion Hja as [|a ? ja' ? Ha Hja']; subst; [done|].
    rewrite !fmap_cons, (IH ja' Hja'). simpl.
    by rewrite (taxi_action_actor _ _ _ _ _ _ _ _ Hl Ha).
Qed.

Lemma no_collision_witness :
  ∃ ja positions,
    Joint [Move "taxi 1" (1, 0); Move "taxi 2" (0, 0)] = Joint ja
    ∧ actor <$> ja = (taxis (json_loads (initial sample_problem))).*1
    ∧ mapM (post_position (json_loads (initial sample_problem))) ja = Some positions
    ∧ NoDup positions.
Proof.
  destruct (actions (map sample_problem) (initial sample_problem)) as [acts|] eqn:E;
    [|by vm_compute in E].
  apply (no_collision (map sample_problem) (initial sample_problem) acts);
    [done|simpl; lia|].
  vm_compute in E. injection E as <-. apply (bool_decide_unpack _). by vm_compute.
Defined.

(** ** C5: when a pick-up is enumerated *)










(** ** C4: the counters *)

Lemma count_if_filter {V} (Q : V → bool) (P : string * V → Prop)
    `{∀ e, Decision (P e)} (d : list (string * V)) :
  (∀ e, Q e.2 ↔ P e) → count_if Q d = length (filter P d).
Proof.
  intros HQ. unfold count_if. f_equal. by apply list_filter_iff.
Qed.

(** C4. In every reachable state the three counters agree with each other
    and with the passengers: [num_of_unpicked] is the number of passengers
    with [is_picked] false and [num_of_undelivered] the number of
    passengers with [is_arrived] false. *)
Theorem counter_invariant ini pr s :
  well_formed ini → TaxiProblem_init ini = Some pr → reachable pr s →
  let st := json_loads s in
  num_of_undelivered st = num_of_unpicked st + num_of_picked_undelivered st
  ∧ num_of_unpicked st
    = Z.of_nat (length (filter (λ e, Passenger.is_picked e.2 = false) (passengers st)))
  ∧ num_of_undelivered st
    = Z.of_nat (length (filter (λ e, Passenger.is_arrived e.2 = false) (passengers st))).
Proof.
  intros wf built Hs. pose proof (Inv_reachable ini pr wf built s Hs) as I.
  simpl. split_and!.
  - apply I.
  - rewrite (inv_unpicked _ I). f_equal. apply count_if_filter.
    intros [p ps]. unfold unpicked. simpl. by destruct (Passenger.is_picked ps).
  - rewrite (inv_undelivered _ I). f_equal. apply count_if_filter.
    intros [p ps]. unfold undelivered. simpl. by destruct (Passenger.is_arrived ps).
Qed.

Lemma counter_invariant_witness :
  let st := json_loads corridor_goal in
  num_of_undelivered st = num_of_unpicked st + num_of_picked_undelivered st
  ∧ num_of_unpicked st
    = Z.of_nat (length (filter (λ e, Passenger.is_picked e.2 = false) (passengers st)))
  ∧ num_of_undelivered st
    = Z.of_nat (length (filter (λ e, Passenger.is_arrived e.2 = false) (passengers st))).
Proof.
  apply (counter_invariant corridor corridor_problem corridor_goal).
  - split; by apply NoDup_decide.
  - by vm_compute.
  - apply corridor_goal_reachable.
Defined.

(** ** C9: a waiting passenger is at the origin *)

Lemma list_bind_ext_elem {A B} (f g : A → list B) (l : list A) :
  (∀ x, x ∈ l → f x = g x) → l ≫= f = l ≫= g.
Proof.
  induction l as [|x l IH]; intros H; [done|].
  rewrite !bind_cons, H by by left. f_equal. apply IH. intros y Hy. apply H. by right.
Qed.

(** C9. In every reachable state a passenger who is not picked up has
    [current_location] equal to the origin [location]; hence the
    enumerator's test against the origin lists the same pick-ups as a test
    against [current_location]. *)
Theorem unpicked_at_origin ini pr s :
  well_formed ini → TaxiProblem_init ini = Some pr → reachable pr s →
  (∀ p ps, (p, ps) ∈ passengers (json_loads s) →
           Passenger.is_picked ps = false →
           Passenger.current_location ps = Passenger.location ps)
  ∧ (∀ t tx, pick_actions (json_loads s) t tx
             = pick_actions_current (json_loads s) t tx).
Proof.
  intros wf built Hs. pose proof (Inv_reachable ini pr wf built s Hs) as I.
  assert (Horigin : ∀ p ps, (p, ps) ∈ passengers (json_loads s) →
             Passenger.is_picked ps = false →
             Passenger.current_location ps = Passenger.location ps).
  { intros p ps Hin Hp. eapply (inv_waiting _ I p); [|done].
    apply dict_get_elem; [apply I|done]. }
  split; [done|]. intros t tx. unfold pick_actions, pick_actions_current.
  case_bool_decide; [|done]. apply list_bind_ext_elem. intros [p ps] Hin.
  destruct (Passenger.is_picked ps) eqn:Hp; [done|].
  by rewrite (Horigin p ps Hin Hp).
Qed.

Lemma unpicked_at_origin_witness :
  (∀ p ps, (p, ps) ∈ passengers (json_loads (initial sample_problem)) →
           Passenger.is_picked ps = false →
           Passenger.current_location ps = Passenger.location ps)
  ∧ (∀ t tx, pick_actions (json_loads (initial sample_problem)) t tx
             = pick_actions_current (json_loads (initial sample_problem)) t tx).
Proof.
  apply (unpicked_at_origin sample sample_problem (initial sample_problem)).
  - split; by apply NoDup_decide.
  - by vm_compute.
  - apply reachable_initial.
Defined.

(** ** C10: taxis never share a cell *)

Lemma NoDup_fmap_elem_inj {A B} (f : A → B) (l : list A) x y :
  NoDup (f <$> l) → x ∈ l → y ∈ l → f x = f y → x = y.
Proof.
  induction l as [|z l IH]; [by intros _ ?%elem_of_nil|].
  rewrite fmap_cons, NoDup_cons, list_elem_of_fmap.
  intros [Hz ND] [->|Hx]%elem_of_cons [->|Hy]%elem_of_cons E; try done;
    [destruct Hz; eauto..|by apply IH].
Qed.

(** C10. When the taxis start on pairwise distinct cells, they stand on
    pairwise distinct cells in every reachable state; so no two taxis are
    on the cell of a passenger who waits to be picked up, and no joint
    action the enumerator returns has two taxis pick up the same
    passenger. *)
Theorem taxis_never_share_a_cell ini pr s :
  well_formed ini → TaxiProblem_init ini = Some pr →
  NoDup (ti_location <$> (i_taxis ini).*2) →
  reachable pr s →
  NoDup (taxi_locations (json_loads s))
  ∧ (∀ t1 tx1 t2 tx2 p ps,
       (t1, tx1) ∈ taxis (json_loads s) → (t2, tx2) ∈ taxis (json_loads s) →
       (p, ps) ∈ passengers (json_loads s) → Passenger.is_picked ps = false →
       Taxi.location tx1 = Passenger.current_location ps →
       Taxi.location tx2 = Passenger.current_location ps →
       t1 = t2)
  ∧ (∀ acts ja t1 t2 p,
       actions (map pr) s = Some acts → Joint ja ∈ acts →
       PickUp t1 p ∈ ja → PickUp t2 p ∈ ja → t1 = t2).
Proof.
  intros wf built Hini Hs. pose proof (Inv_reachable ini pr wf built s Hs) as I.
  pose proof (taxi_locations_reachable ini pr wf built s Hini Hs) as ND.
  split_and!; [done| |].
  - intros t1 tx1 t2 tx2 p ps H1 H2 _ _ E1 E2.
    unfold taxi_locations in ND. rewrite <- list_fmap_compose in ND.
    assert ((t1, tx1) = (t2, tx2)) as [= -> _]; [|done].
    apply (NoDup_fmap_elem_inj _ _ _ _ ND H1 H2). simpl. congruence.
  - intros acts ja t1 t2 p Hacts Hja H1 H2.
    destruct (enumerated_facts (map pr) s acts (Joint ja)
                (inv_taxis _ I) (inv_passengers _ I) Hacts Hja)
      as (_ & [_ Hpick] & _).
    by apply (Hpick t1 t2 p).
Qed.

Lemma taxis_never_share_a_cell_witness :
  NoDup (taxi_locations (json_loads lanes_midway))
  ∧ (∀ t1 tx1 t2 tx2 p ps,
       (t1, tx1) ∈ taxis (json_loads lanes_midway) →
       (t2, tx2) ∈ taxis (json_loads lanes_midway) →
       (p, ps) ∈ passengers (json_loads lanes_midway) →
       Passenger.is_picked ps = false →
       Taxi.location tx1 = Passenger.current_location ps →
       Taxi.location tx2 = Passenger.current_location ps →
       t1 = t2)
  ∧ (∀ acts ja t1 t2 p,
       actions (map lanes_problem) lanes_midway = Some acts →
       Joint ja ∈ acts →
       PickUp t1 p ∈ ja → PickUp t2 p ∈ ja → t1 = t2).
Proof.
  apply (taxis_never_share_a_cell lanes lanes_problem lanes_midway).
  - split; by apply NoDup_decide.
  - by vm_compute.
  - by apply NoDup_decide.
  - apply lanes_midway_reachable.
Defined.

(** ** C6: fuel *)

Lemma pump_built : TaxiProblem_init pump = Some pump_problem.
Proof. by vm_compute. Qed.

Lemma pump_well_formed : well_formed pump.
Proof. split; by apply NoDup_decide. Qed.

Lemma pump_low_reachable : reachable pump_problem pump_low.
Proof.
  apply (run_reachable _ (initial pump_problem) [Atomic (Move "taxi 1" (0, 1))]);
    [apply reachable_initial|by vm_compute].
Qed.

(** At the gas station the refuel is enumerated, and it fills the tank. *)
Example pump_refuel :
  actions (map pump_problem) pump_low
  = Some [Atomic (Wait "taxi 1"); Atomic (Move "taxi 1" (0, 0));
          Atomic (Refuel "taxi 1")]
  ∧ result pump_low (Atomic (Refuel "taxi 1")) = Some pump_full.
Proof. split; by vm_compute. Qed.

(** What a refuel does to its taxi. *)
Lemma apply_refuel s t s' :
  apply_taxi_action s (Refuel t) = Some s' →
  ∃ tx, dict_get t (taxis s) = Some tx
        ∧ dict_get t (taxis s') = Some (after_refuel tx).
Proof.
  intros H. invert_apply H. simpl. rewrite dict_get_adjust_eq.
  match goal with H : dict_get t _ = Some ?x |- _ => exists x; by rewrite H end.
Qed.

(** A joint action leaves alone the taxis that have no action in it. *)
Lemma apply_all_other_taxi l s s' t :
  t ∉ actor <$> l → apply_all s l = Some s' →
  dict_get t (taxis s') = dict_get t (taxis s).
Proof.
  revert s. induction l as [|a l IH]; intros s; simpl.
  - by intros _ [= <-].
  - rewrite not_elem_of_cons. intros [Hne Hl] (s1 & Hs1 & H)%bind_Some.
    rewrite (IH s1 Hl H). by eapply apply_other_taxi.
Qed.

(** A refuel inside a joint action does to its taxi what it does alone. *)
Lemma apply_all_refuel l s s' t :
  NoDup (actor <$> l) → Refuel t ∈ l → apply_all s l = Some s' →
  ∃ tx, dict_get t (taxis s) = Some tx
        ∧ dict_get t (taxis s') = Some (after_refuel tx).
Proof.
  revert s. induction l as [|a l IH]; intros s; simpl.
  - by intros _ ?%elem_of_nil.
  - rewrite NoDup_cons. intros [Ha ND] Hin (s1 & Hs1 & H)%bind_Some.
    apply elem_of_cons in Hin as [<-|Hin].
    + destruct (apply_refuel _ _ _ Hs1) as (tx & Htx & Htx').
      exists tx. split; [done|]. by rewrite (apply_all_other_taxi l s1 s' t Ha H).
    + destruct (IH s1 ND Hin H) as (tx & Htx & Htx').
      exists tx. split; [|done]. rewrite <- Htx.
      symmetry. apply (apply_other_taxi s a s1 t Hs1).
      intros ->. apply Ha. by apply (list_elem_of_fmap_2 actor _ (Refuel _)).
Qed.

(** C6, as the code has it. In every reachable state: a move is
    enumerated only for a taxi with positive fuel; a refuel only for a taxi
    on a ['G'] cell; [MAX_FUEL] of every taxi is the fuel the taxi started
    with, its fuel is at most [MAX_FUEL], and at least 0 when the taxi did
    not start with negative fuel; and a step with a refuel leaves the taxi
    with exactly the [MAX_FUEL] it had, which the step does not change. *)
Theorem fuel_rules ini pr s :
  well_formed ini → TaxiProblem_init ini = Some pr → reachable pr s →
  (∀ acts x t target,
     actions (map pr) s = Some acts → x ∈ acts → Move t target ∈ atomic_actions x →
     ∃ tx, (t, tx) ∈ taxis (json_loads s) ∧ 0 < Taxi.fuel tx)
  ∧ (∀ acts x t,
       actions (map pr) s = Some acts → x ∈ acts → Refuel t ∈ atomic_actions x →
       ∃ tx, (t, tx) ∈ taxis (json_loads s)
             ∧ cell (map pr) (Taxi.location tx).1 (Taxi.location tx).2 = Some "G")
  ∧ (∀ t tx, (t, tx) ∈ taxis (json_loads s) →
       ∃ ti, (t, ti) ∈ i_taxis ini
             ∧ Taxi.MAX_FUEL tx = ti_fuel ti
             ∧ Taxi.fuel tx ≤ Taxi.MAX_FUEL tx
             ∧ (0 ≤ ti_fuel ti → 0 ≤ Taxi.fuel tx))
  ∧ (∀ acts x t s',
       actions (map pr) s = Some acts → x ∈ acts → Refuel t ∈ atomic_actions x →
       result s x = Some s' →
       ∃ tx tx', (t, tx) ∈ taxis (json_loads s)
                 ∧ (t, tx') ∈ taxis (json_loads s')
                 ∧ Taxi.fuel tx' = Taxi.MAX_FUEL tx
                 ∧ Taxi.MAX_FUEL tx' = Taxi.MAX_FUEL tx).
Proof.
  intros wf built Hs. pose proof (Inv_reachable ini pr wf built s Hs) as I.
  pose proof (fuel_ok_reachable ini pr wf built s Hs) as F.
  assert (Hen : ∀ acts x a, actions (map pr) s = Some acts → x ∈ acts →
                  a ∈ atomic_actions x → pre (map pr) (json_loads s) a).
  { intros acts x a Hacts Hx Ha.
    destruct (enumerated_facts (map pr) s acts x
                (inv_taxis _ I) (inv_passengers _ I) Hacts Hx) as [Hpre _].
    by eapply Forall_forall in Hpre. }
  split_and!.
  - intros acts x t target Hacts Hx Ha.
    destruct (Hen _ _ _ Hacts Hx Ha) as (tx & Htx & ?).
    exists tx. split; [by apply dict_get_Some_elem|done].
  - intros acts x t Hacts Hx Ha.
    destruct (Hen _ _ _ Hacts Hx Ha) as (tx & Htx & ?).
    exists tx. split; [by apply dict_get_Some_elem|done].
  - intros t tx Hin.
    destruct (F t tx) as (ti & Hti & ?); [apply dict_get_elem; [apply I|done]|].
    exists ti. split; [by apply dict_get_Some_elem|done].
  - intros acts x t s' Hacts Hx Ha Hres.
    destruct (step_facts (map pr) s acts x s'
                (inv_taxis _ I) (inv_passengers _ I) Hacts Hx Hres) as [_ Hstep].
    assert (∃ tx, dict_get t (taxis (json_loads s)) = Some tx
                  ∧ dict_get t (taxis (json_loads s')) = Some (after_refuel tx))
      as (tx & Htx & Htx').
    { destruct x as [a|ja]; simpl in Ha.
      - apply list_elem_of_singleton in Ha as <-.
        destruct Hstep as (_ & _ & Happly). by apply apply_refuel.
      - destruct Hstep as (_ & [ND _] & _ & _ & Happly).
        by apply (apply_all_refuel ja). }
    exists tx, (after_refuel tx). split_and!; [..|done|done];
      by apply dict_get_Some_elem.
Qed.

Lemma fuel_rules_witness :
  (∀ acts x t target,
     actions (map pump_problem) pump_low = Some acts →
     x ∈ acts → Move t target ∈ atomic_actions x →
     ∃ tx, (t, tx) ∈ taxis (json_loads pump_low) ∧ 0 < Taxi.fuel tx)
  ∧ (∀ acts x t,
       actions (map pump_problem) pump_low = Some acts →
       x ∈ acts → Refuel t ∈ atomic_actions x →
       ∃ tx, (t, tx) ∈ taxis (json_loads pump_low)
             ∧ cell (map pump_problem) (Taxi.location tx).1 (Taxi.location tx).2
               = Some "G")
  ∧ (∀ t tx, (t, tx) ∈ taxis (json_loads pump_low) →
       ∃ ti, (t, ti) ∈ i_taxis pump
             ∧ Taxi.MAX_FUEL tx = ti_fuel ti
             ∧ Taxi.fuel tx ≤ Taxi.MAX_FUEL tx
             ∧ (0 ≤ ti_fuel ti → 0 ≤ Taxi.fuel tx))
  ∧ (∀ acts x t s',
       actions (map pump_problem) pump_low = Some acts →
       x ∈ acts → Refuel t ∈ atomic_actions x →
       result pump_low x = Some s' →
       ∃ tx tx', (t, tx) ∈ taxis (json_loads pump_low)
                 ∧ (t, tx') ∈ taxis (json_loads s')
                 ∧ Taxi.fuel tx' = Taxi.MAX_FUEL tx
                 ∧ Taxi.MAX_FUEL tx' = Taxi.MAX_FUEL tx).
Proof.
  apply (fuel_rules pump pump_problem pump_low).
  - apply pump_well_formed.
  - apply pump_built.
  - apply pump_low_reachable.
Defined.

(** C6 as stated fails for a taxi that starts with negative fuel, which
    the constructor accepts: on [overdrawn] the refuel is enumerated and
    applied, and the fuel of the taxi is -1 after it. *)
Lemma negative_fuel_counterexample :
  well_formed overdrawn
  ∧ TaxiProblem_init overdrawn = Some overdrawn_problem
  ∧ run (map overdrawn_problem) (initial overdrawn_problem)
        [Atomic (Refuel "taxi 1")] = Some overdrawn_refuelled
  ∧ reachable overdrawn_problem overdrawn_refuelled
  ∧ ("taxi 1", Taxi.mk (0, 0) (-1) 1 (-1) []) ∈ taxis (json_loads overdrawn_refuelled)
  ∧ ¬ (0 ≤ Taxi.fuel (Taxi.mk (0, 0) (-1) 1 (-1) [])).
Proof.
  split_and!.
  - split; by apply NoDup_decide.
  - by vm_compute.
  - by vm_compute.
  - apply (run_reachable _ (initial overdrawn_problem) [Atomic (Refuel "taxi 1")]);
      [apply reachable_initial|by vm_compute].
  - by left.
  - simpl. lia.
Qed.

(** ** C2: the heuristics at a goal state *)

Lemma count_if_zero {V} (Q : V → bool) (d : list (string * V)) k v :
  count_if Q d = 0%nat → (k, v) ∈ d → Q v = false.
Proof.
  induction d as [|[k' v'] d IH]; [by intros _ ?%elem_of_nil|].
  rewrite count_if_cons. intros E [[= -> ->]|Hin]%elem_of_cons.
  - destruct (Q v'); [done|done].
  - apply IH; [|done]. destruct (Q v'); [done|done].
Qed.

Lemma count_if_le {V} (Q R : V → bool) (d : list (string * V)) :
  (∀ k v, (k, v) ∈ d → Q v = true → R v = true) →
  (count_if Q d ≤ count_if R d)%nat.
Proof.
  induction d as [|[k v] d IH]; intros H; [done|].
  rewrite !count_if_cons.
  assert (count_if Q d ≤ count_if R d)%nat
    by (apply IH; intros k' v' ?; apply (H k'); by right).
  destruct (Q v) eqn:HQ; [rewrite (H k v) by (done || by left)|destruct (R v)]; lia.
Qed.

Lemma foldl_sum_zero {A} (f : A → Z) (l : list A) acc :
  (∀ x, x ∈ l → f x = 0) → foldl (λ acc x, acc + f x) acc l = acc.
Proof.
  revert acc. induction l as [|x l IH]; intros acc H; simpl; [done|].
  rewrite IH; [|intros y Hy; apply H; by right].
  rewrite (H x) by by left. lia.
Qed.

Lemma manhattan_distance_refl p : manhattan_distance p p = 0.
Proof. unfold manhattan_distance. lia. Qed.

Lemma py_truediv_zero n : n ≠ 0 → ∃ q, py_truediv 0 n = Some q ∧ (q == 0)%Q.
Proof.
  intros Hn. unfold py_truediv. rewrite bool_decide_eq_false_2 by done.
  eexists. split; [done|]. unfold Qdiv. apply Qmult_0_l.
Qed.

(** At a goal state nobody waits and nobody is on board. *)
Lemma Inv_goal_counters st :
  Inv st → num_of_undelivered st = 0 →
  count_if undelivered (passengers st) = 0%nat
  ∧ num_of_unpicked st = 0 ∧ num_of_picked_undelivered st = 0.
Proof.
  intros I Hgoal.
  assert (Hund : count_if undelivered (passengers st) = 0%nat).
  { pose proof (inv_undelivered _ I). lia. }
  assert (Hunp : num_of_unpicked st = 0).
  { rewrite (inv_unpicked _ I).
    pose proof (count_if_le unpicked undelivered (passengers st)) as Hle.
    rewrite Hund in Hle. cut (count_if unpicked (passengers st) ≤ 0)%nat; [lia|].
    apply Hle. intros p ps Hin Hp. unfold unpicked, undelivered in *.
    destruct (inv_waiting _ I p ps) as [_ ->]; [|by destruct (Passenger.is_picked ps)|done].
    apply dict_get_elem; [apply I|done]. }
  pose proof (inv_sum _ I). split_and!; [done|done|lia].
Qed.

(** C2, as the code has it. At every goal state [h] returns 0. At every
    reachable goal state with a taxi, [h_1] returns 0 and [h_2] returns the
    total distance from origin to destination of all the passengers,
    divided by the number of taxis. *)
Theorem goal_heuristics ini pr s :
  goal_test s = true →
  h (mkNode s) = Some 0%Q
  ∧ (well_formed ini → TaxiProblem_init ini = Some pr → reachable pr s →
     taxis (json_loads s) ≠ [] →
     ∃ q1 q2,
       h_1 (mkNode s) = Some q1 ∧ (q1 == 0)%Q
       ∧ h_2 (mkNode s) = Some q2
       ∧ (q2 == inject_Z (origin_distance (json_loads s))
                / inject_Z (Z.of_nat (length (taxis (json_loads s)))))%Q).
Proof.
  intros Hgoal%bool_decide_eq_true. split.
  { unfold h. simpl. by rewrite bool_decide_eq_true_2. }
  intros wf built Hs Htaxis.
  pose proof (Inv_reachable ini pr wf built s Hs) as I.
  assert (Hn : Z.of_nat (length (taxis (json_loads s))) ≠ 0).
  { destruct (taxis (json_loads s)); [done|simpl; lia]. }
  destruct (Inv_goal_counters _ I Hgoal) as (Hund & Hunp & Hpu).
  destruct (py_truediv_zero _ Hn) as (q1 & Hq1 & Hq1z).
  exists q1. eexists. split_and!.
  - unfold h_1. simpl. by rewrite Hunp, Hpu.
  - done.
  - unfold h_2, py_truediv. simpl. by rewrite bool_decide_eq_false_2.
  - rewrite (foldl_sum_zero
               (λ e, manhattan_distance (Passenger.destination e.2)
                                        (Passenger.current_location e.2))).
    + fold (origin_distance (json_loads s)). by rewrite Z.add_0_r.
    + intros [p ps] Hin. simpl.
      rewrite (inv_arrived _ I p ps); [apply manhattan_distance_refl| |].
      * apply dict_get_elem; [apply I|done].
      * pose proof (count_if_zero _ _ _ _ Hund Hin) as Harr.
        unfold undelivered in Harr. by destruct (Passenger.is_arrived ps).
Qed.

Lemma goal_heuristics_witness :
  h (mkNode corridor_goal) = Some 0%Q
  ∧ ∃ q1 q2,
      h_1 (mkNode corridor_goal) = Some q1 ∧ (q1 == 0)%Q
      ∧ h_2 (mkNode corridor_goal) = Some q2
      ∧ (q2 == inject_Z (origin_distance (json_loads corridor_goal))
               / inject_Z (Z.of_nat (length (taxis (json_loads corridor_goal)))))%Q.
Proof.
  destruct (goal_heuristics corridor corridor_problem corridor_goal) as [Hh Hrest];
    [done|].
  split; [done|]. apply Hrest.
  - split; by apply NoDup_decide.
  - by vm_compute.
  - apply (run_reachable _ (initial corridor_problem) corridor_plan);
      [apply reachable_initial|by vm_compute].
  - done.
Defined.

(** C2 as stated fails for [h_2]: in the corridor the goal state reached by
    pick up, move, drop off has [h_2] equal to 1, the distance from Iris's
    origin to her destination. *)
Lemma h_2_goal_counterexample :
  run (map corridor_problem) (initial corridor_problem) corridor_plan
  = Some corridor_goal
  ∧ goal_test corridor_goal = true
  ∧ h_2 (mkNode corridor_goal) = Some 1%Q
  ∧ ¬ (1 == 0)%Q.
Proof. split_and!; by vm_compute. Qed.

(** ** C1: admissibility *)

Lemma remaining_work_apply s a s' :
  apply_taxi_action s a = Some s' → remaining_work s - 1 ≤ remaining_work s'.
Proof.
  intros H. destruct a; invert_apply H; unfold remaining_work; simpl; lia.
Qed.

Lemma remaining_work_apply_all l s s' :
  apply_all s l = Some s' →
  remaining_work s - Z.of_nat (length l) ≤ remaining_work s'.
Proof.
  revert s. induction l as [|a l IH]; intros s; simpl.
  - intros [= <-]. lia.
  - intros (s1 & H1%remaining_work_apply & Hl%IH)%bind_Some. lia.
Qed.

Section h_1.
Context (ini : Initial) (pr : TaxiProblem).
Hypothesis wf : well_formed ini.
Hypothesis built : TaxiProblem_init ini = Some pr.

(** One step does the work of at most one atomic action for each taxi. *)
Lemma remaining_work_step s acts x s' :
  reachable pr s → actions (map pr) s = Some acts → x ∈ acts →
  result s x = Some s' →
  remaining_work (json_loads s) - Z.of_nat (length (taxis (json_loads s)))
  ≤ remaining_work (json_loads s')
  ∧ length (taxis (json_loads s')) = length (taxis (json_loads s)).
Proof.
  intros Hs Hacts Hx Hres. pose proof (Inv_reachable ini pr wf built s Hs) as I.
  destruct (step_facts (map pr) s acts x s' (inv_taxis _ I) (inv_passengers _ I)
              Hacts Hx Hres) as [_ H].
  destruct x as [a|ja].
  - destruct H as (Hlen & _ & Happly). rewrite Hlen.
    pose proof (remaining_work_apply _ _ _ Happly).
    apply apply_taxi_keys in Happly as [Hk _].
    apply (f_equal length) in Hk. rewrite !length_fmap in Hk. lia.
  - destruct H as (_ & _ & Hactors & _ & Happly).
    pose proof (remaining_work_apply_all _ _ _ Happly).
    apply (f_equal length) in Hactors. rewrite !length_fmap in Hactors.
    apply apply_all_keys in Happly as [Hk _].
    apply (f_equal length) in Hk. rewrite !length_fmap in Hk. lia.
Qed.

Lemma remaining_work_run s plan g :
  reachable pr s → run (map pr) s plan = Some g →
  remaining_work (json_loads s)
  - Z.of_nat (length (taxis (json_loads s))) * Z.of_nat (length plan)
  ≤ remaining_work (json_loads g).
Proof.
  revert s. induction plan as [|x plan IH]; intros s Hs; simpl.
  - intros [= <-]. lia.
  - intros (acts & Hacts & H)%bind_Some. case_bool_decide as Hx; [|done].
    apply bind_Some in H as (s1 & Hs1 & H).
    destruct (remaining_work_step s acts x s1 Hs Hacts Hx Hs1) as [Hw Hlen].
    assert (reachable pr s1) as Hr1 by by eapply reachable_step.
    pose proof (IH s1 Hr1 H) as IH1. rewrite Hlen in IH1. lia.
Qed.

(** [h_1] never exceeds the number of steps left. *)
Lemma h_1_admissible : admissible h_1 pr.
Proof.
  intros s plan g q Hs Hrun Hgoal%bool_decide_eq_true Hq.
  pose proof (remaining_work_run s plan g Hs Hrun) as Hw.
  pose proof (Inv_reachable ini pr wf built g (run_reachable _ _ _ _ Hs Hrun)) as I.
  assert (remaining_work (json_loads g) = 0) as Hg.
  { unfold remaining_work. destruct (Inv_goal_counters _ I Hgoal) as (_ & -> & ->). done. }
  unfold h_1, py_truediv in Hq. simpl in Hq. case_bool_decide as Hn; [done|].
  injection Hq as <-. fold (remaining_work (json_loads s)).
  apply Qle_shift_div_r.
  - change 0%Q with (inject_Z 0). rewrite <- Zlt_Qlt. lia.
  - rewrite <- inject_Z_mult, <- Zle_Qle. lia.
Qed.

End h_1.

(** C1. The code does not have the property for [h] and [h_2]: on two free
    lanes, with each taxi on the cell of its passenger and three cells from
    the destination, five joint actions reach the goal while [h] is 7 and
    [h_2] is 6 at the initial state. *)
Theorem h_and_h_2_overestimate :
  (∃ g, run (map lanes_problem) (initial lanes_problem) lanes_plan = Some g
        ∧ goal_test g = true)
  ∧ length lanes_plan = 5%nat
  ∧ (∃ q, h (mkNode (initial lanes_problem)) = Some q ∧ (q == 7)%Q)
  ∧ (∃ q, h_2 (mkNode (initial lanes_problem)) = Some q ∧ (q == 6)%Q)
  ∧ (∃ q, h_1 (mkNode (initial lanes_problem)) = Some q ∧ (q == 2)%Q)
  ∧ ¬ admissible h lanes_problem
  ∧ ¬ admissible h_2 lanes_problem.
Proof.
  assert (∃ g, run (map lanes_problem) (initial lanes_problem) lanes_plan = Some g
               ∧ goal_test g = true) as Hrun.
  { destruct (run (map lanes_problem) (initial lanes_problem) lanes_plan)
      as [g|] eqn:E; [|by vm_compute in E].
    exists g. split; [done|]. vm_compute in E. by injection E as <-. }
  split_and!; [done|done|eexists; split; [by vm_compute|done]..| |].
  - destruct Hrun as (g & Hg & Hgoal). intros Hadm.
    specialize (Hadm (initial lanes_problem) lanes_plan g (28 # 4)
                     (reachable_initial _) Hg Hgoal).
    by apply Hadm; vm_compute.
  - destruct Hrun as (g & Hg & Hgoal). intros Hadm.
    specialize (Hadm (initial lanes_problem) lanes_plan g (12 # 2)
                     (reachable_initial _) Hg Hgoal).
    by apply Hadm; vm_compute.
Qed.

(** ** C8: waiting and the text of a state *)

Lemma result_wait s t :
  result s (Atomic (Wait t)) = Some (json_dumps None (json_loads s)).
Proof. done. Qed.

(** On a state that [result] wrote, waiting gives the same text back. *)
Lemma result_wait_compact s t :
  js_indent s = None → result s (Atomic (Wait t)) = Some s.
Proof. destruct s as [indent st]. simpl. by intros ->. Qed.

(** Every state after the first step is one that [result] wrote. *)
Lemma reachable_compact pr s :
  reachable pr s → s = initial pr ∨ js_indent s = None.
Proof.
  destruct 1 as [|s acts a s' _ _ _ Hres]; [by left|right].
  by apply result_Some in Hres as [? _].
Qed.

Lemma text_compact_head st :
  ∃ rest, text (json_dumps None st) = String "{" (String "034" rest).
Proof. eexists. reflexivity. Qed.

Lemma text_indent_head n st :
  ∃ rest, text (json_dumps (Some n) st) = String "{" (String "010" rest).
Proof. eexists. reflexivity. Qed.

(** The initial state never has the text [result] writes for it. *)
Lemma initial_text_differs ini pr t s' :
  TaxiProblem_init ini = Some pr →
  result (initial pr) (Atomic (Wait t)) = Some s' →
  json_loads s' = json_loads (initial pr) ∧ text s' ≠ text (initial pr).
Proof.
  intros [_ ->]%TaxiProblem_init_Some. rewrite result_wait. intros [= <-].
  split; [done|]. simpl.
  destruct (text_compact_head (init_state ini)) as [r1 ->].
  destruct (text_indent_head 3 (init_state ini)) as [r2 ->]. done.
Qed.

(** C8. The code does not have the property at the initial state: in the
    corridor, waiting at the initial state gives a state with the same
    content and a different text, since [__init__] writes the text with
    [indent=3] and [result] without; the search would not recognise it as
    the initial state. *)
Theorem wait_changes_initial_text :
  ∃ s', result (initial corridor_problem) (Atomic (Wait "taxi 1")) = Some s'
        ∧ json_loads s' = json_loads (initial corridor_problem)
        ∧ text s' ≠ text (initial corridor_problem)
        ∧ result s' (Atomic (Wait "taxi 1")) = Some s'.
Proof.
  eexists. split; [apply result_wait|].
  split_and!; [done| |done].
  by eapply (initial_text_differs corridor corridor_problem "taxi 1");
    [apply corridor_built|apply result_wait].
Qed.

(** * Further properties of the code *)

(** ** Vocabulary *)

(** [create_taxi_problem] *)
Definition create_taxi_problem (game : Initial) : option TaxiProblem :=
  TaxiProblem_init game.

(** The number of columns the code works with: the length of the first
    row, [len(self.map[0])]. *)
Definition width (m : Map) : nat :=
  match m with [] => 0%nat | row0 :: _ => length row0 end.

(** A cell inside the grid. *)
Definition in_grid (m : Map) (p : Pos) : Prop :=
  0 ≤ p.1 < Z.of_nat (length m) ∧ 0 ≤ p.2 < Z.of_nat (width m).

(** A cell of the grid that is not a wall. *)
Definition free_cell (m : Map) (p : Pos) : Prop :=
  in_grid m p ∧ ∃ c, cell m p.1 p.2 = Some c ∧ c ≠ "I".

(** The seats of a taxi: the free ones and the taken ones make up the
    capacity it started with, and the free ones are never negative. *)
Definition seats_ok (ini : Initial) (s : State) : Prop :=
  ∀ t tx, dict_get t (taxis s) = Some tx →
          0 ≤ Taxi.capacity tx
          ∧ ∃ ti, dict_get t (i_taxis ini) = Some ti
                  ∧ Taxi.capacity tx + Z.of_nat (length (Taxi.passengers_on_taxi tx))
                    = ti_capacity ti.

(** What no action changes: the names, and the origin and destination of
    every passenger. *)
Definition fixed_fields (ini : Initial) (s : State) : Prop :=
  (taxis s).*1 = (i_taxis ini).*1
  ∧ (passengers s).*1 = (i_passengers ini).*1
  ∧ ∀ p ps, dict_get p (passengers s) = Some ps →
            ∃ pin, dict_get p (i_passengers ini) = Some pin
                   ∧ Passenger.location ps = pi_location pin
                   ∧ Passenger.destination ps = pi_destination pin.

(** Every taxi stands on a cell with the property [P]. *)
Definition cells_ok (P : Pos → Prop) (s : State) : Prop :=
  ∀ t tx, dict_get t (taxis s) = Some tx → P (Taxi.location tx).

(** The action in which every taxi waits. *)
Definition all_wait (s : State) : PyAction :=
  match taxis s with
  | [(t, _)] => Atomic (Wait t)
  | ts => Joint (Wait <$> ts.*1)
  end.

(** The corridor after the pick-up. *)
Definition corridor_loaded : JsonState :=
  mkJson None
    (mkState [("taxi 1", Taxi.mk (0, 0) 1 0 1 ["Iris"])]
             [("Iris", Passenger.mk (0, 0) (0, 1) true false (0, 0))]
             1 0 1).

(** ** Distances *)

(** X1. [manhattan_distance] is a metric on the cells: never negative,
    symmetric, zero exactly between a cell and itself, and it satisfies the
    triangle inequality. *)
Theorem manhattan_distance_metric (p q r : Pos) :
  0 ≤ manhattan_distance p q
  ∧ manhattan_distance p q = manhattan_distance q p
  ∧ (manhattan_distance p q = 0 ↔ p = q)
  ∧ manhattan_distance p r ≤ manhattan_distance p q + manhattan_distance q r.
Proof.
  destruct p as [px py], q as [qx qy], r as [rx ry]. unfold manhattan_distance. simpl.
  split_and!; [lia|lia| |lia].
  split; [intros H; f_equal; lia|intros [= -> ->]; lia].
Qed.

(** X2. The occupancy key of the collision filter is one-to-one: two cells
    have the same key exactly when they are the same cell. *)
Theorem occupancy_key_one_to_one (p q : Pos) :
  location_key p = location_key q ↔ p = q.
Proof. split; [apply location_key_inj|by intros ->]. Qed.

Lemma closest_fold loc (l : list (string * Taxi.t)) (md : Z) (mt : option string) :
  let dist (e : string * Taxi.t) := manhattan_distance loc (Taxi.location e.2) in
  let r := foldl (λ (acc : Z * option string) (entry : string * Taxi.t),
                    let pass_dis := manhattan_distance loc (Taxi.location entry.2) in
                    if bool_decide (pass_dis < acc.1) then (pass_dis, Some entry.1)
                    else acc) (md, mt) l in
  (∀ e, e ∈ l → r.1 ≤ dist e)
  ∧ ((r = (md, mt) ∧ ∀ e, e ∈ l → md ≤ dist e)
     ∨ (r.1 < md ∧ ∃ e, e ∈ l ∧ r = (dist e, Some e.1))).
Proof.
  simpl. revert md mt. induction l as [|e l IH]; intros md mt; simpl.
  - split; [by intros e ?%elem_of_nil|]. left. split; [done|]. by intros e ?%elem_of_nil.
  - set (d := manhattan_distance loc (Taxi.location e.2)).
    case_bool_decide as Hd.
    + destruct (IH d (Some e.1)) as [Hmin [[Hr Hall]|[Hlt (e' & He' & Hr)]]].
      * rewrite Hr in *. simpl in *. split.
        -- intros e0 [->|?]%elem_of_cons; [done|by apply Hmin].
        -- right. split; [done|]. exists e. split; [by left|done].
      * split.
        -- intros e0 [->|?]%elem_of_cons; [fold d; lia|by apply Hmin].
        -- right. split; [lia|]. exists e'. split; [by right|done].
    + destruct (IH md mt) as [Hmin [[Hr Hall]|[Hlt (e' & He' & Hr)]]].
      * rewrite Hr in *. simpl in *. split.
        -- intros e0 [->|?]%elem_of_cons; [fold d; lia|by apply Hmin].
        -- left. split; [done|]. intros e0 [->|?]%elem_of_cons; [fold d; lia|by apply Hall].
      * split.
        -- intros e0 [->|?]%elem_of_cons; [fold d; lia|by apply Hmin].
        -- right. split; [done|]. exists e'. split; [by right|done].
Qed.

(** X3. [find_distance_of_closest_taxi] returns the least distance from the
    cell to a taxi, with the name of a taxi at that distance, when that
    distance is below 100000; it raises ([min_taxi] is unbound) exactly
    when no taxi is closer than 100000, in particular when there is no
    taxi. *)
Theorem closest_taxi_spec (loc : Pos) (s : State) :
  (find_distance_of_closest_taxi loc s = None ↔
   ∀ t tx, (t, tx) ∈ taxis s → 100000 ≤ manhattan_distance loc (Taxi.location tx))
  ∧ (∀ d t, find_distance_of_closest_taxi loc s = Some (d, t) →
            d < 100000
            ∧ (∃ tx, (t, tx) ∈ taxis s ∧ manhattan_distance loc (Taxi.location tx) = d)
            ∧ ∀ t' tx', (t', tx') ∈ taxis s →
                        d ≤ manhattan_distance loc (Taxi.location tx')).
Proof.
  unfold find_distance_of_closest_taxi.
  destruct (closest_fold loc (taxis s) 100000 None) as [Hmin Hcases].
  simpl in Hmin, Hcases.
  set (r := foldl _ _ (taxis s)) in *.
  destruct Hcases as [[Hr Hall]|[Hlt (e & He & Hr)]]; rewrite Hr in *; simpl in *.
  - split; [|done]. split; [|done]. intros _ t tx Hin. apply (Hall (t, tx) Hin).
  - split.
    + split; [done|]. intros Hall. specialize (Hall e.1 e.2).
      destruct e; simpl in *. specialize (Hall He). lia.
    + intros d t [= <- <-]. split_and!; [done| |].
      * exists e.2. by destruct e.
      * intros t' tx' Hin. apply (Hmin (t', tx') Hin).
Qed.

(** ** Passengers and seats in the reachable states *)

Lemma count_if_all_false {V} (Q : V → bool) (d : list (string * V)) :
  (∀ k v, (k, v) ∈ d → Q v = false) → count_if Q d = 0%nat.
Proof.
  induction d as [|[k v] d IH]; intros H; [done|].
  rewrite count_if_cons, (H k v) by by left.
  apply IH. intros k' v' ?. apply (H k'). by right.
Qed.

(** X4. In every reachable state [goal_test] holds exactly when every
    passenger has arrived. *)
Theorem goal_test_all_arrived ini pr s :
  well_formed ini → TaxiProblem_init ini = Some pr → reachable pr s →
  (goal_test s = true ↔
   ∀ p ps, (p, ps) ∈ passengers (json_loads s) → Passenger.is_arrived ps = true).
Proof.
  intros wf built Hs. pose proof (Inv_reachable ini pr wf built s Hs) as I.
  unfold goal_test. rewrite bool_decide_eq_true, (inv_undelivered _ I). split.
  - intros Hz p ps Hin.
    assert (count_if undelivered (passengers (json_loads s)) = 0%nat) as Hc by lia.
    pose proof (count_if_zero _ _ _ _ Hc Hin) as Hu. unfold undelivered in Hu.
    by destruct (Passenger.is_arrived ps).
  - intros Hall. rewrite count_if_all_false; [done|].
    intros p ps Hin. unfold undelivered. by rewrite (Hall p ps Hin).
Qed.

Lemma goal_test_all_arrived_witness :
  goal_test corridor_goal = true ↔
  ∀ p ps, (p, ps) ∈ passengers (json_loads corridor_goal) →
          Passenger.is_arrived ps = true.
Proof.
  apply (goal_test_all_arrived corridor corridor_problem).
  - apply corridor_well_formed.
  - apply corridor_built.
  - apply corridor_goal_reachable.
Defined.

(** X5. In every reachable state no action the enumerator returns picks up
    or drops off a passenger who has arrived. *)
Theorem arrived_passenger_left_alone ini pr s acts x t p ps :
  well_formed ini → TaxiProblem_init ini = Some pr → reachable pr s →
  (p, ps) ∈ passengers (json_loads s) → Passenger.is_arrived ps = true →
  actions (map pr) s = Some acts → x ∈ acts →
  (PickUp t p ∉ atomic_actions x) ∧ (DropOff t p ∉ atomic_actions x).
Proof.
  intros wf built Hs Hin Harr Hacts Hx.
  pose proof (Inv_reachable ini pr wf built s Hs) as I.
  destruct (enumerated_facts (map pr) s acts x
              (inv_taxis _ I) (inv_passengers _ I) Hacts Hx) as [Hpre _].
  rewrite Forall_forall in Hpre.
  apply (dict_get_elem _ _ _ (inv_passengers _ I)) in Hin.
  split; intros Ha; apply Hpre in Ha.
  - destruct Ha as (tx & ps' & _ & Hps' & _ & Hp & _). simplify_eq.
    destruct (inv_waiting _ I p ps Hin Hp). congruence.
  - destruct Ha as (tx & ps' & Htx & _ & Hon & _).
    destruct (inv_on_board _ I t tx p Htx Hon) as (ps'' & ? & _ & ? & _).
    simplify_eq. congruence.
Qed.

Lemma arrived_passenger_left_alone_witness :
  (PickUp "taxi 1" "Iris" ∉ atomic_actions (Atomic (Wait "taxi 1")))
  ∧ (DropOff "taxi 1" "Iris" ∉ atomic_actions (Atomic (Wait "taxi 1"))).
Proof.
  apply (arrived_passenger_left_alone corridor corridor_problem corridor_goal
           [Atomic (Wait "taxi 1")]
           (Atomic (Wait "taxi 1")) "taxi 1" "Iris"
           (Passenger.mk (0, 0) (0, 1) true true (0, 1))).
  - apply corridor_well_formed.
  - apply corridor_built.
  - apply corridor_goal_reachable.
  - by left.
  - done.
  - by vm_compute.
  - by left.
Defined.

(** X6. In every reachable state a passenger on board a taxi is picked up,
    not arrived, at the cell of the taxi and on board no other taxi; a
    passenger who has arrived is picked up, at the destination and on
    board no taxi. *)
Theorem passengers_travel_with_their_taxi ini pr s :
  well_formed ini → TaxiProblem_init ini = Some pr → reachable pr s →
  (∀ t tx p, (t, tx) ∈ taxis (json_loads s) → p ∈ Taxi.passengers_on_taxi tx →
     (∃ ps, (p, ps) ∈ passengers (json_loads s)
            ∧ Passenger.is_picked ps = true
            ∧ Passenger.is_arrived ps = false
            ∧ Passenger.current_location ps = Taxi.location tx)
     ∧ ∀ t' tx', (t', tx') ∈ taxis (json_loads s) →
                 p ∈ Taxi.passengers_on_taxi tx' → t' = t)
  ∧ (∀ p ps, (p, ps) ∈ passengers (json_loads s) → Passenger.is_arrived ps = true →
       Passenger.is_picked ps = true
       ∧ Passenger.current_location ps = Passenger.destination ps
       ∧ ∀ t tx, (t, tx) ∈ taxis (json_loads s) → p ∉ Taxi.passengers_on_taxi tx).
Proof.
  intros wf built Hs. pose proof (Inv_reachable ini pr wf built s Hs) as I.
  pose proof (inv_taxis _ I) as NDt. pose proof (inv_passengers _ I) as NDp.
  split.
  - intros t tx p Ht%(dict_get_elem _ _ _ NDt) Hp.
    destruct (inv_on_board _ I t tx p Ht Hp) as (ps & Hps & ? & ? & ?). split.
    + exists ps. split_and!; try done. by apply dict_get_Some_elem.
    + intros t' tx' Ht'%(dict_get_elem _ _ _ NDt) Hp'.
      by apply (inv_one_taxi _ I t' tx' t tx p).
  - intros p ps Hps%(dict_get_elem _ _ _ NDp) Harr. split_and!.
    + destruct (Passenger.is_picked ps) eqn:Hp; [done|].
      destruct (inv_waiting _ I p ps Hps Hp). congruence.
    + by apply (inv_arrived _ I p).
    + intros t tx Ht%(dict_get_elem _ _ _ NDt) Hon.
      destruct (inv_on_board _ I t tx p Ht Hon) as (ps' & ? & _ & ? & _).
      simplify_eq. congruence.
Qed.

Lemma passengers_travel_with_their_taxi_witness :
  (∀ t tx p, (t, tx) ∈ taxis (json_loads lanes_midway) →
     p ∈ Taxi.passengers_on_taxi tx →
     (∃ ps, (p, ps) ∈ passengers (json_loads lanes_midway)
            ∧ Passenger.is_picked ps = true
            ∧ Passenger.is_arrived ps = false
            ∧ Passenger.current_location ps = Taxi.location tx)
     ∧ ∀ t' tx', (t', tx') ∈ taxis (json_loads lanes_midway) →
                 p ∈ Taxi.passengers_on_taxi tx' → t' = t)
  ∧ (∀ p ps, (p, ps) ∈ passengers (json_loads lanes_midway) →
       Passenger.is_arrived ps = true →
       Passenger.is_picked ps = true
       ∧ Passenger.current_location ps = Passenger.destination ps
       ∧ ∀ t tx, (t, tx) ∈ taxis (json_loads lanes_midway) →
                 p ∉ Taxi.passengers_on_taxi tx).
Proof.
  apply (passengers_travel_with_their_taxi lanes lanes_problem lanes_midway).
  - apply lanes_well_formed.
  - apply lanes_built.
  - apply lanes_midway_reachable.
Defined.

Lemma fixed_fields_apply ini s a s' :
  fixed_fields ini s → apply_taxi_action s a = Some s' → fixed_fields ini s'.
Proof.
  intros (Ht & Hp & Hf) H. destruct (apply_taxi_keys _ _ _ H) as [Ht' Hp'].
  split_and!; [congruence|congruence|]. intros p ps' Hps'.
  assert (is_Some (dict_get p (passengers s))) as [ps Hps].
  { apply dict_get_is_Some. rewrite <- Hp'. apply dict_get_is_Some. eauto. }
  destruct (apply_passenger _ _ _ _ _ H Hps) as (ps'' & ? & Hl & Hd & _).
  simplify_eq. destruct (Hf p ps Hps) as (pin & ? & ? & ?).
  exists pin. split_and!; congruence.
Qed.

(** X7. In every reachable state the taxis and the passengers are those of
    the input, under the same names in the same order, and every passenger
    has the origin and the destination of the input: no action renames,
    adds, removes or redirects anyone. *)
Theorem names_and_routes_are_fixed ini pr s :
  well_formed ini → TaxiProblem_init ini = Some pr → reachable pr s →
  (taxis (json_loads s)).*1 = (i_taxis ini).*1
  ∧ (passengers (json_loads s)).*1 = (i_passengers ini).*1
  ∧ ∀ p ps, (p, ps) ∈ passengers (json_loads s) →
            ∃ pin, (p, pin) ∈ i_passengers ini
                   ∧ Passenger.location ps = pi_location pin
                   ∧ Passenger.destination ps = pi_destination pin.
Proof.
  intros wf built Hs. pose proof (Inv_reachable ini pr wf built s Hs) as I.
  assert (fixed_fields ini (json_loads s)) as (Ht & Hp & Hf).
  { apply (reachable_preserves ini pr wf built); [| |done].
    - split_and!; simpl; [apply prod_map_keys..|].
      intros p ps. rewrite dict_get_prod_map.
      intros (pin & ? & ->)%fmap_Some. by exists pin.
    - intros s0 a s1 F _. by apply fixed_fields_apply. }
  split_and!; [done..|]. intros p ps Hin.
  destruct (Hf p ps) as (pin & Hpin & ? & ?).
  { apply dict_get_elem; [apply I|done]. }
  exists pin. split_and!; [by apply dict_get_Some_elem|done..].
Qed.

Lemma names_and_routes_are_fixed_witness :
  (taxis (json_loads lanes_midway)).*1 = (i_taxis lanes).*1
  ∧ (passengers (json_loads lanes_midway)).*1 = (i_passengers lanes).*1
  ∧ ∀ p ps, (p, ps) ∈ passengers (json_loads lanes_midway) →
            ∃ pin, (p, pin) ∈ i_passengers lanes
                   ∧ Passenger.location ps = pi_location pin
                   ∧ Passenger.destination ps = pi_destination pin.
Proof.
  apply (names_and_routes_are_fixed lanes lanes_problem lanes_midway).
  - apply lanes_well_formed.
  - apply lanes_built.
  - apply lanes_midway_reachable.
Defined.

Lemma list_remove_length `{EqDecision A} (x : A) l l' :
  list_remove x l = Some l' → length l = S (length l').
Proof.
  revert l'. induction l as [|y l IH]; intros l'; simpl; [done|].
  case_bool_decide; [by intros [= <-]|].
  destruct (list_remove x l) as [l0|]; simpl; [|done]. intros [= <-].
  simpl. f_equal. by apply IH.
Qed.

Lemma seats_ok_apply ini m s a s' :
  seats_ok ini s → pre m s a → apply_taxi_action s a = Some s' → seats_ok ini s'.
Proof.
  intros F Hpre H t tx. destruct a; invert_apply H; simpl; try apply F.
  - intros (tx1 & Ht1 & ->)%dict_get_adjust_Some.
    destruct (F _ _ Ht1) as [? ?]. by case_bool_decide.
  - destruct Hpre as (tx0 & ps & Htx0 & _ & Hcap & _).
    intros (tx1 & Ht1 & ->)%dict_get_adjust_Some.
    destruct (F _ _ Ht1) as [? (ti & ? & ?)]. case_bool_decide; subst; simpl; [|eauto].
    simplify_eq. split; [lia|]. exists ti. split; [done|].
    rewrite length_app. simpl. lia.
  - intros (tx1 & Ht1 & ->)%dict_get_adjust_Some.
    destruct (F _ _ Ht1) as [? (ti & ? & ?)]. case_bool_decide; subst; simpl; [|eauto].
    simplify_eq. apply list_remove_length in Hx1.
    split; [lia|]. exists ti. split; [done|]. lia.
  - intros (tx1 & Ht1 & ->)%dict_get_adjust_Some.
    destruct (F _ _ Ht1) as [? ?]. by case_bool_decide.
Qed.

(** X8. In every reachable state of a problem whose taxis start with a
    capacity that is not negative, the free seats of a taxi
    ([capacity]) and the passengers on board add up to the capacity the
    taxi started with, and the free seats are not negative: a taxi never
    carries more passengers than its initial capacity. *)
Theorem seats_are_conserved ini pr s :
  well_formed ini → TaxiProblem_init ini = Some pr →
  (∀ t ti, (t, ti) ∈ i_taxis ini → 0 ≤ ti_capacity ti) →
  reachable pr s →
  ∀ t tx, (t, tx) ∈ taxis (json_loads s) →
    ∃ ti, (t, ti) ∈ i_taxis ini
          ∧ Taxi.capacity tx + Z.of_nat (length (Taxi.passengers_on_taxi tx))
            = ti_capacity ti
          ∧ 0 ≤ Taxi.capacity tx
          ∧ Z.of_nat (length (Taxi.passengers_on_taxi tx)) ≤ ti_capacity ti.
Proof.
  intros wf built Hcap Hs t tx Hin.
  pose proof (Inv_reachable ini pr wf built s Hs) as I.
  assert (seats_ok ini (json_loads s)) as F.
  { apply (reachable_preserves ini pr wf built); [| |done].
    - intros t0 tx0. simpl. rewrite dict_get_prod_map.
      intros (ti & Hti & ->)%fmap_Some. simpl. split.
      + by apply dict_get_Some_elem, Hcap in Hti.
      + exists ti. split; [done|lia].
    - intros s0 a s1. apply seats_ok_apply. }
  destruct (F t tx) as [? (ti & Hti & ?)].
  { apply dict_get_elem; [apply I|done]. }
  exists ti. split_and!; [by apply dict_get_Some_elem|done|done|lia].
Qed.

Lemma seats_are_conserved_witness :
  ∃ ti, ("taxi 2", ti) ∈ i_taxis lanes
        ∧ 0 + Z.of_nat (length ["Tomer"]) = ti_capacity ti
        ∧ 0 ≤ 0
        ∧ Z.of_nat (length ["Tomer"]) ≤ ti_capacity ti.
Proof.
  apply (seats_are_conserved lanes lanes_problem lanes_midway
           lanes_well_formed lanes_built) with (tx := Taxi.mk (1, 1) 2 0 3 ["Tomer"]).
  - assert (Forall (λ e, 0 ≤ ti_capacity e.2) (i_taxis lanes)) as HF
      by (repeat constructor; simpl; lia).
    rewrite Forall_forall in HF. intros t ti Hin. apply (HF (t, ti) Hin).
  - apply lanes_midway_reachable.
  - right. by left.
Defined.

Lemma apply_monotone s a s' :
  apply_taxi_action s a = Some s' →
  num_of_undelivered s' ≤ num_of_undelivered s
  ∧ ∀ q ps, dict_get q (passengers s) = Some ps →
      ∃ ps', dict_get q (passengers s') = Some ps'
             ∧ (Passenger.is_picked ps = true → Passenger.is_picked ps' = true)
             ∧ (Passenger.is_arrived ps = true → Passenger.is_arrived ps' = true).
Proof.
  intros H. destruct a; invert_apply H; simpl; (split; [lia|]); intros q ps Hq; eauto.
  - apply carry_Some in Hx0 as (_ & Hget & _). rewrite Hget, Hq. simpl.
    case_bool_decide; eauto.
  - rewrite dict_get_adjust, Hq. case_bool_decide; subst; simpl; eauto.
  - rewrite dict_get_adjust, Hq. case_bool_decide; subst; simpl; eauto.
Qed.

Lemma apply_all_monotone l s s' :
  apply_all s l = Some s' →
  num_of_undelivered s' ≤ num_of_undelivered s
  ∧ ∀ q ps, dict_get q (passengers s) = Some ps →
      ∃ ps', dict_get q (passengers s') = Some ps'
             ∧ (Passenger.is_picked ps = true → Passenger.is_picked ps' = true)
             ∧ (Passenger.is_arrived ps = true → Passenger.is_arrived ps' = true).
Proof.
  revert s. induction l as [|a l IH]; intros s; simpl.
  - intros [= <-]. split; [lia|]. eauto.
  - intros (s1 & [H1 H1p]%apply_monotone & [Hl Hlp]%IH)%bind_Some.
    split; [lia|]. intros q ps Hq.
    destruct (H1p q ps Hq) as (ps1 & Hq1 & ? & ?).
    destruct (Hlp q ps1 Hq1) as (ps' & ? & ? & ?). eauto 10.
Qed.

(** X9. Whatever action [result] applies, it never takes progress back:
    [num_of_undelivered] does not grow, every passenger is still there, and
    a passenger who was picked up or had arrived still is. *)
Theorem result_never_undoes_progress s x s' :
  result s x = Some s' →
  num_of_undelivered (json_loads s') ≤ num_of_undelivered (json_loads s)
  ∧ ∀ q ps, dict_get q (passengers (json_loads s)) = Some ps →
      ∃ ps', dict_get q (passengers (json_loads s')) = Some ps'
             ∧ (Passenger.is_picked ps = true → Passenger.is_picked ps' = true)
             ∧ (Passenger.is_arrived ps = true → Passenger.is_arrived ps' = true).
Proof.
  intros [_ H]%result_Some.
  destruct x; [by apply apply_monotone in H|by apply apply_all_monotone in H].
Qed.

Lemma result_never_undoes_progress_witness :
  num_of_undelivered (json_loads corridor_loaded)
  ≤ num_of_undelivered (json_loads (initial corridor_problem))
  ∧ ∀ q ps, dict_get q (passengers (json_loads (initial corridor_problem))) = Some ps →
      ∃ ps', dict_get q (passengers (json_loads corridor_loaded)) = Some ps'
             ∧ (Passenger.is_picked ps = true → Passenger.is_picked ps' = true)
             ∧ (Passenger.is_arrived ps = true → Passenger.is_arrived ps' = true).
Proof.
  apply (result_never_undoes_progress (initial corridor_problem)
           (Atomic (PickUp "taxi 1" "Iris"))).
  reflexivity.
Defined.

(** ** Moves and the grid *)

Lemma py_index_head {A} (m : list A) row0 :
  py_index m 0 = Some row0 → ∃ rest, m = row0 :: rest.
Proof. destruct m as [|r rest]; [done|]. intros [= ->]. eauto. Qed.

Lemma move_if_spec cond m t x y l a :
  move_if cond m t x y = Some l → a ∈ l →
  a = Move t (x, y) ∧ cond = true ∧ ∃ c, cell m x y = Some c ∧ c ≠ "I".
Proof.
  unfold move_if. destruct cond; [|by intros [= <-] ?%elem_of_nil].
  destruct (cell m x y) as [c|]; simpl; [|done]. intros [= <-].
  case_bool_decide; [|by intros ?%elem_of_nil].
  intros ->%list_elem_of_singleton. eauto.
Qed.

(** Where an enumerated move of a taxi goes. *)
Lemma taxi_action_move m rows cols s t tx l t' target :
  taxi_action m rows cols s (t, tx) = Some l → Move t' target ∈ l →
  t' = t ∧ 0 < Taxi.fuel tx
  ∧ (∃ c, cell m target.1 target.2 = Some c ∧ c ≠ "I")
  ∧ ((target = ((Taxi.location tx).1 + 1, (Taxi.location tx).2)
      ∧ (Taxi.location tx).1 < rows)
     ∨ (target = ((Taxi.location tx).1 - 1, (Taxi.location tx).2)
        ∧ 1 ≤ (Taxi.location tx).1)
     ∨ (target = ((Taxi.location tx).1, (Taxi.location tx).2 + 1)
        ∧ (Taxi.location tx).2 < cols)
     ∨ (target = ((Taxi.location tx).1, (Taxi.location tx).2 - 1)
        ∧ 1 ≤ (Taxi.location tx).2)).
Proof.
  unfold taxi_action. destruct (Taxi.location tx) as [x y]. simpl.
  intros H. apply bind_Some in H as (moves & Hmoves & H).
  apply bind_Some in H as (here & Hhere & [= <-]).
  rewrite elem_of_cons, !elem_of_app.
  intros [?|[Ha|[Ha|[Ha|Ha]]]]; [done| | | |].
  - case_bool_decide as Hfuel; [|simplify_eq; by apply elem_of_nil in Ha].
    apply bind_Some in Hmoves as (down & Hd & Hmoves).
    apply bind_Some in Hmoves as (up & Hu & Hmoves).
    apply bind_Some in Hmoves as (right & Hr & Hmoves).
    apply bind_Some in Hmoves as (left & Hl & [= <-]).
    rewrite !elem_of_app in Ha.
    destruct Ha as [Ha|[Ha|[Ha|Ha]]];
      [destruct (move_if_spec _ _ _ _ _ _ _ Hd Ha) as ([= -> ->] & Hc%bool_decide_eq_true & ?)
      |destruct (move_if_spec _ _ _ _ _ _ _ Hu Ha) as ([= -> ->] & Hc%bool_decide_eq_true & ?)
      |destruct (move_if_spec _ _ _ _ _ _ _ Hr Ha) as ([= -> ->] & Hc%bool_decide_eq_true & ?)
      |destruct (move_if_spec _ _ _ _ _ _ _ Hl Ha) as ([= -> ->] & Hc%bool_decide_eq_true & ?)];
      split_and!; auto 10.
  - by apply elem_of_pick_actions in Ha as (? & ? & ? & _).
  - by apply elem_of_drop_actions in Ha as (? & ? & ? & _).
  - case_bool_decide; [|by apply elem_of_nil in Ha].
    by apply list_elem_of_singleton in Ha.
Qed.

(** Every atomic action in a returned action is in the list built for one of
    the taxis. *)
Lemma actions_atomic_elem (m : Map) s acts x a :
  actions m s = Some acts → x ∈ acts → a ∈ atomic_actions x →
  ∃ entry l, entry ∈ taxis (json_loads s)
             ∧ actions_of_taxi m s entry = Some l ∧ a ∈ l.
Proof.
  unfold actions, actions_of_taxi.
  intros (row0 & -> & H)%bind_Some Hx Ha. simpl.
  apply bind_Some in H as (tas & Htas%mapM_Some & H).
  assert (∃ l, l ∈ tas ∧ a ∈ l) as (l & Hl & Hal).
  { assert (J : ∀ out, filter_collisions (json_loads s) (product tas) (product tas)
                       = Some out → x ∈ Joint <$> out → ∃ l, l ∈ tas ∧ a ∈ l).
    { intros out Hout (ja & -> & Hja)%list_elem_of_fmap.
      apply (filter_collisions_sub _ _ _ _ _ Hout), elem_of_product in Hja.
      simpl in Ha. clear -Hja Ha.
      induction Hja as [|a' l ja tas Ha' _ IH]; [by apply elem_of_nil in Ha|].
      apply elem_of_cons in Ha as [->|Ha].
      - exists l. split; [by left|done].
      - destruct (IH Ha) as (l' & ? & ?). exists l'. split; [by right|done]. }
    destruct tas as [|l [|l' tas]].
    - apply fmap_Some in H as (out & Hout & ->). eauto.
    - injection H as <-. apply list_elem_of_fmap in Hx as (a' & -> & Ha').
      apply list_elem_of_singleton in Ha as ->. exists l. split; [by left|done].
    - apply fmap_Some in H as (out & Hout & ->). eauto. }
  clear -Htas Hl Hal. induction Htas as [|e l' ents tas He _ IH];
    [by apply elem_of_nil in Hl|].
  apply elem_of_cons in Hl as [->|Hl].
  - exists e, l'. split; [by left|done].
  - destruct (IH Hl) as (e' & l0 & ? & ? & ?). exists e', l0. split; [by right|done].
Qed.

(** X10. Every move the enumerator returns is a move of a taxi of the state
    with fuel left, to one of the four neighbours of its cell (Manhattan
    distance 1), and the target is no wall; from a cell inside the grid the
    target is inside the grid too. *)
Theorem enumerated_move (m : Map) s acts x t target :
  actions m s = Some acts → x ∈ acts → Move t target ∈ atomic_actions x →
  ∃ tx, (t, tx) ∈ taxis (json_loads s)
        ∧ 0 < Taxi.fuel tx
        ∧ manhattan_distance (Taxi.location tx) target = 1
        ∧ (∃ c, cell m target.1 target.2 = Some c ∧ c ≠ "I")
        ∧ (in_grid m (Taxi.location tx) → in_grid m target).
Proof.
  intros Hacts Hx Ha.
  destruct (actions_atomic_elem m s acts x _ Hacts Hx Ha) as ([t' tx] & l & Hin & Hl & Hal).
  unfold actions_of_taxi in Hl. apply bind_Some in Hl as (row0 & Hrow0 & Hl).
  destruct (py_index_head _ _ Hrow0) as [rest ->].
  destruct (taxi_action_move _ _ _ _ _ _ _ _ _ Hl Hal) as (-> & Hfuel & Hcell & Hdir).
  exists tx. split_and!; [done..| |done|].
  - unfold manhattan_distance. destruct Hdir as [[-> _]|[[-> _]|[[-> _]|[-> _]]]]; simpl; lia.
  - unfold in_grid. simpl length in *. simpl width.
    destruct Hdir as [[-> ?]|[[-> ?]|[[-> ?]|[-> ?]]]]; simpl; lia.
Qed.

Lemma enumerated_move_witness :
  ∃ tx, ("taxi 2", tx) ∈ taxis (json_loads (initial sample_problem))
        ∧ 0 < Taxi.fuel tx
        ∧ manhattan_distance (Taxi.location tx) (0, 0) = 1
        ∧ (∃ c, cell (map sample_problem) (0, 0).1 (0, 0).2 = Some c ∧ c ≠ "I")
        ∧ (in_grid (map sample_problem) (Taxi.location tx)
           → in_grid (map sample_problem) (0, 0)).
Proof.
  destruct (actions (map sample_problem) (initial sample_problem)) as [acts|] eqn:E;
    [|by vm_compute in E].
  apply (enumerated_move (map sample_problem) (initial sample_problem) acts
           (Joint [Move "taxi 1" (1, 0); Move "taxi 2" (0, 0)]));
    [done| |right; by left].
  vm_compute in E. injection E as <-. apply (bool_decide_unpack _). by vm_compute.
Defined.

Lemma move_target_free (m : Map) s acts x t target tx :
  actions m s = Some acts → x ∈ acts → Move t target ∈ atomic_actions x →
  NoDup (taxis (json_loads s)).*1 →
  dict_get t (taxis (json_loads s)) = Some tx →
  in_grid m (Taxi.location tx) → free_cell m target.
Proof.
  intros Hacts Hx Ha ND Htx Hgrid.
  destruct (actions_atomic_elem m s acts x _ Hacts Hx Ha) as ([t' tx'] & l & Hin & Hl & Hal).
  unfold actions_of_taxi in Hl. apply bind_Some in Hl as (row0 & Hrow0 & Hl).
  destruct (py_index_head _ _ Hrow0) as [rest ->].
  destruct (taxi_action_move _ _ _ _ _ _ _ _ _ Hl Hal) as (-> & _ & Hcell & Hdir).
  apply (dict_get_elem _ _ _ ND) in Hin. simplify_eq.
  split; [|done]. unfold in_grid in *. simpl length in *. simpl width in *.
  destruct Hdir as [[-> ?]|[[-> ?]|[[-> ?]|[-> ?]]]]; simpl; lia.
Qed.

Section cells.
Context (m : Map) (P : Pos → Prop).
Hypothesis free_P : ∀ p, free_cell m p → P p.
Hypothesis P_grid : ∀ p, P p → in_grid m p.

Lemma post_position_ok s acts x a p :
  NoDup (taxis (json_loads s)).*1 → cells_ok P (json_loads s) →
  actions m s = Some acts → x ∈ acts → a ∈ atomic_actions x →
  pre m (json_loads s) a →
  post_position (json_loads s) a = Some p → P p.
Proof.
  intros ND Hok Hacts Hx Ha Hpre Hp.
  destruct a; simpl in Hp;
    try (apply fmap_Some in Hp as (tx & Htx & ->); by eapply Hok).
  injection Hp as <-. destruct Hpre as (tx & Htx & _).
  apply free_P. eapply move_target_free; eauto.
Qed.

Lemma step_cells s acts x s' :
  Inv (json_loads s) → cells_ok P (json_loads s) →
  actions m s = Some acts → x ∈ acts → result s x = Some s' →
  cells_ok P (json_loads s').
Proof.
  intros I Hok Hacts Hx Hres t tx' Ht'.
  pose proof (inv_taxis _ I) as ND.
  destruct (step_facts m s acts x s' ND (inv_passengers _ I) Hacts Hx Hres) as [_ H].
  destruct x as [a|ja].
  - destruct H as (_ & Hpre & Happly).
    pose proof (apply_location _ _ _ t Happly) as Hloc. rewrite Ht' in Hloc. simpl in Hloc.
    case_bool_decide; subst.
    + eapply (post_position_ok s acts (Atomic a) a); eauto. by left.
    + symmetry in Hloc. apply fmap_Some in Hloc as (tx & Htx & ->). by eapply Hok.
  - destruct H as (Hpre & [NDa _] & Hactors & _ & Happly).
    destruct (apply_all_keys _ _ _ Happly) as [Hk _].
    assert (t ∈ actor <$> ja) as (a & -> & Ha)%list_elem_of_fmap.
    { rewrite Hactors, <- Hk. apply dict_get_is_Some. eauto. }
    destruct (apply_all_location ja _ _ (actor a) NDa Happly) as [Hloc _].
    specialize (Hloc a Ha eq_refl). rewrite Ht' in Hloc. simpl in Hloc.
    eapply (post_position_ok s acts (Joint ja) a); eauto.
    by eapply Forall_forall in Hpre.
Qed.

Lemma cells_reachable ini pr s :
  well_formed ini → TaxiProblem_init ini = Some pr → map pr = m →
  (∀ t ti, (t, ti) ∈ i_taxis ini → P (ti_location ti)) →
  reachable pr s → cells_ok P (json_loads s).
Proof.
  intros wf built Hm H0. induction 1 as [|s acts a s' Hs IH Hacts Ha Hres].
  - destruct (TaxiProblem_init_Some _ _ built) as [_ ->].
    intros t tx. simpl. rewrite dict_get_prod_map.
    intros (ti & Hti%dict_get_Some_elem & ->)%fmap_Some. simpl. by eapply H0.
  - rewrite Hm in Hacts. eapply step_cells; eauto.
    by eapply Inv_reachable.
Qed.

End cells.

(** X11. When every taxi starts on a cell of the grid that is no wall, every
    taxi is on such a cell in every reachable state: the taxis never leave
    the grid and never enter a wall. *)
Theorem taxis_stay_on_free_cells ini pr s :
  well_formed ini → TaxiProblem_init ini = Some pr →
  (∀ t ti, (t, ti) ∈ i_taxis ini → free_cell (i_map ini) (ti_location ti)) →
  reachable pr s →
  ∀ t tx, (t, tx) ∈ taxis (json_loads s) → free_cell (map pr) (Taxi.location tx).
Proof.
  intros wf built H0 Hs t tx Hin.
  destruct (TaxiProblem_init_Some _ _ built) as [Hm _].
  pose proof (Inv_reachable ini pr wf built s Hs) as I.
  rewrite Hm.
  apply (cells_reachable (i_map ini) (free_cell (i_map ini))
           (λ p H, H) (λ p H, proj1 H) ini pr s wf built Hm H0 Hs t).
  apply dict_get_elem; [apply I|done].
Qed.

Lemma taxis_stay_on_free_cells_witness :
  Forall (λ e, free_cell (map lanes_problem) (Taxi.location e.2))
         (taxis (json_loads lanes_midway)).
Proof.
  apply Forall_forall. intros [t tx].
  apply (taxis_stay_on_free_cells lanes lanes_problem lanes_midway
           lanes_well_formed lanes_built); [|apply lanes_midway_reachable].
  assert (Forall (λ e, free_cell (i_map lanes) (ti_location e.2)) (i_taxis lanes)) as HF.
  { repeat constructor; simpl; unfold in_grid; simpl; try lia;
      eexists; (split; [by vm_compute|done]). }
  rewrite Forall_forall in HF. intros t' ti Hin. apply (HF (t', ti) Hin).
Defined.

(** ** Nothing raises along a run *)

(** A successful construction has read every cell below the first row's
    width: they all exist. *)
Lemma scan_gas_stations_cells m gs p :
  scan_gas_stations m = Some gs → in_grid m p → is_Some (cell m p.1 p.2).
Proof.
  destruct p as [x y]. unfold scan_gas_stations, in_grid. simpl.
  destruct m as [|row0 rest]; [simpl; lia|]. set (m := row0 :: rest).
  intros Hscan [Hx Hy]. change (width m) with (length row0) in Hy.
  assert (is_Some (mapM (λ x : nat, scan_row m x (length row0)) (seq 0 (length m))))
    as Hrows%mapM_is_Some_1 by (apply fmap_Some in Hscan as (? & -> & _); eauto).
  rewrite Forall_forall in Hrows.
  assert (is_Some (scan_row m (Z.to_nat x) (length row0))) as Hrow.
  { apply (Hrows (Z.to_nat x)). apply elem_of_seq. lia. }
  unfold scan_row in Hrow. rewrite fmap_is_Some in Hrow.
  apply mapM_is_Some_1 in Hrow. rewrite Forall_forall in Hrow.
  assert (Z.to_nat y ∈ seq 0 (length row0)) as Hyin by (apply elem_of_seq; lia).
  specialize (Hrow _ Hyin). simpl in Hrow. rewrite !Z2Nat.id in Hrow by lia.
  destruct (cell m x y); [eauto|by destruct Hrow].
Qed.

Lemma move_if_is_Some cond (m : Map) t x y :
  (cond = true → is_Some (cell m x y)) → is_Some (move_if cond m t x y).
Proof.
  unfold move_if. destruct cond; [|eauto]. intros [c ->]; [done|]. simpl. eauto.
Qed.

Lemma taxi_action_is_Some (m : Map) row0 rest s t tx :
  m = row0 :: rest →
  (∀ p, in_grid m p → is_Some (cell m p.1 p.2)) →
  in_grid m (Taxi.location tx) →
  is_Some (taxi_action m (Z.of_nat (length m) - 1) (Z.of_nat (length row0) - 1)
                       s (t, tx)).
Proof.
  intros Hm Hcells Hgrid. unfold taxi_action.
  destruct (Taxi.location tx) as [x y]. unfold in_grid in Hgrid. simpl in Hgrid.
  assert (Hw : width m = length row0) by by rewrite Hm.
  assert (Hc : ∀ x' y', 0 ≤ x' < Z.of_nat (length m) → 0 ≤ y' < Z.of_nat (width m) →
                        is_Some (cell m x' y')).
  { intros x' y' ? ?. apply (Hcells (x', y')). by split. }
  destruct (Hc x y) as [here Hhere]; [lia..|]. rewrite Hhere.
  case_bool_decide; simpl; [|eauto].
  destruct (move_if_is_Some (bool_decide (x < Z.of_nat (length m) - 1)) m t (x + 1) y)
    as [down ->]; [intros ?%bool_decide_eq_true; apply Hc; lia|].
  destruct (move_if_is_Some (bool_decide (1 ≤ x)) m t (x - 1) y)
    as [up ->]; [intros ?%bool_decide_eq_true; apply Hc; lia|].
  destruct (move_if_is_Some (bool_decide (y < Z.of_nat (length row0) - 1)) m t x (y + 1))
    as [right ->]; [intros ?%bool_decide_eq_true; apply Hc; lia|].
  destruct (move_if_is_Some (bool_decide (1 ≤ y)) m t x (y - 1))
    as [left ->]; [intros ?%bool_decide_eq_true; apply Hc; lia|].
  simpl. eauto.
Qed.

Lemma collides_is_Some s ja :
  (∀ a, a ∈ ja → is_Some (dict_get (actor a) (taxis s))) → is_Some (collides s ja).
Proof.
  intros H. unfold collides.
  assert (is_Some (mapM (action_location s) ja)) as [keys ->]; [|simpl; eauto].
  apply mapM_is_Some_2, Forall_forall. intros a Ha. simpl.
  destruct (H a Ha) as [tx Htx]. destruct a; simpl in *; rewrite ?Htx; simpl; eauto.
Qed.

Lemma filter_collisions_is_Some s todo acc :
  Forall (λ ja, is_Some (collides s ja)) todo →
  is_Some (filter_collisions s todo acc).
Proof.
  revert acc. induction todo as [|ja todo IH]; intros acc; simpl; [eauto|].
  intros [[c ->] Htodo]%Forall_cons. simpl. by apply IH.
Qed.

Lemma is_Some_bind {A B} (mx : option A) (f : A → option B) x :
  mx = Some x → is_Some (f x) → is_Some (mx ≫= f).
Proof. by intros -> ?. Qed.

Lemma actions_is_Some (m : Map) row0 rest s :
  m = row0 :: rest →
  (∀ p, in_grid m p → is_Some (cell m p.1 p.2)) →
  NoDup (taxis (json_loads s)).*1 →
  cells_ok (in_grid m) (json_loads s) →
  is_Some (actions m s).
Proof.
  intros Hm Hcells ND Hok. unfold actions.
  apply (is_Some_bind _ _ row0); [by rewrite Hm|]. cbv beta zeta.
  set (f := taxi_action m (Z.of_nat (length m) - 1)
                        (Z.of_nat (length row0) - 1) (json_loads s)).
  assert (is_Some (mapM f (taxis (json_loads s)))) as [tas Htas].
  { apply mapM_is_Some_2, Forall_forall. intros [t tx] Hin. simpl.
    apply (taxi_action_is_Some _ row0 rest); [done|done|].
    apply (Hok t). by apply dict_get_elem. }
  apply (is_Some_bind _ _ tas Htas). apply mapM_Some in Htas.
  assert (is_Some (filter_collisions (json_loads s) (product tas) (product tas)))
    as [out Hout].
  { apply filter_collisions_is_Some, Forall_forall. intros ja Hja%elem_of_product.
    apply collides_is_Some. intros a Ha. clear -Htas Hja Ha. subst f.
    revert ja Hja Ha. induction Htas as [|[t tx] l ents tas Hl _ IH]; intros ja Hja Ha;
      inversion Hja as [|a' ? ja' ? Ha' Hja']; subst; [by apply elem_of_nil in Ha|].
    apply elem_of_cons in Ha as [->|Ha].
    - rewrite (taxi_action_actor _ _ _ _ _ _ _ _ Hl Ha'). simpl.
      by rewrite bool_decide_eq_true_2.
    - simpl. case_bool_decide; [eauto|]. by apply (IH ja'). }
  destruct tas as [|l [|l' tas]]; [by rewrite Hout|done|by rewrite Hout].
Qed.

(** X12. For a problem on a non-empty map whose taxis start inside the grid,
    [actions] raises in no reachable state: every cell it reads exists. *)
Theorem actions_never_raises ini pr s :
  well_formed ini → TaxiProblem_init ini = Some pr → i_map ini ≠ [] →
  (∀ t ti, (t, ti) ∈ i_taxis ini → in_grid (i_map ini) (ti_location ti)) →
  reachable pr s →
  is_Some (actions (map pr) s).
Proof.
  intros wf built Hmap H0 Hs.
  pose proof built as Hscan. unfold TaxiProblem_init in Hscan.
  apply bind_Some in Hscan as (gs & Hscan & _).
  destruct (TaxiProblem_init_Some _ _ built) as [Hm _]. rewrite Hm.
  pose proof (Inv_reachable ini pr wf built s Hs) as I.
  destruct (i_map ini) as [|row0 rest] eqn:Em; [done|]. rewrite <- Em in *.
  apply (actions_is_Some _ row0 rest); [done| |apply I|].
  - intros p. by apply scan_gas_stations_cells with gs.
  - apply (cells_reachable (i_map ini) (in_grid (i_map ini))
             (λ p H, proj1 H) (λ p H, H) ini pr s wf built Hm H0 Hs).
Qed.

Lemma actions_never_raises_witness :
  is_Some (actions (map lanes_problem) lanes_midway).
Proof.
  apply (actions_never_raises lanes lanes_problem lanes_midway
           lanes_well_formed lanes_built); [done| |apply lanes_midway_reachable].
  assert (Forall (λ e, in_grid (i_map lanes) (ti_location e.2)) (i_taxis lanes)) as HF.
  { repeat constructor; simpl; lia. }
  rewrite Forall_forall in HF. intros t ti Hin. apply (HF (t, ti) Hin).
Defined.

Lemma carry_is_Some target on_taxi (ps : list (string * Passenger.t)) :
  (∀ p, p ∈ on_taxi → is_Some (dict_get p ps)) → is_Some (carry target on_taxi ps).
Proof.
  revert ps. induction on_taxi as [|p on_taxi IH]; intros ps H; simpl; [eauto|].
  destruct (H p) as [v ->]; [by left|]. simpl. apply IH. intros q Hq.
  apply dict_get_is_Some. rewrite dict_adjust_keys. apply dict_get_is_Some.
  apply H. by right.
Qed.

(** An enumerated atomic action applies without an exception. *)
Lemma apply_is_Some m s a :
  Inv s → pre m s a → is_Some (apply_taxi_action s a).
Proof.
  intros I Hpre. destruct a; simpl in *.
  - eauto.
  - destruct Hpre as (tx & Htx & _). rewrite Htx. simpl.
    destruct (carry_is_Some target (Taxi.passengers_on_taxi tx) (passengers s))
      as [ps ->]; [|simpl; eauto].
    intros p Hp. destruct (inv_on_board _ I taxi tx p Htx Hp) as (? & -> & _); eauto.
  - destruct Hpre as (tx & ps & -> & -> & _). simpl. eauto.
  - destruct Hpre as (tx & ps & -> & -> & Hon & _). simpl.
    destruct (list_remove passenger (Taxi.passengers_on_taxi tx)) as [rest|] eqn:E;
      [simpl; eauto|].
    by apply list_remove_None in E.
  - destruct Hpre as (tx & -> & _). simpl. eauto.
Qed.

Lemma apply_all_is_Some m l s :
  Inv s → Forall (pre m s) l → compatible l → is_Some (apply_all s l).
Proof.
  revert s. induction l as [|a l IH]; intros s I Hpre Hc; simpl; [eauto|].
  apply Forall_cons in Hpre as [Hprea Hpre].
  apply compatible_cons in Hc as [Hc Hother].
  destruct (apply_is_Some m s a I Hprea) as [s1 Hs1]. rewrite Hs1. simpl.
  apply IH; [by eapply Inv_apply| |done].
  apply Forall_forall. intros b Hb. destruct (Hother b Hb) as [Hne Hpick].
  eapply pre_stable; eauto. by eapply Forall_forall in Hpre.
Qed.

(** X13. In every reachable state with at least one taxi, [result] applies
    every action the enumerator returns without raising: every key it
    looks up exists and every passenger it drops off is on board. *)
Theorem result_never_raises ini pr s acts x :
  well_formed ini → TaxiProblem_init ini = Some pr → reachable pr s →
  taxis (json_loads s) ≠ [] →
  actions (map pr) s = Some acts → x ∈ acts →
  is_Some (result s x).
Proof.
  intros wf built Hs Htaxis Hacts Hx.
  pose proof (Inv_reachable ini pr wf built s Hs) as I.
  destruct (enumerated_facts (map pr) s acts x
              (inv_taxis _ I) (inv_passengers _ I) Hacts Hx) as [Hpre H].
  unfold result. destruct x as [a|ja]; simpl in *.
  - rewrite Forall_singleton in Hpre.
    destruct (apply_is_Some _ _ _ I Hpre) as [s' ->]. simpl. eauto.
  - destruct H as (Hc & Hactors & _).
    destruct (apply_all_is_Some _ _ _ I Hpre Hc) as [s' Hs'].
    destruct ja as [|a ja].
    + simpl in Hactors. by destruct (taxis (json_loads s)).
    + rewrite Hs'. simpl. eauto.
Qed.

Lemma result_never_raises_witness :
  is_Some (result lanes_midway (Joint [Move "taxi 1" (0, 2); Wait "taxi 2"])).
Proof.
  destruct (actions (map lanes_problem) lanes_midway) as [acts|] eqn:E;
    [|by vm_compute in E].
  apply (result_never_raises lanes lanes_problem lanes_midway acts _
           lanes_well_formed lanes_built lanes_midway_reachable); [done|done|].
  vm_compute in E. injection E as <-. apply (bool_decide_unpack _). by vm_compute.
Defined.

(** X14. With no taxi in the state, [actions] returns the empty joint action
    alone (it raises on an empty map), and [result] raises on it: it reads
    [action[0]]. *)
Theorem no_taxi_no_step (m : Map) (s : JsonState) :
  taxis (json_loads s) = [] →
  actions m s = (_ ← py_index m 0; Some [Joint []])
  ∧ result s (Joint []) = None.
Proof.
  intros E. split; [|done]. unfold actions. rewrite E.
  by destruct (py_index m 0).
Qed.

Lemma no_taxi_no_step_witness :
  actions [["P"]] (mkJson None (mkState [] [] 0 0 0))
  = (_ ← py_index [["P"]] 0; Some [Joint []])
  ∧ result (mkJson None (mkState [] [] 0 0 0)) (Joint []) = None.
Proof. by apply (no_taxi_no_step [["P"]] (mkJson None (mkState [] [] 0 0 0))). Defined.

(** ** The text of the states, once more *)

(** X15. For every problem, no state that [result] returns has the text of
    the initial state: [__init__] alone writes with [indent=3]. The search
    never finds the initial state among the successors. *)
Theorem initial_text_never_returned ini pr s x s' :
  TaxiProblem_init ini = Some pr → result s x = Some s' →
  text s' ≠ text (initial pr).
Proof.
  intros [_ ->]%TaxiProblem_init_Some [Hind _]%result_Some.
  destruct s' as [indent st']. simpl in Hind. subst indent.
  destruct (text_compact_head st') as [r1 Hr1].
  destruct (text_indent_head 3 (init_state ini)) as [r2 Hr2].
  unfold json_dumps in *. rewrite Hr1, Hr2. done.
Qed.

Lemma initial_text_never_returned_witness :
  text corridor_loaded ≠ text (initial corridor_problem).
Proof.
  apply (initial_text_never_returned corridor corridor_problem
           (initial corridor_problem) (Atomic (PickUp "taxi 1" "Iris")));
    [apply corridor_built|reflexivity].
Defined.

(** ** The heuristics, once more *)

(** X16. [h_1] is admissible: at every reachable state its value is at most
    the length of every plan of enumerated actions that reaches a goal
    state. *)
Theorem h_1_never_overestimates ini pr s plan g q :
  well_formed ini → TaxiProblem_init ini = Some pr →
  reachable pr s → run (map pr) s plan = Some g → goal_test g = true →
  h_1 (mkNode s) = Some q →
  (q <= inject_Z (Z.of_nat (length plan)))%Q.
Proof. intros wf built. by apply (h_1_admissible ini pr wf built). Qed.

Lemma h_1_never_overestimates_witness :
  (4 # 2 <= inject_Z (Z.of_nat (length lanes_plan)))%Q.
Proof.
  destruct (run (map lanes_problem) (initial lanes_problem) lanes_plan) as [g|] eqn:E;
    [|by vm_compute in E].
  apply (h_1_never_overestimates lanes lanes_problem (initial lanes_problem)
           lanes_plan g (4 # 2) lanes_well_formed lanes_built (reachable_initial _) E).
  - vm_compute in E. by injection E as <-.
  - by vm_compute.
Defined.

Lemma Qdiv_inject_zero a n :
  n ≠ 0 → (inject_Z a / inject_Z n == 0)%Q ↔ a = 0.
Proof.
  intros Hn. split.
  - intros E. apply inject_Z_injective.
    rewrite <- (Qmult_div_r (inject_Z a) (inject_Z n)).
    + rewrite E. apply Qmult_0_r.
    + intros E0. apply Hn, inject_Z_injective. exact E0.
  - intros ->. unfold Qdiv. apply Qmult_0_l.
Qed.

(** The counter of the passengers on board is not negative either. *)
Lemma Inv_counters_nonneg st :
  Inv st → 0 ≤ num_of_unpicked st ∧ 0 ≤ num_of_picked_undelivered st.
Proof.
  intros I. pose proof (inv_unpicked _ I). pose proof (inv_undelivered _ I).
  pose proof (inv_sum _ I).
  assert (count_if unpicked (passengers st) ≤ count_if undelivered (passengers st))%nat.
  { apply count_if_le. intros p ps Hin Hp. unfold unpicked, undelivered in *.
    destruct (inv_waiting _ I p ps) as [_ ->]; [|by destruct (Passenger.is_picked ps)|done].
    apply dict_get_elem; [apply I|done]. }
  lia.
Qed.

(** X17. In every reachable state where [h_1] returns a value, the value is
    0 exactly at the goal states. *)
Theorem h_1_zero_at_goal_only ini pr s q :
  well_formed ini → TaxiProblem_init ini = Some pr → reachable pr s →
  h_1 (mkNode s) = Some q →
  ((q == 0)%Q ↔ goal_test s = true).
Proof.
  intros wf built Hs Hq. pose proof (Inv_reachable ini pr wf built s Hs) as I.
  unfold h_1, py_truediv in Hq. simpl in Hq. case_bool_decide as Hn; [done|].
  injection Hq as <-. rewrite (Qdiv_inject_zero _ _ Hn).
  unfold goal_test. rewrite bool_decide_eq_true.
  destruct (Inv_counters_nonneg _ I). pose proof (inv_sum _ I). lia.
Qed.

Lemma h_1_zero_at_goal_only_witness :
  ((0 # 1 == 0)%Q ↔ goal_test corridor_goal = true).
Proof.
  apply (h_1_zero_at_goal_only corridor corridor_problem corridor_goal (0 # 1)
           corridor_well_formed corridor_built corridor_goal_reachable).
  by vm_compute.
Defined.

From Stdlib Require Import Lqa.

Lemma closest_distance_nonneg loc s d t :
  find_distance_of_closest_taxi loc s = Some (d, t) → 0 ≤ d.
Proof.
  unfold find_distance_of_closest_taxi.
  destruct (closest_fold loc (taxis s) 100000 None) as [_ Hcases]. simpl in Hcases.
  set (r := foldl _ _ (taxis s)) in *.
  destruct Hcases as [[Hr _]|[_ (e & _ & Hr)]]; rewrite Hr; simpl; [done|].
  intros [= <- _]. unfold manhattan_distance. lia.
Qed.

Lemma h_sums_nonneg s ps a b x y :
  h_sums s ps a b = Some (x, y) → 0 ≤ a → 0 ≤ b → 0 ≤ x ∧ 0 ≤ y.
Proof.
  revert a b. induction ps as [|[p0 p] ps IH]; intros a b; simpl.
  - by intros [= <- <-].
  - intros (to_taxi & Ht & H)%bind_Some Ha Hb. apply (IH _ _ H).
    + destruct (Passenger.is_arrived p); [done|]. unfold manhattan_distance. lia.
    + destruct (Passenger.is_picked p); [by injection Ht as <-|].
      apply bind_Some in Ht as ([d t] & Hd%closest_distance_nonneg & [= <-]).
      simpl. lia.
Qed.

Lemma py_truediv_nonneg a n q :
  py_truediv a n = Some q → 0 ≤ a → 0 < n → (0 <= q)%Q.
Proof.
  unfold py_truediv. case_bool_decide; [done|]. intros [= <-] Ha Hn.
  apply Qle_shift_div_l.
  - change 0%Q with (inject_Z 0). by rewrite <- Zlt_Qlt.
  - rewrite Qmult_0_l. change 0%Q with (inject_Z 0). by rewrite <- Zle_Qle.
Qed.

(** X18. In every reachable state that is no goal state, a value [h]
    returns is at least [num_of_undelivered], hence at least 1: [h] is not
    0 while a passenger is left to deliver. *)
Theorem h_positive_before_goal ini pr s q :
  well_formed ini → TaxiProblem_init ini = Some pr → reachable pr s →
  goal_test s = false → h (mkNode s) = Some q →
  (inject_Z (num_of_undelivered (json_loads s)) <= q)%Q ∧ (1 <= q)%Q.
Proof.
  intros wf built Hs Hgoal%bool_decide_eq_false Hq.
  pose proof (Inv_reachable ini pr wf built s Hs) as I.
  destruct (Inv_counters_nonneg _ I) as [Hunp Hpu]. pose proof (inv_sum _ I) as Hsum.
  assert (1 ≤ num_of_undelivered (json_loads s)) as Hund by lia.
  assert (inject_Z 1 <= inject_Z (num_of_undelivered (json_loads s)))%Q as Hund'
    by by rewrite <- Zle_Qle.
  assert (0 <= inject_Z (num_of_unpicked (json_loads s)))%Q as Hunp'
    by (change 0%Q with (inject_Z 0); by rewrite <- Zle_Qle).
  change (inject_Z 1) with 1%Q in Hund'.
  cut (inject_Z (num_of_undelivered (json_loads s)) <= q)%Q; [intros; split; lra|].
  unfold h in Hq. simpl in Hq. rewrite bool_decide_eq_false_2 in Hq by done.
  apply bind_Some in Hq as ([x y] & Hsums & Hq).
  destruct (h_sums_nonneg _ _ _ _ _ _ Hsums) as [Hx Hy]; [done..|].
  apply bind_Some in Hq as (avg_dest & Hdest & Hq). simpl in Hdest.
  pose proof (py_truediv_nonneg _ _ _ Hdest Hx) as Hd. specialize (Hd ltac:(lia)).
  case_bool_decide as Hpos.
  - apply bind_Some in Hq as (avg_taxi & Htaxi & Hq). simpl in Htaxi.
    pose proof (py_truediv_nonneg _ _ _ Htaxi Hy Hpos) as Ht.
    case_bool_decide as Hdiff; injection Hq as <-; [|lra].
    match goal with
    | |- context [inject_Z (?u - ?c)] =>
        assert (0 <= inject_Z (u - c))%Q
          by (change 0%Q with (inject_Z 0); rewrite <- Zle_Qle; lia)
    end.
    lra.
  - injection Hq as <-. lra.
Qed.

Lemma h_positive_before_goal_witness :
  (inject_Z (num_of_undelivered (json_loads lanes_midway)) <= 8 # 2)%Q
  ∧ (1 <= 8 # 2)%Q.
Proof.
  apply (h_positive_before_goal lanes lanes_problem lanes_midway (8 # 2)
           lanes_well_formed lanes_built lanes_midway_reachable); by vm_compute.
Defined.

(** ** The enumerator, once more *)

(** X19. With several taxis (or none), the joint actions [actions] returns
    are exactly the tuples made of one atomic action from the list of each
    taxi, in the order of the taxis, whose cells after the step are
    pairwise distinct: the filter removes every collision and nothing
    else. *)
Theorem joint_actions_characterised (m : Map) s acts ja :
  actions m s = Some acts → length (taxis (json_loads s)) ≠ 1%nat →
  (Joint ja ∈ acts ↔
   Forall2 (λ a entry, ∃ l, actions_of_taxi m s entry = Some l ∧ a ∈ l)
           ja (taxis (json_loads s))
   ∧ ∃ positions, mapM (post_position (json_loads s)) ja = Some positions
                  ∧ NoDup positions).
Proof. apply joint_actions_exact. Qed.

Lemma joint_actions_characterised_witness :
  ∃ acts,
    actions (map lanes_problem) lanes_midway = Some acts
    ∧ (Joint [Move "taxi 1" (0, 2); Wait "taxi 2"] ∈ acts
       ↔ Forall2 (λ a entry, ∃ l, actions_of_taxi (map lanes_problem) lanes_midway entry
                                  = Some l ∧ a ∈ l)
                 [Move "taxi 1" (0, 2); Wait "taxi 2"]
                 (taxis (json_loads lanes_midway))
         ∧ ∃ positions,
             mapM (post_position (json_loads lanes_midway))
                  [Move "taxi 1" (0, 2); Wait "taxi 2"] = Some positions
             ∧ NoDup positions).
Proof.
  destruct (actions (map lanes_problem) lanes_midway) as [acts|] eqn:E;
    [|by vm_compute in E].
  exists acts. split; [done|].
  apply (joint_actions_characterised (map lanes_problem) lanes_midway);
    [done|simpl; lia].
Defined.

Lemma wait_positions (d ents : list (string * Taxi.t)) :
  NoDup d.*1 → (∀ e, e ∈ ents → e ∈ d) →
  mapM (post_position (mkState d [] 0 0 0)) (Wait <$> ents.*1)
  = Some (Taxi.location <$> ents.*2).
Proof.
  intros ND. induction ents as [|[t tx] ents IH]; intros Hsub; [done|].
  rewrite !fmap_cons. simpl.
  rewrite (dict_get_elem t d tx ND) by (apply Hsub; by left). simpl.
  rewrite IH; [done|]. intros e He. apply Hsub. by right.
Qed.

Lemma post_position_taxis s s' a :
  taxis s = taxis s' → post_position s a = post_position s' a.
Proof. intros E. destruct a; simpl; by rewrite ?E. Qed.

Lemma wait_in_taxi_action m rows cols s t tx l :
  taxi_action m rows cols s (t, tx) = Some l → Wait t ∈ l.
Proof. intros (moves & here & -> & _)%taxi_action_Some. by left. Qed.

(** X20. In a state whose taxis have distinct names and stand on pairwise
    distinct cells, whenever [actions] returns, the action in which every
    taxi waits is among the actions returned: the list is never empty
    there. *)
Theorem waiting_is_always_legal (m : Map) s acts :
  NoDup (taxis (json_loads s)).*1 → NoDup (taxi_locations (json_loads s)) →
  actions m s = Some acts →
  all_wait (json_loads s) ∈ acts.
Proof.
  intros ND NDloc Hacts.
  assert (Forall2 (λ a entry, ∃ l, actions_of_taxi m s entry = Some l ∧ a ∈ l)
                  (Wait <$> (taxis (json_loads s)).*1) (taxis (json_loads s))) as Hwaits.
  { pose proof Hacts as H. unfold actions, actions_of_taxi in *.
    apply bind_Some in H as (row0 & -> & H). simpl.
    apply bind_Some in H as (tas & Htas%mapM_Some & _).
    clear -Htas. induction Htas as [|[t tx] l ents tas Hl _ IH]; [constructor|].
    rewrite !fmap_cons. constructor; [|done].
    exists l. split; [done|]. by eapply wait_in_taxi_action. }
  unfold all_wait. destruct (taxis (json_loads s)) as [|[t tx] [|e rest]] eqn:E.
  - apply (joint_actions_exact m s acts []); [done|by rewrite E|].
    rewrite E. split; [constructor|]. exists []. split; [done|constructor].
  - inversion Hwaits as [|? ? ? ? (l & Hl & _) _]; subst. clear Hwaits.
    unfold actions, actions_of_taxi in *. rewrite E in Hacts.
    apply bind_Some in Hl as (row0 & Hrow0 & Hl). rewrite Hrow0 in Hacts.
    cbn -[taxi_action] in Hacts. rewrite Hl in Hacts. injection Hacts as <-.
    apply list_elem_of_fmap_2. by eapply wait_in_taxi_action.
  - rewrite <- E in *.
    apply (joint_actions_exact m s acts); [done|rewrite E; simpl; lia|].
    split; [done|]. exists (taxi_locations (json_loads s)). split; [|done].
    unfold taxi_locations.
    rewrite <- (wait_positions (taxis (json_loads s)) (taxis (json_loads s)) ND)
      by done.
    apply mapM_ext. intros a. by apply post_position_taxis.
Qed.

Lemma waiting_is_always_legal_witness :
  ∃ acts, actions (map lanes_problem) lanes_midway = Some acts
          ∧ all_wait (json_loads lanes_midway) ∈ acts.
Proof.
  destruct (actions (map lanes_problem) lanes_midway) as [acts|] eqn:E;
    [|by vm_compute in E].
  exists acts. split; [done|].
  apply (waiting_is_always_legal (map lanes_problem) lanes_midway);
    [by apply NoDup_decide|by apply NoDup_decide|done].
Defined.

(** ** The list of one taxi *)

(** X21. In the list [actions] builds for a taxi, the drop-off of a
    passenger is listed exactly when the passenger is on board of this taxi
    and the taxi stands on the passenger's destination, and the refuel is
    listed exactly when the cell of the taxi is a gas station ['G']. *)
Theorem drop_off_and_refuel_enumerated (m : Map) (s : JsonState) t tx l p :
  actions_of_taxi m s (t, tx) = Some l →
  (DropOff t p ∈ l ↔
   p ∈ Taxi.passengers_on_taxi tx
   ∧ ∃ ps, (p, ps) ∈ passengers (json_loads s)
           ∧ Passenger.destination ps = Taxi.location tx)
  ∧ (Refuel t ∈ l ↔
     cell m (Taxi.location tx).1 (Taxi.location tx).2 = Some "G").
Proof.
  unfold actions_of_taxi. intros (row0 & _ & H)%bind_Some.
  apply taxi_action_Some in H as (moves & here & -> & Hhere & Hmoves).
  rewrite !elem_of_app, !list_elem_of_singleton, !elem_of_pick_actions,
    !elem_of_drop_actions. split; split.
  - intros [?|[Ha|[Ha|[Ha|Ha]]]]; [done| | | |].
    + by destruct (Hmoves _ Ha) as (_ & ? & ?).
    + by destruct Ha as (? & ? & ? & _).
    + destruct Ha as (p' & ps & [= <-] & ?). naive_solver.
    + case_bool_decide; [|by apply elem_of_nil in Ha].
      by apply list_elem_of_singleton in Ha.
  - intros (? & ps & ? & ?). right; right; right; left. eauto 10.
  - intros [?|[Ha|[Ha|[Ha|Ha]]]]; [done| | | |].
    + by destruct (Hmoves _ Ha) as (_ & ? & ?).
    + by destruct Ha as (? & ? & ? & _).
    + by destruct Ha as (? & ? & ? & _).
    + case_bool_decide; [by subst|by apply elem_of_nil in Ha].
  - intros Hg. rewrite Hg in Hhere. injection Hhere as <-.
    right; right; right; right. rewrite bool_decide_eq_true_2 by done. by left.
Qed.

Lemma drop_off_and_refuel_enumerated_witness :
  (DropOff "taxi 1" "Iris" ∈ [Wait "taxi 1"; DropOff "taxi 1" "Iris"; Refuel "taxi 1"] ↔
   "Iris" ∈ ["Iris"]
   ∧ ∃ ps, ("Iris", ps) ∈ [("Iris", Passenger.mk (0, 0) (0, 1) true false (0, 1))]
           ∧ Passenger.destination ps = (0, 1))
  ∧ (Refuel "taxi 1" ∈ [Wait "taxi 1"; DropOff "taxi 1" "Iris"; Refuel "taxi 1"] ↔
     cell [["P"; "G"]] 0 1 = Some "G").
Proof.
  apply (drop_off_and_refuel_enumerated [["P"; "G"]]
           (mkJson None
              (mkState [("taxi 1", Taxi.mk (0, 1) 0 0 1 ["Iris"])]
                       [("Iris", Passenger.mk (0, 0) (0, 1) true false (0, 1))]
                       1 0 1))
           "taxi 1" (Taxi.mk (0, 1) 0 0 1 ["Iris"])).
  reflexivity.
Defined.

Lemma move_if_true m t x y c :
  cell m x y = Some c → c ≠ "I" → move_if true m t x y = Some [Move t (x, y)].
Proof.
  intros Hc Hn. unfold move_if. rewrite Hc. simpl.
  by rewrite bool_decide_eq_true_2.
Qed.

(** X22. From a cell inside the grid, the list of a taxi contains the move
    to a cell exactly when the taxi has fuel left and the cell is one of the
    four neighbours, lies inside the grid and is no wall: every such move is
    offered, and no other. *)
Theorem move_enumerated (m : Map) (s : JsonState) t tx l target :
  actions_of_taxi m s (t, tx) = Some l →
  in_grid m (Taxi.location tx) →
  (Move t target ∈ l ↔
   0 < Taxi.fuel tx
   ∧ manhattan_distance (Taxi.location tx) target = 1
   ∧ in_grid m target
   ∧ ∃ c, cell m target.1 target.2 = Some c ∧ c ≠ "I").
Proof.
  unfold actions_of_taxi. intros (row0 & Hrow0 & Hl)%bind_Some Hin.
  destruct (py_index_head _ _ Hrow0) as [rest ->]. split.
  - intros Ha.
    destruct (taxi_action_move _ _ _ _ _ _ _ _ _ Hl Ha) as (_ & Hfuel & Hcell & Hdir).
    unfold in_grid, manhattan_distance in *. simpl length in *. simpl width in *.
    split_and!; [done| |..|done];
      destruct Hdir as [[-> ?]|[[-> ?]|[[-> ?]|[-> ?]]]]; simpl; lia.
  - intros (Hfuel & Hd & Hg & c & Hc & Hn).
    unfold in_grid, manhattan_distance in *. simpl length in *. simpl width in *.
    destruct target as [u v]. unfold taxi_action in Hl.
    destruct (Taxi.location tx) as [x y]. simpl in Hin, Hd, Hg, Hc.
    rewrite bool_decide_eq_true_2 in Hl by done.
    apply bind_Some in Hl as (moves & Hmoves & Hl).
    apply bind_Some in Hl as (here & _ & [= <-]).
    apply bind_Some in Hmoves as (down & Hdn & Hmoves).
    apply bind_Some in Hmoves as (up & Hu & Hmoves).
    apply bind_Some in Hmoves as (right & Hr & Hmoves).
    apply bind_Some in Hmoves as (left & Hlf & [= <-]).
    apply elem_of_cons; right. rewrite !elem_of_app. left.
    assert ((u = x + 1 ∧ v = y) ∨ (u = x - 1 ∧ v = y)
            ∨ (u = x ∧ v = y + 1) ∨ (u = x ∧ v = y - 1))
      as [[-> ->]|[[-> ->]|[[-> ->]|[-> ->]]]] by lia.
    + rewrite bool_decide_eq_true_2, (move_if_true _ _ _ _ c) in Hdn by (done || lia).
      injection Hdn as <-. left. by left.
    + rewrite bool_decide_eq_true_2, (move_if_true _ _ _ _ c) in Hu by (done || lia).
      injection Hu as <-. right; left. by left.
    + rewrite bool_decide_eq_true_2, (move_if_true _ _ _ _ c) in Hr by (done || lia).
      injection Hr as <-. right; right; left. by left.
    + rewrite bool_decide_eq_true_2, (move_if_true _ _ _ _ c) in Hlf by (done || lia).
      injection Hlf as <-. right; right; right. by left.
Qed.

Lemma move_enumerated_witness :
  Move "taxi 1" (0, 1) ∈ [Wait "taxi 1"; Move "taxi 1" (0, 1); PickUp "taxi 1" "Iris"] ↔
  0 < 1
  ∧ manhattan_distance (0, 0) (0, 1) = 1
  ∧ in_grid (map corridor_problem) (0, 1)
  ∧ ∃ c, cell (map corridor_problem) 0 1 = Some c ∧ c ≠ "I".
Proof.
  apply (move_enumerated (map corridor_problem) (initial corridor_problem)
           "taxi 1" (Taxi.mk (0, 0) 1 1 1 [])); [by vm_compute|].
  unfold in_grid. simpl. lia.
Defined.

(** ** Construction *)

Lemma elem_of_mjoin_mapM {A B} (f : A → option (list B)) xs out b :
  mjoin <$> mapM f xs = Some out →
  (b ∈ out ↔ ∃ x l, x ∈ xs ∧ f x = Some l ∧ b ∈ l).
Proof.
  intros (ls & Hls%mapM_Some & ->)%fmap_Some. rewrite list_elem_of_join.
  induction Hls as [|x l xs ls Hx _ IH].
  - split; [intros (? & _ & ?%elem_of_nil)|intros (? & ? & ?%elem_of_nil & _)]; done.
  - split.
    + intros (l' & Hb & [->|Hin]%elem_of_cons).
      * exists x, l. split; [by left|done].
      * destruct (proj1 IH) as (x' & l0 & ? & ? & ?); [eauto|].
        exists x', l0. split; [by right|done].
    + intros (x' & l' & [->|Hin]%elem_of_cons & Hf & Hb).
      * exists l. split; [congruence|by left].
      * destruct (proj2 IH) as (l0 & ? & ?); [eauto|].
        exists l0. split; [done|by right].
Qed.

(** X23. The list [gas_station] the constructor builds holds exactly the
    cells of the grid, within the width of the first row, whose letter is
    ['G']. *)
Theorem gas_stations_listed (game : Initial) (problem : TaxiProblem) (p : Pos) :
  create_taxi_problem game = Some problem →
  (p ∈ gas_station problem ↔
   in_grid (map problem) p ∧ cell (map problem) p.1 p.2 = Some "G").
Proof.
  unfold create_taxi_problem, TaxiProblem_init.
  intros (gs & Hscan & [= <-])%bind_Some. simpl.
  unfold scan_gas_stations in Hscan. destruct (i_map game) as [|row0 rest] eqn:Em.
  { injection Hscan as <-. unfold in_grid. simpl.
    split; [by intros ?%elem_of_nil|lia]. }
  rewrite <- Em in Hscan |- *.
  rewrite (elem_of_mjoin_mapM _ _ _ p Hscan).
  assert (width (i_map game) = length row0) as Hw by by rewrite Em.
  unfold in_grid. rewrite Hw. destruct p as [u v]. simpl. split.
  - intros (x & l & Hx%elem_of_seq & Hrow & Hp).
    unfold scan_row in Hrow.
    apply (elem_of_mjoin_mapM _ _ _ (u, v) Hrow) in Hp
      as (y & cs & Hy%elem_of_seq & Hc & Hp).
    apply bind_Some in Hc as (c & Hc & [= <-]).
    case_bool_decide; [|by apply elem_of_nil in Hp].
    apply list_elem_of_singleton in Hp as [= -> ->]. subst c.
    split; [lia|done].
  - intros ([Hu Hv] & Hc).
    assert (is_Some (scan_row (i_map game) (Z.to_nat u) (length row0))) as [l Hl].
    { apply fmap_Some in Hscan as (rows & Hrows & _).
      assert (is_Some (mapM (λ x : nat, scan_row (i_map game) x (length row0))
                            (seq 0 (length (i_map game))))) as Hs by eauto.
      apply mapM_is_Some_1 in Hs. rewrite Forall_forall in Hs.
      apply (Hs (Z.to_nat u)), elem_of_seq. lia. }
    exists (Z.to_nat u), l. split_and!; [apply elem_of_seq; lia|done|].
    unfold scan_row in Hl. apply (elem_of_mjoin_mapM _ _ _ (u, v) Hl).
    exists (Z.to_nat v), [(u, v)]. split_and!; [apply elem_of_seq; lia| |by left].
    rewrite !Z2Nat.id by lia. rewrite Hc. reflexivity.
Qed.

Lemma gas_stations_listed_witness :
  (1, 1) ∈ gas_station sample_problem ↔
  in_grid (map sample_problem) (1, 1) ∧ cell (map sample_problem) 1 1 = Some "G".
Proof.
  apply (gas_stations_listed sample sample_problem (1, 1)). apply sample_built.
Defined.

(** X24. The constructor succeeds exactly when every row of the map is at
    least as long as the first one; on a map with a shorter row the scan for
    gas stations raises [IndexError]. *)
Theorem construction_succeeds_iff (game : Initial) :
  is_Some (create_taxi_problem game)
  ↔ Forall (λ row, (width (i_map game) ≤ length row)%nat) (i_map game).
Proof.
  unfold create_taxi_problem, TaxiProblem_init.
  set (m := i_map game). split.
  - intros [problem (gs & Hscan & _)%bind_Some].
    apply Forall_forall. intros row Hrow.
    destruct (decide (width m = 0%nat)) as [->|Hpos]; [lia|].
    apply list_elem_of_lookup in Hrow as [i Hi].
    pose proof (lookup_lt_Some _ _ _ Hi) as Hlt.
    destruct (scan_gas_stations_cells m gs (Z.of_nat i, Z.of_nat (width m - 1)) Hscan)
      as [c Hc].
    { unfold in_grid. simpl. lia. }
    simpl in Hc. unfold cell, py_index in Hc.
    rewrite !bool_decide_eq_true_2, !Nat2Z.id, Hi in Hc by lia. simpl in Hc.
    apply lookup_lt_Some in Hc. lia.
  - intros Hrows. rewrite Forall_forall in Hrows.
    assert (is_Some (scan_gas_stations m)) as [gs ->]; [|by eauto].
    unfold scan_gas_stations. destruct m as [|row0 rest] eqn:Em; [by eauto|].
    rewrite <- Em in *. rewrite fmap_is_Some.
    apply mapM_is_Some_2, Forall_forall. intros x Hx%elem_of_seq. simpl.
    unfold scan_row. rewrite fmap_is_Some.
    apply mapM_is_Some_2, Forall_forall. intros y Hy%elem_of_seq. simpl.
    destruct (lookup_lt_is_Some_2 m x) as [row Hrow]; [lia|].
    assert (width m = length row0) as Hw by by rewrite Em.
    assert (length row0 ≤ length row)%nat as Hlen.
    { rewrite <- Hw. apply Hrows. by eapply list_elem_of_lookup_2. }
    destruct (lookup_lt_is_Some_2 row y) as [c Hc]; [lia|].
    unfold cell, py_index.
    rewrite !bool_decide_eq_true_2, !Nat2Z.id, Hrow by lia. simpl.
    rewrite Hc. simpl. eauto.
Qed.
